(** * qtnodes: layout, connections and the connection gesture

    A shallow embedding of [restart.py]: the Python objects live in a
    store indexed by object identity, methods are computations in a
    state-and-exception monad over that store, and the parts of Qt the
    code calls (item positions, parent/child links, scene membership,
    integer rectangles) are modelled by the few fields they need. *)

From Stdlib Require Import ZArith PrimFloat Uint63.
From stdpp Require Import gmap strings list fin_maps.

#[local] Set Warnings "-inexact-float,-clear-no-such-hyp".

Open Scope string_scope.
Open Scope Z_scope.

(** ** Module-level constants *)

Definition FLOW_LEFT_TO_RIGHT : string := "flow_left_to_right".
Definition FLOW_RIGHT_TO_LEFT : string := "flow_right_to_left".

(** ** Python values and exceptions *)

(** The values a keyword argument such as [margin] can carry. *)
Inductive PyVal :=
| PNone
| PInt (z : Z)
| PFloat (f : float)
| PStr (s : string).

(** [v == s] for a string constant [s]. *)
Definition py_eq_str (v : PyVal) (s : string) : bool :=
  match v with
  | PStr t => bool_decide (t = s)
  | _ => false
  end.

(** The exception classes the module can raise: its own
    [UnknownFlowError] and the built-in ones raised by the set, dict and
    attribute operations it performs, and by the conversion of a Python
    integer to a C [int]. *)
Inductive PyExc :=
| KeyError
| AttributeError
| TypeError
| RuntimeError
| UnknownFlowError
| OverflowError.

(** The Python class name of an exception. *)
Definition exc_name (e : PyExc) : string :=
  match e with
  | KeyError => "KeyError"
  | AttributeError => "AttributeError"
  | TypeError => "TypeError"
  | RuntimeError => "RuntimeError"
  | UnknownFlowError => "UnknownFlowError"
  | OverflowError => "OverflowError"
  end.

(** [UnknownFlowError] derives from [QtNodesError]; the others are
    built-in. *)
Definition is_QtNodesError (e : PyExc) : bool :=
  match e with
  | UnknownFlowError => true
  | _ => false
  end.

(** ** Qt value types *)

(** Python floats and Qt's [qreal] are binary64. *)
Definition float_of_Z (z : Z) : float :=
  match z with
  | Z0 => 0%float
  | Zpos _ => PrimFloat.of_uint63 (Uint63.of_Z z)
  | Zneg _ => PrimFloat.opp (PrimFloat.of_uint63 (Uint63.of_Z (- z)))
  end.

Record QPointF := mkQPointF { qx : float; qy : float }.
Record QPoint := mkQPoint { ix : Z; iy : Z }.
Record QSize := mkQSize { width : Z; height : Z }.

(** The implicit conversion PySide applies where a [QPointF] is wanted. *)
Definition QPointF_of_QPoint (p : QPoint) : QPointF :=
  mkQPointF (float_of_Z (ix p)) (float_of_Z (iy p)).

(** A C [int]: 32 bits, two's complement. [fits_int] tells the Python
    integers that convert to one; [int32] is the value an [int]
    computation leaves, wrapped around. *)
Definition fits_int (z : Z) : bool :=
  bool_decide (-2147483648 ≤ z ∧ z < 2147483648).
Definition int32 (z : Z) : Z := (z + 2147483648) mod 4294967296 - 2147483648.

(** [QRect] stores its two corners as C [int]s; [QRect(x, y, w, h)] has
    the bottom-right corner at [(x + w - 1, y + h - 1)], computed in
    [int]. The arguments are taken to fit in an [int], as PySide
    requires of them. *)
Record QRect := mkQRect { x1 : Z; y1 : Z; x2 : Z; y2 : Z }.

Definition QRect_xywh (x y w h : Z) : QRect :=
  mkQRect x y (int32 (x + w - 1)) (int32 (y + h - 1)).

Definition QRect_left (r : QRect) : Z := x1 r.
Definition QRect_right (r : QRect) : Z := x2 r.
Definition QRect_bottom (r : QRect) : Z := y2 r.
Definition QRect_width (r : QRect) : Z := int32 (x2 r - x1 r + 1).
(** Integer centre: the sum of the corners in 64 bits, halved with C's
    truncating division. *)
Definition QRect_center (r : QRect) : QPoint :=
  mkQPoint ((x1 r + x2 r) ÷ 2) ((y1 r + y2 r) ÷ 2).

(** Qt's comparisons of [qreal]s and of points: [qFuzzyIsNull],
    [qMin], [qFuzzyCompare] and [QPointF == QPointF], which compares a
    coordinate with zero by its distance and two others by their
    distance relative to the smaller. *)
Definition qFuzzyIsNull (d : float) : bool :=
  (abs d <=? 0.000000000001)%float.
Definition qMin (a b : float) : float := if (a <? b)%float then a else b.
Definition qFuzzyCompare (a b : float) : bool :=
  (abs (a - b) * 1000000000000 <=? qMin (abs a) (abs b))%float.
Definition qreal_eq (a b : float) : bool :=
  if ((a =? 0) || (b =? 0))%float then qFuzzyIsNull (a - b)
  else qFuzzyCompare a b.
Definition QPointF_eq (p q : QPointF) : bool :=
  qreal_eq (qx p) (qx q) && qreal_eq (qy p) (qy q).

Inductive Color :=
| QColor (r g b : Z)
| Qt_black
| Qt_yellow.

Inductive QPen :=
| DefaultPen
| NoPen
| Pen (c : Color) (w : float).

Inductive QBrush :=
| DefaultBrush
| NoBrush
| Brush (c : Color).

(** The elements of a [QPainterPath]. *)
Inductive PathElement :=
| MoveTo (p : QPointF)
| CubicTo (c1 c2 p : QPointF).

(** ** Object identity *)

(** References to graphics items, tagged with their class; the tag is
    what [isinstance] inspects. *)
Inductive Item :=
| IKnob (k : positive)
| IEdge (e : positive)
| INode (n : positive)
| IHeader (h : positive).

#[global] Instance Item_eq_dec : EqDecision Item.
Proof. solve_decision. Defined.

#[global] Instance Item_countable : Countable Item.
Proof.
  refine (inj_countable'
    (λ i, match i with
          | IKnob k => inl k
          | IEdge e => inr (inl e)
          | INode n => inr (inr (inl n))
          | IHeader h => inr (inr (inr h))
          end)
    (λ c, match c with
          | inl k => IKnob k
          | inr (inl e) => IEdge e
          | inr (inr (inl n)) => INode n
          | inr (inr (inr h)) => IHeader h
          end) _).
  by intros [].
Defined.

(** The three classes of knob. *)
Inductive KnobClass := BaseKnob | InputKnob | OutputKnob.

(** ** The objects *)

Record Knob := mkKnob {
  Knob_class : KnobClass;
  Knob_x : Z;
  Knob_y : Z;
  Knob_w : Z;
  Knob_h : Z;
  Knob_margin : PyVal;
  Knob_flow : PyVal;
  Knob_labelText : string;
  Knob_labelColor : Color;
  Knob_fillColor : Color;
  Knob_oldFillColor : option Color;
  Knob_edges : gset Item;
  (* Qt item state *)
  Knob_pos : QPointF;
  Knob_parentItem : option positive
}.

Record Edge := mkEdge {
  Edge_lineColor : Color;
  Edge_hoverColor : Color;
  Edge_thickness : float;
  Edge_knob1 : option positive;
  Edge_knob2 : option positive;
  Edge_pos1 : QPointF;
  Edge_pos2 : QPointF;
  Edge_curv1 : float;
  Edge_curv3 : float;
  Edge_curv2 : float;
  Edge_curv4 : float;
  (* Qt item state *)
  Edge_pen : QPen;
  Edge_brush : QBrush;
  Edge_zValue : Z;
  Edge_path : list PathElement
}.

Record Header := mkHeader {
  Header_node : positive;
  Header_text : string;
  Header_h : Z;
  Header_fillColor : Color;
  Header_textColor : Color;
  (* Qt item state *)
  Header_pos : QPointF;
  Header_parentItem : option positive
}.

Record Node := mkNode {
  Node_header : option positive;
  Node_x : Z;
  Node_y : Z;
  Node_w : Z;
  Node_h : Z;
  Node_margin : Z;
  Node_roundness : Z;
  Node_fillColor : Color;
  (* Qt item state *)
  Node_pos : QPointF;
  Node_childItems : list Item
}.

(** ** The store *)

Record State := mkState {
  knobs : gmap positive Knob;
  edges : gmap positive Edge;
  nodes : gmap positive Node;
  headers : gmap positive Header;
  (** [scene.items()] of the one [QGraphicsScene] *)
  scene_items : gset Item;
  (** the module global [CURRENT_ZOOM] *)
  CURRENT_ZOOM : float;
  (** [GridView.zoomStep] and the [m11] entry of the view's transform *)
  zoomStep : float;
  view_m11 : float;
  (** [SceneEventHandler.temp] *)
  temp : gmap string Item;
  (** what [print] has written *)
  stdout : list string
}.

Definition set_knobs (f : gmap positive Knob → gmap positive Knob) (s : State) : State :=
  mkState (f (knobs s)) (edges s) (nodes s) (headers s) (scene_items s)
          (CURRENT_ZOOM s) (zoomStep s) (view_m11 s) (temp s) (stdout s).
Definition set_edges (f : gmap positive Edge → gmap positive Edge) (s : State) : State :=
  mkState (knobs s) (f (edges s)) (nodes s) (headers s) (scene_items s)
          (CURRENT_ZOOM s) (zoomStep s) (view_m11 s) (temp s) (stdout s).
Definition set_nodes (f : gmap positive Node → gmap positive Node) (s : State) : State :=
  mkState (knobs s) (edges s) (f (nodes s)) (headers s) (scene_items s)
          (CURRENT_ZOOM s) (zoomStep s) (view_m11 s) (temp s) (stdout s).
Definition set_headers (f : gmap positive Header → gmap positive Header) (s : State) : State :=
  mkState (knobs s) (edges s) (nodes s) (f (headers s)) (scene_items s)
          (CURRENT_ZOOM s) (zoomStep s) (view_m11 s) (temp s) (stdout s).
Definition set_scene_items (f : gset Item → gset Item) (s : State) : State :=
  mkState (knobs s) (edges s) (nodes s) (headers s) (f (scene_items s))
          (CURRENT_ZOOM s) (zoomStep s) (view_m11 s) (temp s) (stdout s).
Definition set_zoom (z m : float) (s : State) : State :=
  mkState (knobs s) (edges s) (nodes s) (headers s) (scene_items s)
          z (zoomStep s) m (temp s) (stdout s).
Definition set_temp (f : gmap string Item → gmap string Item) (s : State) : State :=
  mkState (knobs s) (edges s) (nodes s) (headers s) (scene_items s)
          (CURRENT_ZOOM s) (zoomStep s) (view_m11 s) (f (temp s)) (stdout s).
Definition set_stdout (f : list string → list string) (s : State) : State :=
  mkState (knobs s) (edges s) (nodes s) (headers s) (scene_items s)
          (CURRENT_ZOOM s) (zoomStep s) (view_m11 s) (temp s) (f (stdout s)).

(** ** The monad: a store, and a result or a raised exception *)

Inductive Outcome (A : Type) :=
| Return (a : A)
| Raise (e : PyExc).
Arguments Return {A} a.
Arguments Raise {A} e.

Definition M (A : Type) : Type := State → Outcome A * State.

Definition ret {A} (a : A) : M A := λ s, (Return a, s).
Definition raise {A} (e : PyExc) : M A := λ s, (Raise e, s).
Definition bind {A B} (m : M A) (f : A → M B) : M B :=
  λ s, match m s with
       | (Return a, s') => f a s'
       | (Raise e, s') => (Raise e, s')
       end.
Definition get : M State := λ s, (Return s, s).
Definition modify (f : State → State) : M unit := λ s, (Return tt, f s).

Declare Scope py_scope.
Delimit Scope py_scope with py.
Notation "x <- c ;; k" := (bind c (λ x, k))
  (at level 100, c at next level, right associativity) : py_scope.
Notation "c ;; k" := (bind c (λ _, k))
  (at level 100, right associativity) : py_scope.
Open Scope py_scope.

(** [print(msg)] *)
Definition print (msg : string) : M unit :=
  modify (set_stdout (λ out, (out ++ [msg])%list)).

(** Iterating a statement over a list. *)
Fixpoint for_each {A} (l : list A) (body : A → M unit) : M unit :=
  match l with
  | [] => ret tt
  | a :: l' => body a ;; for_each l' body
  end.

(** ** Access to the store *)

(** A reference outside the store has no Python counterpart; the model
    reports it the way PySide reports a wrapper whose object is gone. *)
Definition the_knob (k : positive) : M Knob :=
  λ s, match knobs s !! k with
       | Some o => (Return o, s)
       | None => (Raise RuntimeError, s)
       end.
Definition the_edge (e : positive) : M Edge :=
  λ s, match edges s !! e with
       | Some o => (Return o, s)
       | None => (Raise RuntimeError, s)
       end.
Definition the_node (n : positive) : M Node :=
  λ s, match nodes s !! n with
       | Some o => (Return o, s)
       | None => (Raise RuntimeError, s)
       end.
Definition the_header (h : positive) : M Header :=
  λ s, match headers s !! h with
       | Some o => (Return o, s)
       | None => (Raise RuntimeError, s)
       end.

Definition update_knob (k : positive) (f : Knob → Knob) : M unit :=
  modify (set_knobs (alter f k)).
Definition update_edge (e : positive) (f : Edge → Edge) : M unit :=
  modify (set_edges (alter f e)).
Definition update_node (n : positive) (f : Node → Node) : M unit :=
  modify (set_nodes (alter f n)).
Definition update_header (h : positive) (f : Header → Header) : M unit :=
  modify (set_headers (alter f h)).

(** Attribute assignments. *)
Definition Knob_with_edges (v : gset Item) (o : Knob) : Knob :=
  mkKnob (Knob_class o) (Knob_x o) (Knob_y o) (Knob_w o) (Knob_h o)
         (Knob_margin o) (Knob_flow o) (Knob_labelText o) (Knob_labelColor o)
         (Knob_fillColor o) (Knob_oldFillColor o) v
         (Knob_pos o) (Knob_parentItem o).
Definition Knob_with_margin (v : PyVal) (o : Knob) : Knob :=
  mkKnob (Knob_class o) (Knob_x o) (Knob_y o) (Knob_w o) (Knob_h o)
         v (Knob_flow o) (Knob_labelText o) (Knob_labelColor o)
         (Knob_fillColor o) (Knob_oldFillColor o) (Knob_edges o)
         (Knob_pos o) (Knob_parentItem o).
Definition Knob_with_flow (v : PyVal) (o : Knob) : Knob :=
  mkKnob (Knob_class o) (Knob_x o) (Knob_y o) (Knob_w o) (Knob_h o)
         (Knob_margin o) v (Knob_labelText o) (Knob_labelColor o)
         (Knob_fillColor o) (Knob_oldFillColor o) (Knob_edges o)
         (Knob_pos o) (Knob_parentItem o).
Definition Knob_with_label (cls : KnobClass) (t : string) (c : Color) (o : Knob) : Knob :=
  mkKnob cls (Knob_x o) (Knob_y o) (Knob_w o) (Knob_h o)
         (Knob_margin o) (Knob_flow o) t (Knob_labelColor o)
         c (Knob_oldFillColor o) (Knob_edges o)
         (Knob_pos o) (Knob_parentItem o).
Definition Knob_with_fillColor (c : Color) (old : option Color) (o : Knob) : Knob :=
  mkKnob (Knob_class o) (Knob_x o) (Knob_y o) (Knob_w o) (Knob_h o)
         (Knob_margin o) (Knob_flow o) (Knob_labelText o) (Knob_labelColor o)
         c old (Knob_edges o)
         (Knob_pos o) (Knob_parentItem o).
Definition Knob_with_pos (v : QPointF) (o : Knob) : Knob :=
  mkKnob (Knob_class o) (Knob_x o) (Knob_y o) (Knob_w o) (Knob_h o)
         (Knob_margin o) (Knob_flow o) (Knob_labelText o) (Knob_labelColor o)
         (Knob_fillColor o) (Knob_oldFillColor o) (Knob_edges o)
         v (Knob_parentItem o).
Definition Knob_with_parentItem (v : option positive) (o : Knob) : Knob :=
  mkKnob (Knob_class o) (Knob_x o) (Knob_y o) (Knob_w o) (Knob_h o)
         (Knob_margin o) (Knob_flow o) (Knob_labelText o) (Knob_labelColor o)
         (Knob_fillColor o) (Knob_oldFillColor o) (Knob_edges o)
         (Knob_pos o) v.

Definition Edge_with_knob1 (v : option positive) (o : Edge) : Edge :=
  mkEdge (Edge_lineColor o) (Edge_hoverColor o) (Edge_thickness o)
         v (Edge_knob2 o) (Edge_pos1 o) (Edge_pos2 o)
         (Edge_curv1 o) (Edge_curv3 o) (Edge_curv2 o) (Edge_curv4 o)
         (Edge_pen o) (Edge_brush o) (Edge_zValue o) (Edge_path o).
Definition Edge_with_knob2 (v : option positive) (o : Edge) : Edge :=
  mkEdge (Edge_lineColor o) (Edge_hoverColor o) (Edge_thickness o)
         (Edge_knob1 o) v (Edge_pos1 o) (Edge_pos2 o)
         (Edge_curv1 o) (Edge_curv3 o) (Edge_curv2 o) (Edge_curv4 o)
         (Edge_pen o) (Edge_brush o) (Edge_zValue o) (Edge_path o).
Definition Edge_with_pos1 (v : QPointF) (o : Edge) : Edge :=
  mkEdge (Edge_lineColor o) (Edge_hoverColor o) (Edge_thickness o)
         (Edge_knob1 o) (Edge_knob2 o) v (Edge_pos2 o)
         (Edge_curv1 o) (Edge_curv3 o) (Edge_curv2 o) (Edge_curv4 o)
         (Edge_pen o) (Edge_brush o) (Edge_zValue o) (Edge_path o).
Definition Edge_with_pos2 (v : QPointF) (o : Edge) : Edge :=
  mkEdge (Edge_lineColor o) (Edge_hoverColor o) (Edge_thickness o)
         (Edge_knob1 o) (Edge_knob2 o) (Edge_pos1 o) v
         (Edge_curv1 o) (Edge_curv3 o) (Edge_curv2 o) (Edge_curv4 o)
         (Edge_pen o) (Edge_brush o) (Edge_zValue o) (Edge_path o).
(** [setPen], [setBrush] and [setZValue] together, as [updatePath] calls them. *)
Definition Edge_with_style (p : QPen) (b : QBrush) (z : Z) (o : Edge) : Edge :=
  mkEdge (Edge_lineColor o) (Edge_hoverColor o) (Edge_thickness o)
         (Edge_knob1 o) (Edge_knob2 o) (Edge_pos1 o) (Edge_pos2 o)
         (Edge_curv1 o) (Edge_curv3 o) (Edge_curv2 o) (Edge_curv4 o)
         p b z (Edge_path o).
Definition Edge_with_path (v : list PathElement) (o : Edge) : Edge :=
  mkEdge (Edge_lineColor o) (Edge_hoverColor o) (Edge_thickness o)
         (Edge_knob1 o) (Edge_knob2 o) (Edge_pos1 o) (Edge_pos2 o)
         (Edge_curv1 o) (Edge_curv3 o) (Edge_curv2 o) (Edge_curv4 o)
         (Edge_pen o) (Edge_brush o) (Edge_zValue o) v.
(** [QGraphicsPathItem.setPath]: the item keeps the path it has when Qt
    takes the new one for equal to it. An item that has no path yet
    takes a path that is nothing but a [moveTo] to the origin for equal
    to none. Two paths of the same elements Qt compares point by point
    within 10^-12 of the extent of the old one; the model takes the new
    path there, which is the path of the item afterwards when the two
    are the same and when a point of theirs differs by more than that. *)
Definition path_after_setPath (old new : list PathElement) : list PathElement :=
  match old, new with
  | [], [MoveTo p] => if QPointF_eq p (mkQPointF 0 0) then old else new
  | _, _ => new
  end.
Definition Edge_setPath (v : list PathElement) (o : Edge) : Edge :=
  Edge_with_path (path_after_setPath (Edge_path o) v) o.

(** ** Qt scene primitives *)

(** [item.scene()]: whether the item belongs to the scene ([None] otherwise). *)
Definition Item_scene (i : Item) : M bool :=
  s <- get ;; ret (bool_decide (i ∈ scene_items s)).

Definition scene_addItem (i : Item) : M unit :=
  modify (set_scene_items (λ S, {[i]} ∪ S)).

(** Removing an item that is not in the scene leaves the scene as it is. *)
Definition scene_removeItem (i : Item) : M unit :=
  modify (set_scene_items (λ S, S ∖ {[i]})).

(** ** class Knob *)

(** The keyword arguments the constructors read. *)
Record Kwargs := mkKwargs {
  kw_x : option Z;
  kw_y : option Z;
  kw_w : option Z;
  kw_h : option Z;
  kw_margin : option PyVal;
  kw_flow : option PyVal;
  kw_labelText : option string;
  kw_labelColor : option Color;
  kw_fillColor : option Color
}.

Definition no_kwargs : Kwargs :=
  mkKwargs None None None None None None None None None.

(** [kwargs.get(key, d)] *)
Definition kwargs_get {A} (v : option A) (d : A) : A := default d v.

Definition origin : QPointF := mkQPointF 0%float 0%float.

(** [Knob.__init__]: the attributes of a new knob. *)
Definition Knob_attrs (kwargs : Kwargs) : Knob :=
  mkKnob BaseKnob
         (kwargs_get (kw_x kwargs) 0)
         (kwargs_get (kw_y kwargs) 0)
         (kwargs_get (kw_w kwargs) 10)
         (kwargs_get (kw_h kwargs) 10)
         (kwargs_get (kw_margin kwargs) (PInt 5))
         (kwargs_get (kw_margin kwargs) (PStr FLOW_LEFT_TO_RIGHT))
         (kwargs_get (kw_labelText kwargs) "value")
         (kwargs_get (kw_labelColor kwargs) (QColor 10 10 10))
         (kwargs_get (kw_fillColor kwargs) (QColor 130 130 130))
         None ∅ origin None.

(** [InputKnob.__init__] *)
Definition InputKnob_attrs (kwargs : Kwargs) : Knob :=
  Knob_with_label InputKnob
    (kwargs_get (kw_labelText kwargs) "input")
    (kwargs_get (kw_fillColor kwargs) (QColor 130 230 130))
    (Knob_attrs kwargs).

(** [OutputKnob.__init__] *)
Definition OutputKnob_attrs (kwargs : Kwargs) : Knob :=
  Knob_with_flow (kwargs_get (kw_flow kwargs) (PStr FLOW_RIGHT_TO_LEFT))
    (Knob_with_label OutputKnob
       (kwargs_get (kw_labelText kwargs) "output")
       (kwargs_get (kw_fillColor kwargs) (QColor 230 130 130))
       (Knob_attrs kwargs)).

Definition Knob_new_attrs (cls : KnobClass) (kwargs : Kwargs) : Knob :=
  match cls with
  | BaseKnob => Knob_attrs kwargs
  | InputKnob => InputKnob_attrs kwargs
  | OutputKnob => OutputKnob_attrs kwargs
  end.

(** Constructing a knob of class [cls]: a new object in the store. *)
Definition Knob_init (cls : KnobClass) (kwargs : Kwargs) : M positive :=
  s <- get ;;
  let k := fresh (dom (knobs s)) in
  modify (set_knobs (insert k (Knob_new_attrs cls kwargs))) ;;
  ret k.

Definition Knob_boundingRect (o : Knob) : QRect :=
  QRect_xywh (Knob_x o) (Knob_y o) (Knob_w o) (Knob_h o).

(** [self.mapToScene(p)]: knobs and nodes are only ever translated, so
    the scene transform adds the knob's position and its parent's. *)
Definition Knob_mapToScene (self : positive) (p : QPointF) : M QPointF :=
  o <- the_knob self ;;
  match Knob_parentItem o with
  | None =>
      ret (mkQPointF (qx p + qx (Knob_pos o)) (qy p + qy (Knob_pos o)))
  | Some n =>
      nd <- the_node n ;;
      ret (mkQPointF (qx p + (qx (Node_pos nd) + qx (Knob_pos o)))
                     (qy p + (qy (Node_pos nd) + qy (Knob_pos o))))
  end%float.

(** [Knob.addEdge] *)
Definition Knob_addEdge (self : positive) (edge : Item) : M unit :=
  _ <- the_knob self ;;
  update_knob self (λ o, Knob_with_edges ({[edge]} ∪ Knob_edges o) o) ;;
  scene <- Item_scene (IKnob self) ;;
  if scene : bool then
    s <- get ;;
    if bool_decide (edge ∈ scene_items s) then ret tt
    else scene_addItem edge
  else raise AttributeError.

(** [Knob.removeEdge] *)
Definition Knob_removeEdge (self : positive) (edge : Item) : M unit :=
  o <- the_knob self ;;
  (if bool_decide (edge ∈ Knob_edges o)
   then update_knob self (λ o, Knob_with_edges (Knob_edges o ∖ {[edge]}) o)
   else raise KeyError) ;;
  scene <- Item_scene (IKnob self) ;;
  if scene : bool then scene_removeItem edge
  else raise AttributeError.

(** [Knob.highlight]: the old colour lives in an attribute that the
    first [highlight(True)] creates. *)
Definition Knob_highlight (self : positive) (toggle : bool) : M unit :=
  o <- the_knob self ;;
  if toggle then
    update_knob self (λ o, Knob_with_fillColor (QColor 255 255 0) (Some (Knob_fillColor o)) o)
  else
    match Knob_oldFillColor o with
    | Some c => update_knob self (Knob_with_fillColor c (Some c))
    | None => raise AttributeError
    end.

(** ** class Edge *)

(** [Edge.__init__]: a new object; the thickness reads the global zoom. *)
Definition Edge_attrs (zoom : float) : Edge :=
  mkEdge Qt_black Qt_yellow
         (float_of_Z 1 * zoom)%float
         None None origin origin
         0.6%float 0.4%float 0.2%float 0.8%float
         DefaultPen DefaultBrush 0 [].

Definition Edge_init : M positive :=
  s <- get ;;
  let e := fresh (dom (edges s)) in
  modify (set_edges (insert e (Edge_attrs (CURRENT_ZOOM s)))) ;;
  ret e.

(** The scene point of a knob's centre. *)
Definition Knob_anchor (k : positive) : M QPointF :=
  o <- the_knob k ;;
  Knob_mapToScene k (QPointF_of_QPoint (QRect_center (Knob_boundingRect o))).

(** [QPainterPath.cubicTo] adds no curve whose four points, the
    current one among them, Qt takes for one point. *)
Definition curve_is_empty (p1 c1 c2 p2 : QPointF) : bool :=
  QPointF_eq p1 c1 && QPointF_eq c1 c2 && QPointF_eq c2 p2.

(** The path [updatePath] builds between two points: [moveTo], then
    [cubicTo]. *)
Definition cubic (ed : Edge) (p1 p2 : QPointF) : list PathElement :=
  let dx := (qx p2 - qx p1)%float in
  let dy := (qy p2 - qy p1)%float in
  let ctrl1 := mkQPointF (qx p1 + dx * Edge_curv1 ed)
                         (qy p1 + dy * Edge_curv2 ed) in
  let ctrl2 := mkQPointF (qx p1 + dx * Edge_curv3 ed)
                         (qy p1 + dy * Edge_curv4 ed) in
  if curve_is_empty p1 ctrl1 ctrl2 p2 then [MoveTo p1]
  else [MoveTo p1; CubicTo ctrl1 ctrl2 p2].

(** [Edge.updatePath] *)
Definition Edge_updatePath (self : positive) : M unit :=
  ed <- the_edge self ;;
  update_edge self
    (Edge_with_style (Pen (Edge_lineColor ed) (Edge_thickness ed)) NoBrush (-1)) ;;
  match Edge_knob1 ed with
  | Some k => p <- Knob_anchor k ;; update_edge self (Edge_with_pos1 p)
  | None => ret tt
  end ;;
  match Edge_knob2 ed with
  | Some k => p <- Knob_anchor k ;; update_edge self (Edge_with_pos2 p)
  | None => ret tt
  end ;;
  ed <- the_edge self ;;
  update_edge self (Edge_setPath (cubic ed (Edge_pos1 ed) (Edge_pos2 ed))).

(** [Knob.connectTo] *)
Definition Knob_connectTo (self knob : positive) : M unit :=
  if bool_decide (knob = self) then ret tt
  else
    edge <- Edge_init ;;
    update_edge edge (Edge_with_knob1 (Some self)) ;;
    update_edge edge (Edge_with_knob2 (Some knob)) ;;
    Knob_addEdge self (IEdge edge) ;;
    Knob_addEdge knob (IEdge edge) ;;
    Edge_updatePath edge.

(** ** Text measurement *)

(** A [QPainter], as far as the module uses it: its font metrics
    ([metrics.size(TextSingleLine, text)]). *)
Record QPainter := mkQPainter { fontMetrics : string → QSize }.

(** What a paint call asks of its painter, in order. *)
Inductive PaintOp :=
| SetPen (p : QPen)
| SetBrush (b : QBrush)
| DrawRect (r : QRect)
| DrawText (x : PyVal) (y : Z) (text : string).

(** [x + v] and [x - v] for an integer [x] and the value of an attribute.
    (Strings and [None] do not add to an integer.) *)
Definition py_int_add (x : Z) (v : PyVal) : Outcome PyVal :=
  match v with
  | PInt z => Return (PInt (x + z))
  | PFloat f => Return (PFloat (float_of_Z x + f)%float)
  | _ => Raise TypeError
  end.
Definition py_int_sub (x : Z) (v : PyVal) : Outcome PyVal :=
  match v with
  | PInt z => Return (PInt (x - z))
  | PFloat f => Return (PFloat (float_of_Z x - f)%float)
  | _ => Raise TypeError
  end.

(** [painter.drawText(x, y, text)] takes C [int]s: a Python integer
    that does not fit in one raises [OverflowError]. *)
Definition PyVal_fits_int (v : PyVal) : bool :=
  match v with
  | PInt z => fits_int z
  | _ => true
  end.

Section Fonts.

(** The metrics of the default font, [QFontMetrics(QFont())]. *)
Variable defaultMetrics : string → QSize.

(** [getTextSize(text, painter=None)] *)
Definition getTextSize (text : string) (painter : option QPainter) : QSize :=
  match painter with
  | None => defaultMetrics text
  | Some p => fontMetrics p text
  end.

(** [Knob.paint]: the painter calls made, and how the call ends. *)
Definition Knob_paint (o : Knob) (painter : QPainter) : list PaintOp * Outcome unit :=
  let bbox := Knob_boundingRect o in
  let ops := [SetPen NoPen; SetBrush (Brush (Knob_fillColor o)); DrawRect bbox;
              SetPen (Pen (Knob_labelColor o) 1%float)] in
  let textSize := getTextSize (Knob_labelText o) (Some painter) in
  let x :=
    if py_eq_str (Knob_flow o) FLOW_LEFT_TO_RIGHT then
      py_int_add (QRect_right bbox) (Knob_margin o)
    else if py_eq_str (Knob_flow o) FLOW_RIGHT_TO_LEFT then
      match py_int_sub (QRect_left bbox) (Knob_margin o) with
      | Return (PInt z) => Return (PInt (z - width textSize))
      | Return (PFloat f) => Return (PFloat (f - float_of_Z (width textSize))%float)
      | Return _ => Raise TypeError
      | Raise e => Raise e
      end
    else Raise UnknownFlowError in
  match x with
  | Return x =>
      let y := QRect_bottom bbox in
      if PyVal_fits_int x then
        ((ops ++ [DrawText x y (Knob_labelText o)])%list, Return tt)
      else (ops, Raise OverflowError)
  | Raise e => (ops, Raise e)
  end.

(** ** class Header *)

(** [Header.__init__] with the default height and colours. *)
Definition Header_attrs (node : positive) (text : string) : Header :=
  mkHeader node text 20 (QColor 90 90 90) (QColor 240 240 240) origin None.

Definition Header_init (node : positive) (text : string) : M positive :=
  s <- get ;;
  let h := fresh (dom (headers s)) in
  modify (set_headers (insert h (Header_attrs node text))) ;;
  ret h.

(** ** class Node *)

Definition Node_attrs : Node :=
  mkNode None 0 0 10 10 6 0 (QColor 220 220 220) origin [].

(** [Node.__init__(scene)]: with a scene, the new item joins it. *)
Definition Node_init (scene : bool) : M positive :=
  s <- get ;;
  let n := fresh (dom (nodes s)) in
  modify (set_nodes (insert n Node_attrs)) ;;
  (if scene then scene_addItem (INode n) else ret tt) ;;
  ret n.

Definition Node_with_header (v : option positive) (o : Node) : Node :=
  mkNode v (Node_x o) (Node_y o) (Node_w o) (Node_h o) (Node_margin o)
         (Node_roundness o) (Node_fillColor o) (Node_pos o) (Node_childItems o).
Definition Node_with_w (v : Z) (o : Node) : Node :=
  mkNode (Node_header o) (Node_x o) (Node_y o) v (Node_h o) (Node_margin o)
         (Node_roundness o) (Node_fillColor o) (Node_pos o) (Node_childItems o).
Definition Node_with_h (v : Z) (o : Node) : Node :=
  mkNode (Node_header o) (Node_x o) (Node_y o) (Node_w o) v (Node_margin o)
         (Node_roundness o) (Node_fillColor o) (Node_pos o) (Node_childItems o).
Definition Node_with_childItems (v : list Item) (o : Node) : Node :=
  mkNode (Node_header o) (Node_x o) (Node_y o) (Node_w o) (Node_h o) (Node_margin o)
         (Node_roundness o) (Node_fillColor o) (Node_pos o) v.
Definition Header_with_pos (v : QPointF) (o : Header) : Header :=
  mkHeader (Header_node o) (Header_text o) (Header_h o) (Header_fillColor o)
           (Header_textColor o) v (Header_parentItem o).
Definition Header_with_parentItem (v : option positive) (o : Header) : Header :=
  mkHeader (Header_node o) (Header_text o) (Header_h o) (Header_fillColor o)
           (Header_textColor o) (Header_pos o) v.

(** [item.parentItem()] *)
Definition Item_parentItem (i : Item) : M (option positive) :=
  match i with
  | IKnob k => o <- the_knob k ;; ret (Knob_parentItem o)
  | IHeader h => o <- the_header h ;; ret (Header_parentItem o)
  | _ => ret None
  end.

(** [child.setParentItem(node)]: nothing to do for the current parent;
    otherwise the child leaves its old parent's children, is appended to
    the new parent's, and follows the new parent into or out of the scene. *)
Definition Item_setParentItem (child : Item) (n : positive) : M unit :=
  old <- Item_parentItem child ;;
  if bool_decide (old = Some n) then ret tt
  else
    match old with
    | Some p =>
        update_node p (λ o, Node_with_childItems
                              (filter (λ c, c ≠ child) (Node_childItems o)) o)
    | None => ret tt
    end ;;
    match child with
    | IKnob k => update_knob k (Knob_with_parentItem (Some n))
    | IHeader h => update_header h (Header_with_parentItem (Some n))
    | _ => ret tt
    end ;;
    update_node n (λ o, Node_with_childItems (Node_childItems o ++ [child])%list o) ;;
    scene <- Item_scene (INode n) ;;
    if scene : bool then scene_addItem child else scene_removeItem child.

(** [self.header.<attribute>]: a node without header has [None] there. *)
Definition Node_the_header (nd : Node) : M Header :=
  match Node_header nd with
  | Some h => the_header h
  | None => raise AttributeError
  end.

(** [[c for c in self.childItems() if isinstance(c, Knob)]] *)
Fixpoint knobs_among (items : list Item) : M (list Knob) :=
  match items with
  | [] => ret []
  | IKnob k :: rest =>
      o <- the_knob k ;; os <- knobs_among rest ;; ret (o :: os)
  | _ :: rest => knobs_among rest
  end.

(** [c.h] of a child item. *)
Definition Item_h (i : Item) : M Z :=
  match i with
  | IKnob k => o <- the_knob k ;; ret (Knob_h o)
  | IHeader h => o <- the_header h ;; ret (Header_h o)
  | INode n => o <- the_node n ;; ret (Node_h o)
  | IEdge _ => raise AttributeError
  end.

Fixpoint heights_of (items : list Item) : M (list Z) :=
  match items with
  | [] => ret []
  | i :: rest => h <- Item_h i ;; hs <- heights_of rest ;; ret (h :: hs)
  end.

(** [sum(l)] and [max([x] + l)] *)
Definition py_sum (l : list Z) : Z := foldl Z.add 0 l.
Definition py_max (x : Z) (l : list Z) : Z := foldl Z.max x l.

(** [adjustWidth] of [Node.updateSizeForChildren] *)
Definition adjustWidth (self : positive) : M unit :=
  nd <- the_node self ;;
  header <- Node_the_header nd ;;
  let headerWidth := Node_margin nd + width (getTextSize (Header_text header) None) in
  knobs <- knobs_among (Node_childItems nd) ;;
  let knobWidths :=
    map (λ k, Knob_w k + Node_margin nd + width (getTextSize (Knob_labelText k) None))
        knobs in
  let maxWidth := py_max headerWidth knobWidths in
  update_node self (Node_with_w (maxWidth + Node_margin nd)).

(** [adjustHeight] of [Node.updateSizeForChildren] *)
Definition adjustHeight (self : positive) : M unit :=
  nd <- the_node self ;;
  knobs <- knobs_among (Node_childItems nd) ;;
  let knobsHeight := py_sum (map (λ k, Knob_h k + Node_margin nd) knobs) in
  header <- Node_the_header nd ;;
  let heightNeeded := Header_h header + knobsHeight + Node_margin nd in
  update_node self (Node_with_h heightNeeded).

(** [Node.updateSizeForChildren] *)
Definition Node_updateSizeForChildren (self : positive) : M unit :=
  adjustWidth self ;;
  adjustHeight self.

(** [Node.boundingRect] *)
Definition Node_boundingRect (self : positive) : M QRect :=
  nd <- the_node self ;;
  header <- Node_the_header nd ;;
  ret (QRect_xywh (Node_x nd) (Node_y nd) (Node_w nd) (Header_h header)).

(** [Node.addHeader] *)
Definition Node_addHeader (self header : positive) : M unit :=
  nd <- the_node self ;;
  _ <- the_header header ;;
  update_node self (Node_with_header (Some header)) ;;
  update_header header (Header_with_pos (Node_pos nd)) ;;
  Item_setParentItem (IHeader header) self ;;
  Node_updateSizeForChildren self.

(** [Node.addKnob]; [margin / 2] is the integer division of Python 2,
    which agrees with the true division of Python 3 on the even margin
    nodes are built with. *)
Definition Node_addKnob (self knob : positive) : M unit :=
  nd <- the_node self ;;
  hs <- heights_of (Node_childItems nd) ;;
  let yOffset := py_sum (map (λ h, h + Node_margin nd) hs) in
  let xOffset := Node_margin nd / 2 in
  Item_setParentItem (IKnob knob) self ;;
  update_knob knob (Knob_with_margin (PInt (Node_margin nd))) ;;
  Node_updateSizeForChildren self ;;
  bbox <- Node_boundingRect self ;;
  k <- the_knob knob ;;
  match Knob_class k with
  | OutputKnob =>
      update_knob knob
        (Knob_with_pos (mkQPointF (float_of_Z (QRect_right bbox - Knob_w k + xOffset))
                                  (float_of_Z yOffset)))
  | InputKnob =>
      update_knob knob
        (Knob_with_pos (mkQPointF (float_of_Z (QRect_left bbox - xOffset))
                                  (float_of_Z yOffset)))
  | BaseKnob => ret tt
  end.

End Fonts.

(** ** class GridView *)

(** [GridView.wheelEvent]: [delta] is [event.delta()].  [self.scale(zoom,
    zoom)] multiplies the horizontal scale [m11] of the view's transform
    by [zoom]; the global is then read back from the transform. *)
Definition GridView_wheelEvent (delta : Z) : M unit :=
  s <- get ;;
  let positive := bool_decide (delta >= 0) in
  let zoom := if positive then zoomStep s
              else (float_of_Z 1 / zoomStep s)%float in
  let m11 := (view_m11 s * zoom)%float in
  modify (set_zoom m11 m11).

(** ** class SceneEventHandler *)

Inductive EventType :=
| GraphicsSceneMousePress
| GraphicsSceneMouseRelease
| GraphicsSceneMouseMove
| OtherEvent.

Inductive MouseButton := NoButton | LeftButton | RightButton | MidButton.

(** An event as the filter sees it: its type, its button, its scene
    position when it has one, and what [scene.items] answers for the
    small rectangle about that position. *)
Record Event := mkEvent {
  event_type : EventType;
  event_button : MouseButton;
  event_scenePos : option QPointF;
  event_items : list Item
}.

#[global] Instance EventType_eq_dec : EqDecision EventType.
Proof. solve_decision. Defined.
#[global] Instance MouseButton_eq_dec : EqDecision MouseButton.
Proof. solve_decision. Defined.

(** [SceneEventHandler.resetTemp] *)
Definition resetTemp : M unit := modify (set_temp (λ _, ∅)).

(** [SceneEventHandler.itemAt]: the first item of the answer. *)
Definition itemAt (items : list Item) : option Item := head items.

(** [self.temp[key]] *)
Definition temp_item (key : string) : M Item :=
  s <- get ;;
  match temp s !! key with
  | Some i => ret i
  | None => raise KeyError
  end.

(** Method calls on an item taken from [temp]: only a knob has
    [removeEdge], only an edge has [knob2] and [updatePath]. *)
Definition Item_removeEdge (knob edge : Item) : M unit :=
  match knob with
  | IKnob k => Knob_removeEdge k edge
  | _ => raise AttributeError
  end.
Definition Item_updatePath (edge : Item) : M unit :=
  match edge with
  | IEdge e => Edge_updatePath e
  | _ => raise AttributeError
  end.
Definition Item_set_knob2 (edge : Item) (knob : positive) : M unit :=
  match edge with
  | IEdge e => update_edge e (Edge_with_knob2 (Some knob))
  | _ => ret tt
  end.
Definition Item_set_pos2 (edge : Item) (p : QPointF) : M unit :=
  match edge with
  | IEdge e => update_edge e (Edge_with_pos2 p)
  | _ => ret tt
  end.

(** [event.scenePos()] inside a branch for a mouse event. *)
Definition scenePos (event : Event) : M QPointF :=
  match event_scenePos event with
  | Some p => ret p
  | None => raise AttributeError
  end.

(** The branch that ends a gesture by taking the draft edge off its
    start knob; it appears twice in [eventFilter]. *)
Definition drop_draft (msg : string) : M unit :=
  print msg ;;
  knob <- temp_item "knob" ;;
  edge <- temp_item "edge" ;;
  Item_removeEdge knob edge ;;
  resetTemp.

(** [SceneEventHandler.eventFilter]; the result is that of the
    inherited filter, which lets every event through. *)
Definition eventFilter (event : Event) : M bool :=
  let item :=
    match event_scenePos event with
    | Some _ => itemAt (event_items event)
    | None => None
    end in
  match event_type event with
  | GraphicsSceneMouseRelease =>
      s <- get ;;
      match temp s !! "edge" with
      | Some edge =>
          match item with
          | Some (IKnob knob) =>
              edgeStartKnob <- temp_item "knob" ;;
              if bool_decide (IKnob knob = edgeStartKnob) then
                drop_draft "cant connect a knob to itself"
              else
                print "finalize edge" ;;
                Knob_addEdge knob edge ;;
                Item_set_knob2 edge knob ;;
                Item_updatePath edge ;;
                resetTemp
          | _ => drop_draft "cancel edge"
          end
      | None => ret tt
      end
  | GraphicsSceneMousePress =>
      let btn := event_button event in
      match item with
      | Some (IKnob knob) =>
          if bool_decide (btn = LeftButton) then
            print "create edge" ;;
            edge <- Edge_init ;;
            update_edge edge (Edge_with_knob1 (Some knob)) ;;
            p <- scenePos event ;;
            update_edge edge (Edge_with_pos2 p) ;;
            Edge_updatePath edge ;;
            Knob_addEdge knob (IEdge edge) ;;
            modify (set_temp (insert "edge" (IEdge edge))) ;;
            modify (set_temp (insert "knob" (IKnob knob)))
          else ret tt
      | _ => ret tt
      end
  | GraphicsSceneMouseMove =>
      s <- get ;;
      match temp s !! "edge" with
      | Some edge =>
          print "update edge" ;;
          p <- scenePos event ;;
          Item_set_pos2 edge p ;;
          Item_updatePath edge
      | None => ret tt
      end
  | OtherEvent => ret tt
  end ;;
  ret false.

(** Delivering a sequence of events in order. *)
Definition deliver (events : list Event) : M unit :=
  for_each events (λ ev, _ <- eventFilter ev ;; ret tt).

(** The two states of the gesture: [Idle] is an empty [temp]. *)
Definition Idle (s : State) : Prop := temp s = ∅.

(** Running a computation for its final store, and for how it ended. *)
Definition exec {A} (m : M A) (s : State) : State := snd (m s).
Definition result {A} (m : M A) (s : State) : Outcome A := fst (m s).

(** ** The rest of the classes *)

(** [Knob.hoverEnterEvent] and [Knob.hoverLeaveEvent]: the highlight,
    then Qt's own handler, which does nothing to the store. *)
Definition Knob_hoverEnterEvent (self : positive) : M unit :=
  Knob_highlight self true.
Definition Knob_hoverLeaveEvent (self : positive) : M unit :=
  Knob_highlight self false.

(** The loop of [Node.knob]: the first knob among the items whose label
    is [name]. *)
Fixpoint first_knob_named (name : string) (items : list Item) : M (option positive) :=
  match items with
  | [] => ret None
  | IKnob k :: rest =>
      o <- the_knob k ;;
      if bool_decide (Knob_labelText o = name) then ret (Some k)
      else first_knob_named name rest
  | _ :: rest => first_knob_named name rest
  end.

(** [Node.knob] *)
Definition Node_knob (self : positive) (name : string) : M (option positive) :=
  nd <- the_node self ;;
  first_knob_named name (Node_childItems nd).

Definition Node_with_pos (v : QPointF) (o : Node) : Node :=
  mkNode (Node_header o) (Node_x o) (Node_y o) (Node_w o) (Node_h o) (Node_margin o)
         (Node_roundness o) (Node_fillColor o) v (Node_childItems o).

(** What Qt's [QGraphicsItem.mouseMoveEvent] does to the store when a
    movable item is dragged: it gives the items it moves, which are the
    dragged item and the rest of the selection, their new positions.
    [moved] lists them. *)
Definition moved_nodes (moved : list (positive * QPointF))
    (N : gmap positive Node) : gmap positive Node :=
  foldl (λ N m, alter (Node_with_pos m.2) m.1 N) N moved.

(** [Node.mouseMoveEvent]: every edge of every knob of the node has its
    path updated, and then Qt's handler runs. The edges of a knob are a
    set; they are visited in the order [elements] lists them. *)
Definition Node_mouseMoveEvent (self : positive) (moved : list (positive * QPointF))
  : M unit :=
  nd <- the_node self ;;
  knobs <- knobs_among (Node_childItems nd) ;;
  for_each knobs (λ knob,
    for_each (elements (Knob_edges knob)) Item_updatePath) ;;
  modify (set_nodes (moved_nodes moved)).

(** [NodeGraphWidget.addNode]: a node that is not in the scene joins it,
    and its children with it, as [QGraphicsScene.addItem] takes an item
    with all its children. *)
Definition NodeGraphWidget_addNode (node : positive) : M unit :=
  s <- get ;;
  if bool_decide (INode node ∈ scene_items s) then ret tt
  else
    nd <- the_node node ;;
    modify (set_scene_items (λ S, {[INode node]} ∪ list_to_set (Node_childItems nd) ∪ S)).

(** [Multiply(scene=...)] *)
Definition Multiply_init (dm : string → QSize) : M positive :=
  n <- Node_init true ;;
  h <- Header_init n "Multiply" ;;
  Node_addHeader dm n h ;;
  x <- Knob_init InputKnob
         (mkKwargs None None None None None None (Some "x") None None) ;;
  Node_addKnob dm n x ;;
  y <- Knob_init InputKnob
         (mkKwargs None None None None None None (Some "y") None None) ;;
  Node_addKnob dm n y ;;
  v <- Knob_init OutputKnob
         (mkKwargs None None None None None None (Some "value") None None) ;;
  Node_addKnob dm n v ;;
  ret n.

(** ** Vocabulary of the statements *)

(** An item that refers to an object of the store. *)
Definition Item_live (σ : State) (i : Item) : Prop :=
  match i with
  | IKnob k => k ∈ dom (knobs σ)
  | IEdge e => e ∈ dom (edges σ)
  | INode n => n ∈ dom (nodes σ)
  | IHeader h => h ∈ dom (headers σ)
  end.

#[global] Instance Item_live_dec σ i : Decision (Item_live σ i).
Proof. destruct i; simpl; apply _. Defined.

(** A knob all of whose references are live: the edges in its set and
    its parent node. *)
Definition Knob_closed (σ : State) (o : Knob) : Prop :=
  set_Forall (Item_live σ) (Knob_edges o) ∧
  match Knob_parentItem o with
  | Some n => n ∈ dom (nodes σ)
  | None => True
  end.

#[global] Instance Knob_closed_dec σ o : Decision (Knob_closed σ o).
Proof. unfold Knob_closed. destruct (Knob_parentItem o); simpl; apply _. Defined.

(** A store without dangling references, as every Python heap is: what
    the knobs and the scene refer to exists. *)
Definition closed (σ : State) : Prop :=
  map_Forall (λ _ o, Knob_closed σ o) (knobs σ) ∧
  set_Forall (Item_live σ) (scene_items σ).

#[global] Instance closed_dec σ : Decision (closed σ).
Proof. unfold closed. apply _. Defined.

(** [A.edges], the connection set of a knob of the store. *)
Definition edges_of (σ : State) (k : positive) : gset Item :=
  match knobs σ !! k with
  | Some o => Knob_edges o
  | None => ∅
  end.

(** The scene point of an endpoint of an edge: the centre of the knob it
    is bound to, mapped to the scene, or else the free point it keeps. *)
Definition endpoint (σ : State) (bound : option positive) (free : QPointF)
  : Outcome QPointF :=
  match bound with
  | Some k => result (Knob_anchor k) σ
  | None => Return free
  end.

(** The curvature attributes as [Edge.__init__] sets them. *)
Definition curvature_as_constructed (ed : Edge) : Prop :=
  Edge_curv1 ed = 0.6%float ∧ Edge_curv2 ed = 0.2%float ∧
  Edge_curv3 ed = 0.4%float ∧ Edge_curv4 ed = 0.8%float.

(** A mouse press that lands on knob [a] with the left button, which is
    the press that starts a connection gesture. *)
Definition press_on (a : positive) (ev : Event) : Prop :=
  event_type ev = GraphicsSceneMousePress ∧
  event_button ev = LeftButton ∧
  is_Some (event_scenePos ev) ∧
  itemAt (event_items ev) = Some (IKnob a).

(** A mouse press on knob [a] with any button. *)
Definition any_press_on (a : positive) (ev : Event) : Prop :=
  event_type ev = GraphicsSceneMousePress ∧
  is_Some (event_scenePos ev) ∧
  itemAt (event_items ev) = Some (IKnob a).

(** A mouse move. *)
Definition mouse_move (ev : Event) : Prop :=
  event_type ev = GraphicsSceneMouseMove ∧ is_Some (event_scenePos ev).

(** A mouse release over knob [b]. *)
Definition release_on (b : positive) (ev : Event) : Prop :=
  event_type ev = GraphicsSceneMouseRelease ∧
  is_Some (event_scenePos ev) ∧
  itemAt (event_items ev) = Some (IKnob b).

(** A mouse release over empty space or over an item that is no knob. *)
Definition release_off_knobs (ev : Event) : Prop :=
  event_type ev = GraphicsSceneMouseRelease ∧
  is_Some (event_scenePos ev) ∧
  ∀ k, itemAt (event_items ev) ≠ Some (IKnob k).

(** The knobs among the children of a node, read from the store. *)
Definition Node_knobs (σ : State) (nd : Node) : list Knob :=
  omap (λ i, match i with IKnob k => knobs σ !! k | _ => None end)
       (Node_childItems nd).

(** The two calls that change what a node contains. *)
Inductive NodeCall :=
| AddHeader (header : positive)
| AddKnob (knob : positive).

Definition Node_call (dm : string → QSize) (self : positive) (c : NodeCall) : M unit :=
  match c with
  | AddHeader h => Node_addHeader dm self h
  | AddKnob k => Node_addKnob dm self k
  end.

(** A fixed-pitch font, seven pixels a character, for the examples. *)
Definition fixed_pitch (text : string) : QSize :=
  mkQSize (7 * Z.of_nat (String.length text)) 14.

(** The store of a fresh process with one view: nothing constructed, the
    view's transform the identity, [zoomStep] and the global as the
    module sets them. *)
Definition initial : State :=
  mkState ∅ ∅ ∅ ∅ ∅ 1%float 1.1%float 1%float ∅ [].

(** The node classes of the module, as far as the examples need them:
    [Integer(scene=...)]. *)
Definition Integer_init (dm : string → QSize) : M positive :=
  n <- Node_init true ;;
  h <- Header_init n "Int" ;;
  Node_addHeader dm n h ;;
  k <- Knob_init OutputKnob
         (mkKwargs None None None None None None (Some "value") None None) ;;
  Node_addKnob dm n k ;;
  ret n.

(** [Output(scene=...)] *)
Definition Output_init (dm : string → QSize) : M positive :=
  n <- Node_init true ;;
  h <- Header_init n "Output" ;;
  Node_addHeader dm n h ;;
  k <- Knob_init InputKnob
         (mkKwargs None None None None None None (Some "output") None None) ;;
  Node_addKnob dm n k ;;
  ret n.

(** An [Integer] and an [Output] node in the scene: knob 1 is the
    integer's output, knob 2 the output node's input. *)
Definition two_nodes : State :=
  exec (_ <- Integer_init fixed_pitch ;; Output_init fixed_pitch) initial.

(** What [updatePath] leaves in an edge whose endpoints are at [p1] and
    [p2]: the pen, brush and stacking order, the two points, the path. *)
Definition Edge_updated (ed : Edge) (p1 p2 : QPointF) : Edge :=
  Edge_setPath (cubic ed p1 p2)
    (Edge_with_pos2 p2
       (Edge_with_pos1 p1
          (Edge_with_style (Pen (Edge_lineColor ed) (Edge_thickness ed))
                           NoBrush (-1) ed))).

(** An edge between knobs [a] and [b]. *)
Definition links (ed : Edge) (a b : positive) : Prop :=
  Edge_knob1 ed = Some a ∧ Edge_knob2 ed = Some b.


(** The two nodes, the integer's output connected to the output node's
    input as [test()] connects knobs. *)
Definition connected_pair : State := exec (Knob_connectTo 1 2) two_nodes.

(** A knob with one more edge in its set. *)
Definition Knob_add (edge : Item) (o : Knob) : Knob :=
  Knob_with_edges ({[edge]} ∪ Knob_edges o) o.

(** The store after [a.connectTo(b)] has made edge [e], holding [ed]. *)
Definition connected (σ : State) (a b : positive) (oa ob : Knob)
    (e : positive) (ed : Edge) : State :=
  set_edges (insert e ed)
    (set_scene_items (λ S, {[IEdge e]} ∪ S)
       (set_knobs (λ K, <[b := Knob_add (IEdge e) ob]>
                          (<[a := Knob_add (IEdge e) oa]> K)) σ)).

(** The store in the middle of a gesture that started on knob [a] with
    draft edge [e]: everything but the edge object itself and the
    printed lines. *)
Definition pressed (σ : State) (a : positive) (oa : Knob) (e : positive) : State :=
  set_temp (λ T, <["knob" := IKnob a]> (<["edge" := IEdge e]> T))
    (set_scene_items (λ S, {[IEdge e]} ∪ S)
       (set_knobs (insert a (Knob_add (IEdge e) oa)) σ)).

(** A store that is [σ0] but for the draft edge [e], which starts at
    knob [a] and ends at a free point, and for what was printed. *)
Definition drafting (σ0 : State) (a e : positive) (σ : State) : Prop :=
  ∃ ed out,
    σ = set_stdout (λ _, out) (set_edges (insert e ed) σ0) ∧
    Edge_knob1 ed = Some a ∧ Edge_knob2 ed = None.

(** Events of a gesture over the two nodes: a left press on the
    integer's output knob, a move over empty canvas (where the only item
    near the pointer is the draft edge that follows it), and releases
    over the other node's knob, over the start knob and over nothing
    but the draft. *)
Definition press_knob1 : Event :=
  mkEvent GraphicsSceneMousePress LeftButton (Some (mkQPointF 53 30))
          [IKnob 1; INode 1].
Definition move_away : Event :=
  mkEvent GraphicsSceneMouseMove NoButton (Some (mkQPointF 20 80)) [IEdge 1].
Definition release_knob2 : Event :=
  mkEvent GraphicsSceneMouseRelease LeftButton (Some (mkQPointF 1 30))
          [IKnob 2; INode 2; IEdge 1].
Definition release_knob1 : Event :=
  mkEvent GraphicsSceneMouseRelease LeftButton (Some (mkQPointF 53 30))
          [IKnob 1; INode 1; IEdge 1].
Definition release_away : Event :=
  mkEvent GraphicsSceneMouseRelease LeftButton (Some (mkQPointF 20 80)) [IEdge 1].

(** The knobs among a list of items, read from the store. *)
Definition knobs_in (σ : State) (items : list Item) : list Knob :=
  omap (λ i, match i with IKnob k => knobs σ !! k | _ => None end) items.

(** What a knob asks of its node's width before the closing margin:
    its own width, a margin, and its label in the default font. *)
Definition Knob_row (dm : string → QSize) (margin : Z) (k : Knob) : Z :=
  Knob_w k + margin + width (dm (Knob_labelText k)).

(** The width of a node as the layout computes it from the title's
    natural width and the knobs. *)
Definition width_laid_out (dm : string → QSize) (margin : Z) (title : string)
    (ks : list Knob) : Z :=
  py_max (margin + width (dm title)) (map (Knob_row dm margin) ks) + margin.

(** The width as the specification words it, with a margin before the
    larger of the title and the widest knob row as well as after it. *)
Definition width_as_specified (dm : string → QSize) (margin : Z) (title : string)
    (ks : list Knob) : Z :=
  margin + py_max (width (dm title)) (map (Knob_row dm margin) ks) + margin.

(** The [Integer] node of the module, built in the empty scene. *)
Definition one_integer : State := exec (Integer_init fixed_pitch) initial.

(** A node whose width is what the layout computes from its title and
    its knobs as the store holds them now. *)
Definition laid_out (dm : string → QSize) (σ : State) (n : positive) : Prop :=
  ∃ nd h hd,
    nodes σ !! n = Some nd ∧
    Node_header nd = Some h ∧
    headers σ !! h = Some hd ∧
    Node_w nd = width_laid_out dm (Node_margin nd) (Header_text hd) (Node_knobs σ nd).

(** The [Integer] node just before its knob is added: the node with its
    header, and the output knob constructed. *)
Definition integer_before_knob : State :=
  exec (n <- Node_init true ;;
        h <- Header_init n "Int" ;;
        Node_addHeader fixed_pitch n h ;;
        Knob_init OutputKnob
          (mkKwargs None None None None None None (Some "value") None None))
       initial.

(** A child item whose height [addKnob] can read: a live knob, header
    or node. *)
Definition child_ok (σ : State) (i : Item) : Prop :=
  match i with
  | IEdge _ => False
  | _ => Item_live σ i
  end.

(** A node ready for layout: it is in the store with a header that is
    in the store, and so are its children. *)
Definition Node_ready (σ : State) (n : positive) : Prop :=
  ∃ nd h,
    nodes σ !! n = Some nd ∧
    Node_header nd = Some h ∧
    h ∈ dom (headers σ) ∧
    Forall (child_ok σ) (Node_childItems nd).

(** The height of a child item of the store, when it has one. *)
Definition Item_height (σ : State) (i : Item) : option Z :=
  match i with
  | IKnob k => Knob_h <$> knobs σ !! k
  | IHeader h => Header_h <$> headers σ !! h
  | INode n => Node_h <$> nodes σ !! n
  | IEdge _ => None
  end.

(** The height of a node as the layout computes it: the title band,
    every knob with a margin, and a closing margin. *)
Definition height_laid_out (margin titleHeight : Z) (ks : list Knob) : Z :=
  titleHeight + py_sum (map (λ k, Knob_h k + margin) ks) + margin.

(** The children of node [n] once knob [k], whose parent was [old], has
    been given [n] for parent. *)
Definition children_with (k n : positive) (old : option positive)
    (items : list Item) : list Item :=
  if bool_decide (old = Some n) then items else (items ++ [IKnob k])%list.

(** What [addKnob] leaves in the knob it adds to a node [nd] with
    header [hd], when the heights of the node's children were [hs]: the
    node for parent, the node's margin for margin, and a position by
    class, of which [w] is the node's new width. *)
Definition Knob_added (n : positive) (nd : Node) (hd : Header) (hs : list Z)
    (w : Z) (o : Knob) : Knob :=
  let margin := Node_margin nd in
  let yOffset := py_sum (map (λ h, h + margin) hs) in
  let xOffset := margin / 2 in
  let bbox := QRect_xywh (Node_x nd) (Node_y nd) w (Header_h hd) in
  let o1 := Knob_with_margin (PInt margin) (Knob_with_parentItem (Some n) o) in
  match Knob_class o with
  | OutputKnob =>
      Knob_with_pos (mkQPointF (float_of_Z (QRect_right bbox - Knob_w o + xOffset))
                               (float_of_Z yOffset)) o1
  | InputKnob =>
      Knob_with_pos (mkQPointF (float_of_Z (QRect_left bbox - xOffset))
                               (float_of_Z yOffset)) o1
  | BaseKnob => o1
  end.

(** The [Multiply] node of the module just before its third knob is
    added: the node with its header and two inputs, and the output knob
    constructed. *)
Definition multiply_before_value : State :=
  exec (n <- Node_init true ;;
        h <- Header_init n "Multiply" ;;
        Node_addHeader fixed_pitch n h ;;
        x <- Knob_init InputKnob
               (mkKwargs None None None None None None (Some "x") None None) ;;
        Node_addKnob fixed_pitch n x ;;
        y <- Knob_init InputKnob
               (mkKwargs None None None None None None (Some "y") None None) ;;
        Node_addKnob fixed_pitch n y ;;
        Knob_init OutputKnob
          (mkKwargs None None None None None None (Some "value") None None))
       initial.

(** The [Multiply] node of the module, built in the empty scene: node 1
    with knobs 1 ("x"), 2 ("y") and 3 ("value"). *)
Definition one_multiply : State := exec (Multiply_init fixed_pitch) initial.

(** A node and a knob built outside any scene, the node without
    header. *)
Definition bare_node_and_knob : State :=
  exec (_ <- Node_init false ;; Knob_init InputKnob no_kwargs) initial.

(** The knobs among some items are all in the store. *)
Definition knobs_live (σ : State) (items : list Item) : Prop :=
  Forall (λ i, match i with IKnob k => is_Some (knobs σ !! k) | _ => True end) items.

(** Two knobs built and added to nothing: knob 1 an output, knob 2 an
    input, neither in a scene. *)
Definition two_bare_knobs : State :=
  exec (_ <- Knob_init OutputKnob no_kwargs ;; Knob_init InputKnob no_kwargs) initial.

(** The painter calls with which [Knob.paint] draws the knob's
    rectangle, and the one with which it draws the label at [x]. *)
Definition paint_rectangle (o : Knob) : list PaintOp :=
  [SetPen NoPen; SetBrush (Brush (Knob_fillColor o)); DrawRect (Knob_boundingRect o);
   SetPen (Pen (Knob_labelColor o) 1%float)].
Definition paint_label (o : Knob) (x : Z) : PaintOp :=
  DrawText (PInt x) (QRect_bottom (Knob_boundingRect o)) (Knob_labelText o).

(** An event that starts a connection gesture: a press of the left
    button on a knob. *)
Definition starts_gesture (ev : Event) : Prop :=
  event_type ev = GraphicsSceneMousePress ∧
  event_button ev = LeftButton ∧
  is_Some (event_scenePos ev) ∧
  ∃ a, itemAt (event_items ev) = Some (IKnob a).

(** A press of the right button on the integer's output knob. *)
Definition right_press_knob1 : Event :=
  mkEvent GraphicsSceneMousePress RightButton (Some (mkQPointF 53 30))
          [IKnob 1; INode 1].

(** The two nodes in the middle of a gesture that began on the
    integer's output knob. *)
Definition two_nodes_pressed : State := exec (eventFilter press_knob1) two_nodes.

(** What [updatePath] makes of an edge [ed] in the store [σ], when both
    its endpoints can be located there. *)
Definition Edge_redrawn (σ : State) (ed : Edge) : option Edge :=
  match endpoint σ (Edge_knob1 ed) (Edge_pos1 ed),
        endpoint σ (Edge_knob2 ed) (Edge_pos2 ed) with
  | Return p1, Return p2 => Some (Edge_updated ed p1 p2)
  | _, _ => None
  end.



(** A store that is [σ] but for edges that have been redrawn as [σ]
    has their endpoints. *)
Definition redrawn_in (σ σi : State) : Prop :=
  σi = set_edges (λ _, edges σi) σ ∧
  ∀ e, edges σi !! e = edges σ !! e ∨
       edges σi !! e = edges σ !! e ≫= Edge_redrawn σ.

(** The connected pair after the integer node has been dragged to
    (100, 50), and after one more mouse move that does not move it. *)
Definition pair_dragged : State :=
  exec (Node_mouseMoveEvent 1 [(1%positive, mkQPointF 100 50)]) connected_pair.
Definition pair_dragged_on : State := exec (Node_mouseMoveEvent 1 []) pair_dragged.


(** An [Integer] node built outside any scene. *)
Definition integer_outside : State :=
  exec (n <- Node_init false ;;
        h <- Header_init n "Int" ;;
        Node_addHeader fixed_pitch n h ;;
        k <- Knob_init OutputKnob
               (mkKwargs None None None None None None (Some "value") None None) ;;
        Node_addKnob fixed_pitch n k) initial.

(** A press of the left button on the integer's output knob, beside
    its centre. *)
Definition press_beside_knob1 : Event :=
  mkEvent GraphicsSceneMousePress LeftButton (Some (mkQPointF 55 32))
          [IKnob 1; INode 1].

(** A second press of the left button, on the other node's knob. *)
Definition press_knob2 : Event :=
  mkEvent GraphicsSceneMousePress LeftButton (Some (mkQPointF 1 30))
          [IKnob 2; INode 2].

(** A knob whose rectangle is computed without overflow, in any
    version of Qt: its position and its size are within 2^29. *)
Definition Knob_in_range (o : Knob) : Prop :=
  Z.abs (Knob_x o) ≤ 536870912 ∧ Z.abs (Knob_y o) ≤ 536870912 ∧
  Z.abs (Knob_w o) ≤ 536870912 ∧ Z.abs (Knob_h o) ≤ 536870912.

#[global] Instance Knob_in_range_dec o : Decision (Knob_in_range o).
Proof. unfold Knob_in_range. apply _. Defined.

(** A node whose rectangle is computed without overflow: its position,
    its width and the height of its header are within 2^29. *)
Definition Node_in_range (nd : Node) (hd : Header) : Prop :=
  Z.abs (Node_x nd) ≤ 536870912 ∧ Z.abs (Node_y nd) ≤ 536870912 ∧
  Z.abs (Node_w nd) ≤ 536870912 ∧ Z.abs (Header_h hd) ≤ 536870912.

(** The knob an endpoint is bound to, if any, is in the store and in
    range. *)
Definition bound_in_range (σ : State) (bound : option positive) : Prop :=
  match bound with
  | Some k =>
      match knobs σ !! k with
      | Some o => Knob_in_range o
      | None => False
      end
  | None => True
  end.

#[global] Instance bound_in_range_dec σ bound : Decision (bound_in_range σ bound).
Proof.
  unfold bound_in_range. destruct bound as [k|]; [|apply _].
  destruct (knobs σ !! k); apply _.
Defined.

(** A point of the scene with finite coordinates, within 2^31 of the
    origin. *)
Definition QPointF_in_range (p : QPointF) : Prop :=
  (abs (qx p) <=? 2147483648)%float = true ∧
  (abs (qy p) <=? 2147483648)%float = true.

(** Two points at least one unit apart in x or in y. *)
Definition apart (p q : QPointF) : Prop :=
  ((1 <=? abs (qx q - qx p)) || (1 <=? abs (qy q - qy p)))%float = true.

(** End points between which a curve is drawn: they are in range and
    apart, and Qt does not take the curve for empty. *)
Definition draws_curve (p1 c1 c2 p2 : QPointF) : Prop :=
  QPointF_in_range p1 ∧ QPointF_in_range p2 ∧ apart p1 p2 ∧
  curve_is_empty p1 c1 c2 p2 = false.

(** The points of a path, one for a [moveTo] and three for a curve. *)
Definition path_points (l : list PathElement) : list QPointF :=
  flat_map (λ e, match e with
                 | MoveTo p => [p]
                 | CubicTo c1 c2 p => [c1; c2; p]
                 end) l.

(** A path that an item gives up for [new] in [setPath], or that is
    [new] already: the two are the same, or they are not of as many
    points, or the old one is in range and a point of it is apart from
    the corresponding point of the new one. *)
Definition gives_way (old new : list PathElement) : Prop :=
  old = new ∨
  length (path_points old) ≠ length (path_points new) ∨
  (Forall QPointF_in_range (path_points old) ∧
   Exists (λ pq, apart pq.1 pq.2) (zip (path_points old) (path_points new))).

(** The curve [updatePath] builds between two points for an edge with
    the curvature of the constructor: the control points are at
    (0.6, 0.2) and (0.4, 0.8) of the vector between the points. *)
Definition curve_between (p1 p2 : QPointF) : list PathElement :=
  let dx := (qx p2 - qx p1)%float in
  let dy := (qy p2 - qy p1)%float in
  [MoveTo p1;
   CubicTo (mkQPointF (qx p1 + dx * 0.6) (qy p1 + dy * 0.2))
           (mkQPointF (qx p1 + dx * 0.4) (qy p1 + dy * 0.8)) p2].

(** Two points between which that curve is drawn. *)
Definition curve_drawn (p1 p2 : QPointF) : Prop :=
  let dx := (qx p2 - qx p1)%float in
  let dy := (qy p2 - qy p1)%float in
  draws_curve p1 (mkQPointF (qx p1 + dx * 0.6) (qy p1 + dy * 0.2))
              (mkQPointF (qx p1 + dx * 0.4) (qy p1 + dy * 0.8)) p2.




(** ** Proof tactics *)

(** Closing a decidable statement about a concrete store by running its
    decision procedure. *)
Ltac by_compute := refine (bool_decide_unpack _ _); vm_compute; exact I.

(** Facts about a concrete event. *)
Ltac event_facts :=
  repeat split; try reflexivity; try (eexists; reflexivity);
  try (intros ?; discriminate).

(** * Properties *)

(** ** Running the monad *)

Lemma bind_Return {A B} (m : M A) (f : A → M B) σ a σ1 :
  m σ = (Return a, σ1) → bind m f σ = f a σ1.
Proof. unfold bind. by intros ->. Qed.

Lemma bind_Raise {A B} (m : M A) (f : A → M B) σ e σ1 :
  m σ = (Raise e, σ1) → bind m f σ = (Raise e, σ1).
Proof. unfold bind. by intros ->. Qed.

Lemma bind_inv {A B} (m : M A) (f : A → M B) σ b σ' :
  bind m f σ = (Return b, σ') →
  ∃ a σ1, m σ = (Return a, σ1) ∧ f a σ1 = (Return b, σ').
Proof.
  unfold bind. destruct (m σ) as [[a|e] σ1]; [eauto | discriminate].
Qed.

Lemma the_knob_Some σ k o : knobs σ !! k = Some o → the_knob k σ = (Return o, σ).
Proof. unfold the_knob. by intros ->. Qed.

Lemma the_edge_Some σ e ed : edges σ !! e = Some ed → the_edge e σ = (Return ed, σ).
Proof. unfold the_edge. by intros ->. Qed.

Lemma the_node_Some σ n nd : nodes σ !! n = Some nd → the_node n σ = (Return nd, σ).
Proof. unfold the_node. by intros ->. Qed.

Lemma the_header_Some σ h hd :
  headers σ !! h = Some hd → the_header h σ = (Return hd, σ).
Proof. unfold the_header. by intros ->. Qed.

Lemma the_knob_inv σ k o σ' :
  the_knob k σ = (Return o, σ') → knobs σ !! k = Some o ∧ σ' = σ.
Proof. unfold the_knob. destruct (knobs σ !! k); naive_solver. Qed.

Lemma the_node_inv σ n nd σ' :
  the_node n σ = (Return nd, σ') → nodes σ !! n = Some nd ∧ σ' = σ.
Proof. unfold the_node. destruct (nodes σ !! n); naive_solver. Qed.

Lemma the_header_inv σ h hd σ' :
  the_header h σ = (Return hd, σ') → headers σ !! h = Some hd ∧ σ' = σ.
Proof. unfold the_header. destruct (headers σ !! h); naive_solver. Qed.

(** ** Knobs: flow and paint *)

Lemma py_eq_str_false v s : v ≠ PStr s → py_eq_str v s = false.
Proof.
  destruct v; simpl; try done.
  intros Hne. apply bool_decide_eq_false. congruence.
Qed.

(** Whatever else a knob holds, a flow that is neither constant makes
    its paint raise. *)
Lemma Knob_paint_unknown_flow dm o painter :
  Knob_flow o ≠ PStr FLOW_LEFT_TO_RIGHT →
  Knob_flow o ≠ PStr FLOW_RIGHT_TO_LEFT →
  snd (Knob_paint dm o painter) = Raise UnknownFlowError.
Proof.
  intros H1 H2. unfold Knob_paint.
  by rewrite (py_eq_str_false _ _ H1), (py_eq_str_false _ _ H2).
Qed.

Lemma Knob_init_eq cls kwargs σ :
  Knob_init cls kwargs σ =
    (Return (fresh (dom (knobs σ))),
     set_knobs (insert (fresh (dom (knobs σ))) (Knob_new_attrs cls kwargs)) σ).
Proof. reflexivity. Qed.

(** C9. A knob built by [Knob.__init__] or [InputKnob.__init__] with a
    [margin] keyword has that value as its flow, not a flow constant;
    and when the value is neither of the two flow strings, painting the
    knob raises [UnknownFlowError]. *)
Theorem margin_keyword_becomes_flow (dm : string → QSize) cls kwargs v σ :
  cls ≠ OutputKnob →
  kw_margin kwargs = Some v →
  ∃ k o,
    Knob_init cls kwargs σ = (Return k, set_knobs (insert k o) σ) ∧
    knobs σ !! k = None ∧
    Knob_class o = cls ∧
    Knob_flow o = v ∧
    (v ≠ PStr FLOW_LEFT_TO_RIGHT → v ≠ PStr FLOW_RIGHT_TO_LEFT →
     ∀ painter, snd (Knob_paint dm o painter) = Raise UnknownFlowError).
Proof.
  intros Hcls Hm.
  exists (fresh (dom (knobs σ))), (Knob_new_attrs cls kwargs).
  assert (Knob_flow (Knob_new_attrs cls kwargs) = v) as Hflow.
  { destruct cls; [| | done]; simpl; unfold Knob_attrs; simpl; by rewrite Hm. }
  split_and!.
  - apply Knob_init_eq.
  - apply not_elem_of_dom, is_fresh.
  - by destruct cls.
  - done.
  - intros H1 H2 painter. apply Knob_paint_unknown_flow; by rewrite Hflow.
Qed.

Lemma margin_keyword_becomes_flow_witness :
  ∃ k o,
    Knob_init InputKnob
      (mkKwargs None None None None (Some (PInt 7)) None None None None) initial
      = (Return k, set_knobs (insert k o) initial) ∧
    knobs initial !! k = None ∧
    Knob_class o = InputKnob ∧
    Knob_flow o = PInt 7 ∧
    (PInt 7 ≠ PStr FLOW_LEFT_TO_RIGHT → PInt 7 ≠ PStr FLOW_RIGHT_TO_LEFT →
     ∀ painter, snd (Knob_paint fixed_pitch o painter) = Raise UnknownFlowError).
Proof.
  apply (margin_keyword_becomes_flow fixed_pitch InputKnob
           (mkKwargs None None None None (Some (PInt 7)) None None None None)
           (PInt 7) initial); [discriminate | reflexivity].
Defined.

(** Without the keyword the base and input knobs flow left to right,
    and an output knob takes its flow from the [flow] keyword. *)
Lemma default_flows kwargs :
  kw_margin kwargs = None →
  Knob_flow (Knob_attrs kwargs) = PStr FLOW_LEFT_TO_RIGHT ∧
  Knob_flow (InputKnob_attrs kwargs) = PStr FLOW_LEFT_TO_RIGHT ∧
  Knob_flow (OutputKnob_attrs kwargs)
    = kwargs_get (kw_flow kwargs) (PStr FLOW_RIGHT_TO_LEFT).
Proof. intros Hm. unfold Knob_attrs; simpl. by rewrite Hm. Qed.

(** ** Knobs: removing an edge *)

(** C5, as the code has it. Removing an edge that is not in the knob's
    set raises Python's [KeyError] to the caller and changes nothing;
    the module defines no error class of its own for it. *)
Theorem removeEdge_unregistered σ k o edge :
  knobs σ !! k = Some o →
  edge ∉ Knob_edges o →
  Knob_removeEdge k edge σ = (Raise KeyError, σ) ∧
  exc_name KeyError = "KeyError" ∧
  is_QtNodesError KeyError = false.
Proof.
  intros Hk Hnot. split; [|done].
  unfold Knob_removeEdge.
  rewrite (bind_Return _ _ _ _ _ (the_knob_Some _ _ _ Hk)).
  rewrite bool_decide_eq_false_2 by done.
  reflexivity.
Qed.

Lemma removeEdge_unregistered_witness :
  Knob_removeEdge 1 (IEdge 1) two_nodes = (Raise KeyError, two_nodes) ∧
  exc_name KeyError = "KeyError" ∧
  is_QtNodesError KeyError = false.
Proof.
  refine (removeEdge_unregistered two_nodes 1
            (default (Knob_attrs no_kwargs) (knobs two_nodes !! 1%positive))
            (IEdge 1) _ _).
  - vm_compute. reflexivity.
  - vm_compute. intros H. discriminate H.
Defined.

(** The error that reaches the caller is not one named
    [NotConnectedError]: on the integer node's knob, which holds no
    edge, the call raises [KeyError]. *)
Lemma removeEdge_raises_no_NotConnectedError :
  (IEdge 1 ∉ edges_of two_nodes 1) ∧
  ¬ (∃ x, result (Knob_removeEdge 1 (IEdge 1)) two_nodes = Raise x ∧
          exc_name x = "NotConnectedError").
Proof.
  split.
  - vm_compute. intros H. discriminate H.
  - intros (x & Hx & Hname).
    assert (result (Knob_removeEdge 1 (IEdge 1)) two_nodes = Raise KeyError) as Hr
      by (vm_compute; reflexivity).
    rewrite Hr in Hx. injection Hx as <-. discriminate Hname.
Qed.

(** ** Zoom and thickness *)

Lemma Edge_init_eq σ :
  Edge_init σ =
    (Return (fresh (dom (edges σ))),
     set_edges (insert (fresh (dom (edges σ))) (Edge_attrs (CURRENT_ZOOM σ))) σ).
Proof. reflexivity. Qed.

Lemma Edge_init_fresh σ : edges σ !! fresh (dom (edges σ)) = None.
Proof. apply not_elem_of_dom, is_fresh. Qed.

Lemma GridView_wheelEvent_in σ delta :
  0 ≤ delta →
  GridView_wheelEvent delta σ =
    (Return tt, set_zoom (view_m11 σ * zoomStep σ) (view_m11 σ * zoomStep σ) σ).
Proof.
  intros Hd. unfold GridView_wheelEvent, bind, get, modify.
  rewrite bool_decide_eq_true_2 by lia. reflexivity.
Qed.

(** C6. An edge's thickness is one times the global zoom, read when the
    edge is constructed.  After one wheel step inwards, from a store
    whose global agrees with the view and whose step is 1.1, a new edge
    has thickness 1 x (previous zoom x 1.1), and every edge constructed
    before is still the object it was, thickness included. *)
Theorem thickness_follows_zoom_at_construction σ delta :
  0 ≤ delta →
  zoomStep σ = 1.1%float →
  CURRENT_ZOOM σ = view_m11 σ →
  let previousZoom := CURRENT_ZOOM σ in
  let σ1 := exec (GridView_wheelEvent delta) σ in
  ∃ e ed σ2,
    (* constructing an edge, before and after the step *)
    Edge_thickness (Edge_attrs (CURRENT_ZOOM σ)) = (1 * previousZoom)%float ∧
    Edge_init σ1 = (Return e, σ2) ∧
    edges σ !! e = None ∧
    edges σ2 !! e = Some ed ∧
    Edge_thickness ed = (1 * (previousZoom * 1.1))%float ∧
    (* the edges that existed *)
    edges σ1 = edges σ ∧
    ∀ e' ed', edges σ !! e' = Some ed' → edges σ2 !! e' = Some ed'.
Proof.
  intros Hd Hstep Hsync previousZoom σ1.
  assert (σ1 = set_zoom (view_m11 σ * zoomStep σ) (view_m11 σ * zoomStep σ) σ) as Hσ1.
  { unfold σ1, exec. by rewrite GridView_wheelEvent_in. }
  exists (fresh (dom (edges σ1))), (Edge_attrs (CURRENT_ZOOM σ1)),
    (set_edges (insert (fresh (dom (edges σ1))) (Edge_attrs (CURRENT_ZOOM σ1))) σ1).
  assert (edges σ1 = edges σ) as Hedges by (by rewrite Hσ1).
  assert (CURRENT_ZOOM σ1 = (previousZoom * 1.1)%float) as Hzoom.
  { rewrite Hσ1. simpl. unfold previousZoom. by rewrite Hsync, Hstep. }
  clearbody σ1.
  split_and!.
  - reflexivity.
  - apply Edge_init_eq.
  - rewrite Hedges. apply Edge_init_fresh.
  - simpl. apply lookup_insert_eq.
  - by rewrite Hzoom.
  - done.
  - intros e' ed' He'. simpl. rewrite lookup_insert_ne; [by rewrite Hedges|].
    intros <-. rewrite <- Hedges, Edge_init_fresh in He'. discriminate.
Qed.

Lemma thickness_follows_zoom_at_construction_witness :
  let previousZoom := CURRENT_ZOOM two_nodes in
  let σ1 := exec (GridView_wheelEvent 120) two_nodes in
  ∃ e ed σ2,
    Edge_thickness (Edge_attrs (CURRENT_ZOOM two_nodes)) = (1 * previousZoom)%float ∧
    Edge_init σ1 = (Return e, σ2) ∧
    edges two_nodes !! e = None ∧
    edges σ2 !! e = Some ed ∧
    Edge_thickness ed = (1 * (previousZoom * 1.1))%float ∧
    edges σ1 = edges two_nodes ∧
    ∀ e' ed', edges two_nodes !! e' = Some ed' → edges σ2 !! e' = Some ed'.
Proof.
  apply (thickness_follows_zoom_at_construction two_nodes 120);
    [lia | reflexivity | reflexivity].
Defined.

(** One step in from the initial zoom: the new thickness is 1.1, and two
    steps give 1.1 x 1.1. *)
Example thickness_after_one_step :
  Edge_thickness (Edge_attrs (CURRENT_ZOOM (exec (GridView_wheelEvent 120) initial)))
  = 1.1%float.
Proof. vm_compute. reflexivity. Qed.

Example thickness_after_step_out :
  Edge_thickness (Edge_attrs (CURRENT_ZOOM (exec (GridView_wheelEvent (-120)) initial)))
  = (1 / 1.1)%float.
Proof. vm_compute. reflexivity. Qed.

(** ** Edges: the path *)

(** Reading a knob's anchor leaves the store alone. *)
Lemma Knob_anchor_run k σ : Knob_anchor k σ = (result (Knob_anchor k) σ, σ).
Proof.
  unfold result, Knob_anchor, Knob_mapToScene, bind, the_knob, the_node, ret.
  destruct (knobs σ !! k) as [o|] eqn:Hk; simpl; rewrite ?Hk; [|done].
  destruct (Knob_parentItem o) as [n|]; [|done].
  by destruct (nodes σ !! n).
Qed.

(** The anchor depends on the knobs and the nodes only. *)
Lemma Knob_anchor_frame k σ σ' :
  knobs σ' = knobs σ → nodes σ' = nodes σ →
  result (Knob_anchor k) σ' = result (Knob_anchor k) σ.
Proof.
  intros Hk Hn.
  unfold result, Knob_anchor, Knob_mapToScene, bind, the_knob, the_node, ret.
  rewrite Hk. destruct (knobs σ !! k) as [o|] eqn:Hko; simpl; rewrite ?Hk, ?Hko; [|done].
  destruct (Knob_parentItem o) as [n|]; [|done].
  rewrite Hn. by destruct (nodes σ !! n).
Qed.

Lemma endpoint_frame σ σ' bound free :
  knobs σ' = knobs σ → nodes σ' = nodes σ →
  endpoint σ' bound free = endpoint σ bound free.
Proof. intros. destruct bound; [by apply Knob_anchor_frame | done]. Qed.

(** In a closed store every knob has an anchor. *)
Lemma Knob_anchor_ok σ k o :
  knobs σ !! k = Some o → Knob_closed σ o →
  ∃ p, result (Knob_anchor k) σ = Return p.
Proof.
  intros Hk [_ Hp].
  unfold result, Knob_anchor, Knob_mapToScene, bind, the_knob, the_node, ret.
  rewrite Hk. simpl. rewrite Hk.
  destruct (Knob_parentItem o) as [n|]; [|by eexists].
  apply elem_of_dom in Hp as [nd Hnd]. rewrite Hnd. by eexists.
Qed.

Lemma closed_knob σ k o : closed σ → knobs σ !! k = Some o → Knob_closed σ o.
Proof. intros [Hc _] Hk. by apply (Hc k o). Qed.

(** Store updates compose. *)
Lemma set_edges_insert_insert σ e (x y : Edge) :
  set_edges (insert e x) (set_edges (insert e y) σ) = set_edges (insert e x) σ.
Proof. unfold set_edges. simpl. by rewrite insert_insert_eq. Qed.

Lemma update_edge_inserted σ e f ed :
  update_edge e f (set_edges (insert e ed) σ)
  = (Return tt, set_edges (insert e (f ed)) σ).
Proof.
  unfold update_edge, modify, set_edges. simpl.
  by rewrite alter_insert_eq.
Qed.

Lemma update_edge_Some σ e f ed :
  edges σ !! e = Some ed →
  update_edge e f σ = (Return tt, set_edges (insert e (f ed)) σ).
Proof.
  intros He. unfold update_edge, modify, set_edges. simpl.
  by rewrite (alter_alt_Some _ _ _ _ He).
Qed.

(** The step of [updatePath] that refreshes one endpoint. *)
Lemma refresh_endpoint σ (e : positive) ed0 (bound : option positive) free p
      (set : QPointF → Edge → Edge) :
  endpoint σ bound free = Return p →
  (bound = None → set p ed0 = ed0) →
  match bound with
  | Some k => bind (Knob_anchor k) (λ p, update_edge e (set p))
  | None => ret tt
  end (set_edges (insert e ed0) σ)
  = (Return tt, set_edges (insert e (set p ed0)) σ).
Proof.
  destruct bound as [k|]; simpl; intros Hp Hid.
  - unfold bind. rewrite Knob_anchor_run.
    rewrite (Knob_anchor_frame k σ) by done. rewrite Hp.
    apply update_edge_inserted.
  - by rewrite Hid.
Qed.

(** [updatePath] as one update of the edge. *)
Lemma Edge_updatePath_eq σ e ed p1 p2 :
  edges σ !! e = Some ed →
  endpoint σ (Edge_knob1 ed) (Edge_pos1 ed) = Return p1 →
  endpoint σ (Edge_knob2 ed) (Edge_pos2 ed) = Return p2 →
  Edge_updatePath e σ = (Return tt, set_edges (insert e (Edge_updated ed p1 p2)) σ).
Proof.
  intros He H1 H2. unfold Edge_updatePath.
  rewrite (bind_Return _ _ _ _ _ (the_edge_Some _ _ _ He)).
  rewrite (bind_Return _ _ _ _ _ (update_edge_Some _ _ _ _ He)).
  erewrite bind_Return; cycle 1.
  { apply (refresh_endpoint σ e _ _ _ p1 Edge_with_pos1 H1).
    intros Hn. rewrite Hn in H1. injection H1 as <-. by destruct ed. }
  erewrite bind_Return; cycle 1.
  { apply (refresh_endpoint σ e _ _ _ p2 Edge_with_pos2 H2).
    intros Hn. rewrite Hn in H2. injection H2 as <-. by destruct ed. }
  erewrite bind_Return; cycle 1.
  { apply the_edge_Some. simpl. apply lookup_insert_eq. }
  rewrite update_edge_inserted. reflexivity.
Qed.

Lemma Edge_updated_knobs ed p1 p2 :
  Edge_knob1 (Edge_updated ed p1 p2) = Edge_knob1 ed ∧
  Edge_knob2 (Edge_updated ed p1 p2) = Edge_knob2 ed ∧
  Edge_pos1 (Edge_updated ed p1 p2) = p1 ∧
  Edge_pos2 (Edge_updated ed p1 p2) = p2 ∧
  Edge_thickness (Edge_updated ed p1 p2) = Edge_thickness ed ∧
  Edge_path (Edge_updated ed p1 p2)
  = path_after_setPath (Edge_path ed) (cubic ed p1 p2).
Proof. done. Qed.


(** Setting the same path again changes nothing. *)
Lemma path_after_setPath_twice old new :
  path_after_setPath (path_after_setPath old new) new = path_after_setPath old new.
Proof.
  destruct old as [|? ?], new as [|[q|] [|? ?]]; try reflexivity.
  simpl. destruct (QPointF_eq q (mkQPointF 0 0)) eqn:Hq; simpl; by rewrite ?Hq.
Qed.

Lemma Edge_updated_twice ed p1 p2 :
  Edge_updated (Edge_updated ed p1 p2) p1 p2 = Edge_updated ed p1 p2.
Proof.
  unfold Edge_updated, Edge_setPath. simpl.
  change (cubic _ p1 p2) with (cubic ed p1 p2).
  by rewrite path_after_setPath_twice.
Qed.



(** ** Knobs: adding and removing edges, connecting *)

Lemma update_knob_Some σ k f o :
  knobs σ !! k = Some o →
  update_knob k f σ = (Return tt, set_knobs (insert k (f o)) σ).
Proof.
  intros Hk. unfold update_knob, modify, set_knobs. simpl.
  by rewrite (alter_alt_Some _ _ _ _ Hk).
Qed.

Lemma Item_scene_eq i σ : Item_scene i σ = (Return (bool_decide (i ∈ scene_items σ)), σ).
Proof. reflexivity. Qed.

Lemma Knob_addEdge_eq σ k o edge :
  knobs σ !! k = Some o →
  IKnob k ∈ scene_items σ →
  Knob_addEdge k edge σ
  = (Return tt,
     set_scene_items (λ S, {[edge]} ∪ S)
       (set_knobs (insert k (Knob_with_edges ({[edge]} ∪ Knob_edges o) o)) σ)).
Proof.
  intros Hk Hs. unfold Knob_addEdge.
  rewrite (bind_Return _ _ _ _ _ (the_knob_Some _ _ _ Hk)).
  rewrite (bind_Return _ _ _ _ _ (update_knob_Some _ _ _ _ Hk)).
  rewrite (bind_Return _ _ _ _ _ (Item_scene_eq _ _)).
  simpl. rewrite (bool_decide_eq_true_2 _ Hs).
  unfold bind, get. simpl.
  case_bool_decide as Hin; [|done].
  unfold ret, set_scene_items, set_knobs. simpl. do 2 f_equal.
  symmetry. apply subseteq_union_1_L. set_solver.
Qed.

Lemma Knob_removeEdge_eq σ k o edge :
  knobs σ !! k = Some o →
  edge ∈ Knob_edges o →
  IKnob k ∈ scene_items σ →
  Knob_removeEdge k edge σ
  = (Return tt,
     set_scene_items (λ S, S ∖ {[edge]})
       (set_knobs (insert k (Knob_with_edges (Knob_edges o ∖ {[edge]}) o)) σ)).
Proof.
  intros Hk He Hs. unfold Knob_removeEdge.
  rewrite (bind_Return _ _ _ _ _ (the_knob_Some _ _ _ Hk)).
  rewrite (bool_decide_eq_true_2 _ He).
  rewrite (bind_Return _ _ _ _ _ (update_knob_Some _ _ _ _ Hk)).
  rewrite (bind_Return _ _ _ _ _ (Item_scene_eq _ _)).
  simpl. by rewrite (bool_decide_eq_true_2 _ Hs).
Qed.

(** A knob whose parent, if it has one, is in the store has an anchor. *)
Lemma Knob_anchor_parent_ok σ k o :
  knobs σ !! k = Some o →
  (∀ n, Knob_parentItem o = Some n → n ∈ dom (nodes σ)) →
  ∃ p, result (Knob_anchor k) σ = Return p.
Proof.
  intros Hk Hp.
  unfold result, Knob_anchor, Knob_mapToScene, bind, the_knob, the_node, ret.
  rewrite Hk. simpl. rewrite Hk.
  destruct (Knob_parentItem o) as [n|]; [|by eexists].
  pose proof (Hp n eq_refl) as Hn. apply elem_of_dom in Hn as [nd Hnd].
  rewrite Hnd. by eexists.
Qed.

Lemma closed_parent σ k o n :
  closed σ → knobs σ !! k = Some o → Knob_parentItem o = Some n →
  n ∈ dom (nodes σ).
Proof.
  intros Hc Hk Hp. destruct (closed_knob _ _ _ Hc Hk) as [_ H].
  by rewrite Hp in H.
Qed.

(** C8. For an edge bound to knobs at both ends, in a store without
    dangling references, [updatePath] returns, and a second call right
    after it returns and leaves the store as the first call left it:
    same points, same control points, same path. *)
Theorem updatePath_idempotent σ e ed a b :
  closed σ →
  edges σ !! e = Some ed →
  links ed a b →
  a ∈ dom (knobs σ) → b ∈ dom (knobs σ) →
  ∃ σ1 ed1,
    Edge_updatePath e σ = (Return tt, σ1) ∧
    edges σ1 !! e = Some ed1 ∧
    Edge_updatePath e σ1 = (Return tt, σ1).
Proof.
  intros Hc He [Ha Hb] [oa Hoa]%elem_of_dom [ob Hob]%elem_of_dom.
  destruct (Knob_anchor_ok σ a oa Hoa (closed_knob _ _ _ Hc Hoa)) as [p1 Hp1].
  destruct (Knob_anchor_ok σ b ob Hob (closed_knob _ _ _ Hc Hob)) as [p2 Hp2].
  assert (endpoint σ (Edge_knob1 ed) (Edge_pos1 ed) = Return p1) as H1
    by (by rewrite Ha).
  assert (endpoint σ (Edge_knob2 ed) (Edge_pos2 ed) = Return p2) as H2
    by (by rewrite Hb).
  exists (set_edges (insert e (Edge_updated ed p1 p2)) σ), (Edge_updated ed p1 p2).
  split_and!.
  - by apply Edge_updatePath_eq.
  - simpl. apply lookup_insert_eq.
  - rewrite (Edge_updatePath_eq _ e (Edge_updated ed p1 p2) p1 p2).
    + by rewrite Edge_updated_twice, set_edges_insert_insert.
    + simpl. apply lookup_insert_eq.
    + rewrite (endpoint_frame σ) by done. simpl. by rewrite Ha.
    + rewrite (endpoint_frame σ) by done. simpl. by rewrite Hb.
Qed.


(** An edge just built and bound to no knob has both its points at the
    origin: [updatePath] adds no curve between them, and the path
    stays empty. *)
Example updatePath_of_a_new_edge :
  Edge_path <$> edges (exec (e <- Edge_init ;; Edge_updatePath e) initial) !! 1%positive
  = Some [].
Proof. vm_compute. reflexivity. Qed.

Lemma updatePath_idempotent_witness :
  ∃ σ1 ed1,
    Edge_updatePath 1 connected_pair = (Return tt, σ1) ∧
    edges σ1 !! 1%positive = Some ed1 ∧
    Edge_updatePath 1 σ1 = (Return tt, σ1).
Proof.
  apply (updatePath_idempotent connected_pair 1
           (default (Edge_attrs 1) (edges connected_pair !! 1%positive)) 1 2).
  - by_compute.
  - vm_compute. reflexivity.
  - vm_compute. split; reflexivity.
  - by_compute.
  - by_compute.
Defined.

(** The path of the connected pair, in numbers. *)
Example connected_pair_path :
  Edge_path <$> edges connected_pair !! 1%positive
  = Some [MoveTo (mkQPointF 53 30);
          CubicTo (mkQPointF (53 + (1 - 53) * 0.6) 30)
                  (mkQPointF (53 + (1 - 53) * 0.4) 30)
                  (mkQPointF 1 30)]%float.
Proof. vm_compute. reflexivity. Qed.

Lemma set_scene_items_twice σ (i : Item) :
  set_scene_items (λ S, {[i]} ∪ S) (set_scene_items (λ S, {[i]} ∪ S) σ)
  = set_scene_items (λ S, {[i]} ∪ S) σ.
Proof.
  unfold set_scene_items. simpl. f_equal.
  by rewrite (assoc_L (∪)), (idemp_L (∪)).
Qed.

(** [a.connectTo(b)] for two knobs of the scene: one new edge, put into
    both sets and into the scene, with its path. *)
Lemma Knob_connectTo_eq σ a b oa ob :
  a ≠ b →
  knobs σ !! a = Some oa → knobs σ !! b = Some ob →
  IKnob a ∈ scene_items σ → IKnob b ∈ scene_items σ →
  closed σ →
  ∃ ed, links ed a b ∧
        Knob_connectTo a b σ
        = (Return tt, connected σ a b oa ob (fresh (dom (edges σ))) ed).
Proof.
  intros Hab Ha Hb Hsa Hsb Hc.
  set (e := fresh (dom (edges σ))).
  set (ed2 := Edge_with_knob2 (Some b)
                (Edge_with_knob1 (Some a) (Edge_attrs (CURRENT_ZOOM σ)))).
  set (σ4 := set_scene_items (λ S, {[IEdge e]} ∪ S)
               (set_knobs (λ K, <[b := Knob_add (IEdge e) ob]>
                                  (<[a := Knob_add (IEdge e) oa]> K))
                  (set_edges (insert e ed2) σ))).
  assert (knobs σ4 !! a = Some (Knob_add (IEdge e) oa)) as Ha4.
  { simpl. rewrite lookup_insert_ne by done. apply lookup_insert_eq. }
  assert (knobs σ4 !! b = Some (Knob_add (IEdge e) ob)) as Hb4.
  { simpl. apply lookup_insert_eq. }
  destruct (Knob_anchor_parent_ok σ4 a _ Ha4) as [p1 Hp1].
  { intros n Hn. simpl. by apply (closed_parent σ a oa). }
  destruct (Knob_anchor_parent_ok σ4 b _ Hb4) as [p2 Hp2].
  { intros n Hn. simpl. by apply (closed_parent σ b ob). }
  exists (Edge_updated ed2 p1 p2). split; [done|].
  unfold Knob_connectTo. rewrite bool_decide_eq_false_2 by done.
  rewrite (bind_Return _ _ _ _ _ (Edge_init_eq σ)). fold e.
  rewrite (bind_Return _ _ _ _ _ (update_edge_inserted _ _ _ _)).
  rewrite (bind_Return _ _ _ _ _ (update_edge_inserted _ _ _ _)). fold ed2.
  erewrite bind_Return; cycle 1.
  { by apply (Knob_addEdge_eq _ a oa). }
  erewrite bind_Return; cycle 1.
  { apply (Knob_addEdge_eq _ b ob).
    - simpl. by rewrite lookup_insert_ne.
    - simpl. set_solver. }
  match goal with
  | |- Edge_updatePath _ ?s = _ => assert (s = σ4) as ->
  end.
  { unfold σ4, set_edges, set_scene_items, set_knobs. simpl. f_equal.
    by rewrite (assoc_L (∪)), (idemp_L (∪)). }
  rewrite (Edge_updatePath_eq σ4 e ed2 p1 p2).
  - unfold connected, σ4, set_edges, set_scene_items, set_knobs. simpl.
    by rewrite insert_insert_eq.
  - simpl. apply lookup_insert_eq.
  - done.
  - done.
Qed.

(** Connecting keeps the store closed. *)
Lemma Item_live_connected σ a b oa ob e ed i :
  Item_live σ i → Item_live (connected σ a b oa ob e ed) i.
Proof.
  destruct i; simpl; rewrite ?dom_insert; set_solver.
Qed.

Lemma Knob_closed_connected σ a b oa ob e ed o :
  Knob_closed σ o → Knob_closed (connected σ a b oa ob e ed) o.
Proof.
  intros [He Hp]. split.
  - intros i Hi. apply Item_live_connected. by apply He.
  - by destruct (Knob_parentItem o).
Qed.

Lemma Knob_closed_add σ a b oa ob e ed o :
  Knob_closed σ o →
  Knob_closed (connected σ a b oa ob e ed) (Knob_add (IEdge e) o).
Proof.
  intros Ho. destruct (Knob_closed_connected σ a b oa ob e ed o Ho) as [He Hp].
  split; [|done]. simpl.
  apply set_Forall_union; [|done].
  apply set_Forall_singleton. simpl. rewrite dom_insert. set_solver.
Qed.

Lemma connected_closed σ a b oa ob e ed :
  closed σ →
  knobs σ !! a = Some oa → knobs σ !! b = Some ob →
  closed (connected σ a b oa ob e ed).
Proof.
  intros Hc Ha Hb. pose proof Hc as [Hk Hs]. split.
  - simpl. apply map_Forall_insert_2.
    { apply Knob_closed_add. by apply (closed_knob σ b). }
    apply map_Forall_insert_2.
    { apply Knob_closed_add. by apply (closed_knob σ a). }
    intros k o Ho. apply Knob_closed_connected. by apply (Hk k o).
  - simpl. apply set_Forall_union.
    + apply set_Forall_singleton. simpl. rewrite dom_insert. set_solver.
    + intros i Hi. apply Item_live_connected. by apply Hs.
Qed.

(** In a closed store the edge about to be made is in no knob's set and
    not in the scene. *)
Lemma fresh_edge_unused σ k o :
  closed σ → knobs σ !! k = Some o →
  IEdge (fresh (dom (edges σ))) ∉ Knob_edges o.
Proof.
  intros Hc Hk Hin. destruct (closed_knob _ _ _ Hc Hk) as [He _].
  apply He in Hin. simpl in Hin. by apply is_fresh in Hin.
Qed.

Lemma fresh_edge_not_in_scene σ :
  closed σ → IEdge (fresh (dom (edges σ))) ∉ scene_items σ.
Proof.
  intros [_ Hs] Hin. apply Hs in Hin. simpl in Hin. by apply is_fresh in Hin.
Qed.

Lemma edges_of_Some σ k o : knobs σ !! k = Some o → edges_of σ k = Knob_edges o.
Proof. unfold edges_of. by intros ->. Qed.

(** C10. [connectTo] does not deduplicate. Two calls of [a.connectTo(b)]
    on distinct knobs of the scene make two distinct new edges, each
    from [a] to [b], and both knobs' sets gain both. *)
Theorem connectTo_twice_two_edges σ a b :
  a ≠ b →
  closed σ →
  a ∈ dom (knobs σ) → b ∈ dom (knobs σ) →
  IKnob a ∈ scene_items σ → IKnob b ∈ scene_items σ →
  ∃ e1 e2 ed1 ed2 σ2,
    (Knob_connectTo a b ;; Knob_connectTo a b) σ = (Return tt, σ2) ∧
    e1 ≠ e2 ∧
    edges σ !! e1 = None ∧ edges σ !! e2 = None ∧
    edges σ2 !! e1 = Some ed1 ∧ edges σ2 !! e2 = Some ed2 ∧
    links ed1 a b ∧ links ed2 a b ∧
    (IEdge e1 ∉ edges_of σ a) ∧ (IEdge e2 ∉ edges_of σ a) ∧
    (IEdge e1 ∉ edges_of σ b) ∧ (IEdge e2 ∉ edges_of σ b) ∧
    edges_of σ2 a = {[IEdge e1; IEdge e2]} ∪ edges_of σ a ∧
    edges_of σ2 b = {[IEdge e1; IEdge e2]} ∪ edges_of σ b.
Proof.
  intros Hab Hc [oa Ha]%elem_of_dom [ob Hb]%elem_of_dom Hsa Hsb.
  destruct (Knob_connectTo_eq σ a b oa ob Hab Ha Hb Hsa Hsb Hc) as (ed1 & Hl1 & Hrun1).
  set (e1 := fresh (dom (edges σ))) in *.
  set (σ1 := connected σ a b oa ob e1 ed1) in *.
  assert (knobs σ1 !! a = Some (Knob_add (IEdge e1) oa)) as Ha1.
  { simpl. rewrite lookup_insert_ne by done. apply lookup_insert_eq. }
  assert (knobs σ1 !! b = Some (Knob_add (IEdge e1) ob)) as Hb1.
  { simpl. apply lookup_insert_eq. }
  assert (closed σ1) as Hc1 by (by apply connected_closed).
  destruct (Knob_connectTo_eq σ1 a b _ _ Hab Ha1 Hb1) as (ed2 & Hl2 & Hrun2);
    [simpl; set_solver | simpl; set_solver | done |].
  set (e2 := fresh (dom (edges σ1))) in *.
  assert (e1 ∈ dom (edges σ1)) as He1 by (simpl; rewrite dom_insert; set_solver).
  assert (e1 ≠ e2) as Hne.
  { intros Heq. rewrite Heq in He1. by apply is_fresh in He1. }
  assert (edges σ !! e2 = None) as He2.
  { apply not_elem_of_dom. intros Hin.
    apply (is_fresh (dom (edges σ1))). fold e2. simpl. rewrite dom_insert. set_solver. }
  exists e1, e2, ed1, ed2, (connected σ1 a b (Knob_add (IEdge e1) oa)
                             (Knob_add (IEdge e1) ob) e2 ed2).
  rewrite !(edges_of_Some σ _ _ Ha), !(edges_of_Some σ _ _ Hb).
  split_and!.
  - by rewrite (bind_Return _ _ _ _ _ Hrun1).
  - done.
  - apply Edge_init_fresh.
  - done.
  - simpl. rewrite lookup_insert_ne by done. apply lookup_insert_eq.
  - simpl. apply lookup_insert_eq.
  - done.
  - done.
  - by apply (fresh_edge_unused σ a).
  - intros Hin. destruct (closed_knob _ _ _ Hc Ha) as [Hlive _].
    apply Hlive, elem_of_dom in Hin as [? Hin]. simpl in Hin. congruence.
  - by apply (fresh_edge_unused σ b).
  - intros Hin. destruct (closed_knob _ _ _ Hc Hb) as [Hlive _].
    apply Hlive, elem_of_dom in Hin as [? Hin]. simpl in Hin. congruence.
  - unfold edges_of. simpl. rewrite lookup_insert_ne by done.
    rewrite lookup_insert_eq. simpl. set_solver.
  - unfold edges_of. simpl. rewrite lookup_insert_eq. simpl. set_solver.
Qed.

Lemma connectTo_twice_two_edges_witness :
  ∃ e1 e2 ed1 ed2 σ2,
    (Knob_connectTo 1 2 ;; Knob_connectTo 1 2) two_nodes = (Return tt, σ2) ∧
    e1 ≠ e2 ∧
    edges two_nodes !! e1 = None ∧ edges two_nodes !! e2 = None ∧
    edges σ2 !! e1 = Some ed1 ∧ edges σ2 !! e2 = Some ed2 ∧
    links ed1 1 2 ∧ links ed2 1 2 ∧
    (IEdge e1 ∉ edges_of two_nodes 1) ∧ (IEdge e2 ∉ edges_of two_nodes 1) ∧
    (IEdge e1 ∉ edges_of two_nodes 2) ∧ (IEdge e2 ∉ edges_of two_nodes 2) ∧
    edges_of σ2 1 = {[IEdge e1; IEdge e2]} ∪ edges_of two_nodes 1 ∧
    edges_of σ2 2 = {[IEdge e1; IEdge e2]} ∪ edges_of two_nodes 2.
Proof.
  apply (connectTo_twice_two_edges two_nodes 1 2); [lia | by_compute..].
Defined.

(** ** The gesture *)

(** Two stores with the same fields are the same store. *)
Lemma State_eq σ1 σ2 :
  knobs σ1 = knobs σ2 → edges σ1 = edges σ2 → nodes σ1 = nodes σ2 →
  headers σ1 = headers σ2 → scene_items σ1 = scene_items σ2 →
  CURRENT_ZOOM σ1 = CURRENT_ZOOM σ2 → zoomStep σ1 = zoomStep σ2 →
  view_m11 σ1 = view_m11 σ2 → temp σ1 = temp σ2 → stdout σ1 = stdout σ2 →
  σ1 = σ2.
Proof. destruct σ1, σ2. simpl. by intros -> -> -> -> -> -> -> -> -> ->. Qed.

Lemma deliver_nil σ : deliver [] σ = (Return tt, σ).
Proof. reflexivity. Qed.

Lemma deliver_cons ev evs σ r σ1 :
  eventFilter ev σ = (Return r, σ1) →
  deliver (ev :: evs) σ = deliver evs σ1.
Proof.
  intros Hev. unfold deliver. simpl. unfold bind at 1. unfold bind at 1.
  by rewrite Hev.
Qed.

Lemma deliver_app evs1 evs2 σ σ1 :
  deliver evs1 σ = (Return tt, σ1) →
  deliver (evs1 ++ evs2) σ = deliver evs2 σ1.
Proof.
  revert σ. induction evs1 as [|ev evs1 IH]; intros σ Hrun.
  - injection Hrun as <-. done.
  - simpl. unfold deliver in *. simpl in *.
    unfold bind at 1. unfold bind at 1 in Hrun.
    destruct (bind (eventFilter ev) (λ _, ret tt) σ) as [[[]|x] σa]; [|done].
    by apply IH.
Qed.

(** The left press on a knob: a draft edge from the knob to the pointer,
    registered on the knob and remembered in [temp]. *)
Lemma press_starts_draft σ a oa ev :
  closed σ →
  knobs σ !! a = Some oa →
  IKnob a ∈ scene_items σ →
  press_on a ev →
  ∃ σ1, eventFilter ev σ = (Return false, σ1) ∧
        drafting (pressed σ a oa (fresh (dom (edges σ)))) a (fresh (dom (edges σ))) σ1.
Proof.
  intros Hc Ha Hsa (Hty & Hbtn & [p Hp] & Hit).
  set (e := fresh (dom (edges σ))).
  destruct (Knob_anchor_parent_ok σ a oa Ha) as [p1 Hp1].
  { intros n Hn. by apply (closed_parent σ a oa). }
  set (ed1 := Edge_with_pos2 p (Edge_with_knob1 (Some a) (Edge_attrs (CURRENT_ZOOM σ)))).
  exists (set_stdout (λ _, (stdout σ ++ ["create edge"])%list)
            (set_edges (insert e (Edge_updated ed1 p1 p)) (pressed σ a oa e))).
  split; [|by eexists _, _].
  unfold eventFilter. rewrite Hty, Hp, Hit, Hbtn. simpl.
  unfold bind at 1. unfold bind at 1. unfold print at 1. unfold modify at 1.
  set (σp := set_stdout _ σ).
  rewrite (bind_Return _ _ _ _ _ (Edge_init_eq σp)).
  change (fresh (dom (edges σp))) with e.
  rewrite (bind_Return _ _ _ _ _ (update_edge_inserted _ _ _ _)).
  unfold scenePos. rewrite Hp. unfold bind at 1. unfold ret at 1.
  rewrite (bind_Return _ _ _ _ _ (update_edge_inserted _ _ _ _)).
  change (CURRENT_ZOOM σp) with (CURRENT_ZOOM σ). fold ed1.
  erewrite bind_Return; cycle 1.
  { apply (Edge_updatePath_eq _ e ed1 p1 p).
    - simpl. apply lookup_insert_eq.
    - simpl. by rewrite (Knob_anchor_frame a σ).
    - done. }
  rewrite set_edges_insert_insert.
  erewrite bind_Return; cycle 1.
  { by apply (Knob_addEdge_eq _ a oa). }
  reflexivity.
Qed.

(** A move during the gesture: the draft follows the pointer, and
    nothing else changes. *)
Lemma move_keeps_draft σ0 a e σ ev :
  temp σ0 !! "edge" = Some (IEdge e) →
  (∃ p, result (Knob_anchor a) σ0 = Return p) →
  mouse_move ev →
  drafting σ0 a e σ →
  ∃ σ1, eventFilter ev σ = (Return false, σ1) ∧ drafting σ0 a e σ1.
Proof.
  intros Ht [p1 Hp1] [Hty [p Hp]] (ed & out & -> & Hk1 & Hk2).
  set (ed1 := Edge_with_pos2 p ed).
  exists (set_stdout (λ _, (out ++ ["update edge"])%list)
            (set_edges (insert e (Edge_updated ed1 p1 p)) σ0)).
  split; [|by eexists _, _].
  unfold eventFilter. rewrite Hty. simpl.
  unfold bind at 1. unfold bind at 1. unfold get at 1. simpl. rewrite Ht.
  unfold bind at 1. unfold print at 1. unfold modify at 1.
  unfold scenePos. rewrite Hp. unfold bind at 1. unfold ret at 1.
  simpl.
  erewrite bind_Return; cycle 1.
  { apply (update_edge_Some _ e _ ed). simpl. apply lookup_insert_eq. }
  erewrite (Edge_updatePath_eq _ e ed1 p1 p).
  - unfold ret. f_equal. apply State_eq; simpl; try done.
    by rewrite !insert_insert_eq.
  - simpl. apply lookup_insert_eq.
  - simpl. rewrite Hk1. simpl. by rewrite (Knob_anchor_frame a σ0).
  - simpl. by rewrite Hk2.
Qed.

Lemma moves_keep_draft σ0 a e moves : ∀ σ,
  temp σ0 !! "edge" = Some (IEdge e) →
  (∃ p, result (Knob_anchor a) σ0 = Return p) →
  Forall mouse_move moves →
  drafting σ0 a e σ →
  ∃ σ1, deliver moves σ = (Return tt, σ1) ∧ drafting σ0 a e σ1.
Proof.
  induction moves as [|ev moves IH]; intros σ Ht Hp Hm Hd.
  - exists σ. by rewrite deliver_nil.
  - apply Forall_cons in Hm as [Hev Hm].
    destruct (move_keeps_draft σ0 a e σ ev Ht Hp Hev Hd) as (σa & Hrun & Hda).
    rewrite (deliver_cons _ _ _ _ _ Hrun). by apply IH.
Qed.

(** What the press leaves behind, seen from the store before it. *)
Lemma pressed_facts σ a oa e :
  knobs σ !! a = Some oa →
  IKnob a ∈ scene_items σ →
  temp (pressed σ a oa e) !! "edge" = Some (IEdge e) ∧
  temp (pressed σ a oa e) !! "knob" = Some (IKnob a) ∧
  knobs (pressed σ a oa e) !! a = Some (Knob_add (IEdge e) oa) ∧
  IKnob a ∈ scene_items (pressed σ a oa e).
Proof.
  intros Ha Hsa. simpl. split_and!.
  - rewrite lookup_insert_ne by done. apply lookup_insert_eq.
  - apply lookup_insert_eq.
  - apply lookup_insert_eq.
  - set_solver.
Qed.

Lemma pressed_anchor σ a oa e :
  closed σ → knobs σ !! a = Some oa →
  ∃ p, result (Knob_anchor a) (pressed σ a oa e) = Return p.
Proof.
  intros Hc Ha.
  apply (Knob_anchor_parent_ok _ a (Knob_add (IEdge e) oa)).
  - simpl. apply lookup_insert_eq.
  - intros n Hn. simpl. by apply (closed_parent σ a oa).
Qed.

Lemma Knob_add_remove (i : Item) o :
  i ∉ Knob_edges o →
  Knob_with_edges (Knob_edges (Knob_add i o) ∖ {[i]}) (Knob_add i o) = o.
Proof.
  intros Hi. destruct o as [? ? ? ? ? ? ? ? ? ? ? E ? ?]. simpl in *.
  unfold Knob_with_edges. simpl. f_equal. set_solver.
Qed.

Lemma print_eq msg σ :
  print msg σ = (Return tt, set_stdout (λ out, (out ++ [msg])%list) σ).
Proof. reflexivity. Qed.

Lemma get_eq σ : get σ = (Return σ, σ).
Proof. reflexivity. Qed.

Lemma temp_item_Some key i σ :
  temp σ !! key = Some i → temp_item key σ = (Return i, σ).
Proof. intros Hi. unfold temp_item, bind, get. by rewrite Hi. Qed.

(** The branch of [eventFilter] that gives the draft up. *)
Lemma drop_draft_eq σ a oa e σd msg :
  closed σ →
  knobs σ !! a = Some oa →
  IKnob a ∈ scene_items σ →
  e = fresh (dom (edges σ)) →
  drafting (pressed σ a oa e) a e σd →
  ∃ ed out,
    drop_draft msg σd
    = (Return tt, set_temp (λ _, ∅) (set_stdout (λ _, out) (set_edges (insert e ed) σ))).
Proof.
  intros Hc Ha Hsa He (ed & out & -> & Hk1 & Hk2).
  destruct (pressed_facts σ a oa e Ha Hsa) as (Hte & Htk & Hka & Hska).
  exists ed, (out ++ [msg])%list.
  unfold drop_draft.
  rewrite (bind_Return _ _ _ _ _ (print_eq _ _)).
  erewrite bind_Return; cycle 1.
  { apply temp_item_Some. exact Htk. }
  erewrite bind_Return; cycle 1.
  { apply temp_item_Some. exact Hte. }
  simpl Item_removeEdge.
  erewrite bind_Return; cycle 1.
  { apply (Knob_removeEdge_eq _ a (Knob_add (IEdge e) oa)); simpl.
    - apply lookup_insert_eq.
    - set_solver.
    - set_solver. }
  rewrite Knob_add_remove by (subst e; by apply (fresh_edge_unused σ a)).
  unfold resetTemp, modify. f_equal. apply State_eq; simpl; try done.
  - by rewrite insert_insert_eq, (insert_id _ _ _ Ha).
  - pose proof (fresh_edge_not_in_scene σ Hc). subst e. set_solver.
Qed.

Lemma release_drops_draft σ a oa e σd ev :
  closed σ →
  knobs σ !! a = Some oa →
  IKnob a ∈ scene_items σ →
  e = fresh (dom (edges σ)) →
  drafting (pressed σ a oa e) a e σd →
  release_on a ev ∨ release_off_knobs ev →
  ∃ ed out,
    eventFilter ev σd
    = (Return false, set_temp (λ _, ∅) (set_stdout (λ _, out) (set_edges (insert e ed) σ))).
Proof.
  intros Hc Ha Hsa He Hd Hrel.
  destruct (pressed_facts σ a oa e Ha Hsa) as (Hte & Htk & _).
  assert (temp σd !! "edge" = Some (IEdge e) ∧ temp σd !! "knob" = Some (IKnob a))
    as [Hte' Htk'].
  { destruct Hd as (ed & out & -> & _). done. }
  unfold eventFilter.
  destruct Hrel as [(Hty & [p Hp] & Hit) | (Hty & [p Hp] & Hit)];
    rewrite Hty, Hp.
  - rewrite Hit.
    destruct (drop_draft_eq σ a oa e σd "cant connect a knob to itself"
                Hc Ha Hsa He Hd) as (ed & out & Hdrop).
    exists ed, out.
    unfold bind at 1. unfold bind at 1. rewrite get_eq, Hte'.
    rewrite (bind_Return _ _ _ _ _ (temp_item_Some _ _ _ Htk')).
    rewrite bool_decide_eq_true_2 by done. by rewrite Hdrop.
  - destruct (drop_draft_eq σ a oa e σd "cancel edge" Hc Ha Hsa He Hd)
      as (ed & out & Hdrop).
    exists ed, out.
    unfold bind at 1. unfold bind at 1. rewrite get_eq, Hte'.
    destruct (itemAt (event_items ev)) as [[k| | |]|] eqn:Hi;
      [by destruct (Hit k) | by rewrite Hdrop..].
Qed.

(** The release over another knob binds the draft to it. *)
Lemma release_binds_draft σ a b oa ob e σd ev :
  closed σ →
  a ≠ b →
  knobs σ !! a = Some oa → knobs σ !! b = Some ob →
  IKnob a ∈ scene_items σ → IKnob b ∈ scene_items σ →
  drafting (pressed σ a oa e) a e σd →
  release_on b ev →
  ∃ ed out,
    links ed a b ∧
    eventFilter ev σd
    = (Return false,
       set_temp (λ _, ∅) (set_stdout (λ _, out) (connected σ a b oa ob e ed))).
Proof.
  intros Hc Hab Ha Hb Hsa Hsb (ed & out & -> & Hk1 & Hk2) (Hty & [p Hp] & Hit).
  destruct (pressed_facts σ a oa e Ha Hsa) as (Hte & Htk & Hka & Hska).
  set (σk := set_knobs (λ K, <[b := Knob_add (IEdge e) ob]>
                               (<[a := Knob_add (IEdge e) oa]> K)) σ).
  destruct (Knob_anchor_parent_ok σk a (Knob_add (IEdge e) oa)) as [p1 Hp1].
  { simpl. rewrite lookup_insert_ne by done. apply lookup_insert_eq. }
  { intros n Hn. simpl. by apply (closed_parent σ a oa). }
  destruct (Knob_anchor_parent_ok σk b (Knob_add (IEdge e) ob)) as [p2 Hp2].
  { simpl. apply lookup_insert_eq. }
  { intros n Hn. simpl. by apply (closed_parent σ b ob). }
  set (ed2 := Edge_with_knob2 (Some b) ed).
  exists (Edge_updated ed2 p1 p2), (out ++ ["finalize edge"])%list.
  split; [done|].
  unfold eventFilter. rewrite Hty, Hp, Hit.
  unfold bind at 1. unfold bind at 1. rewrite get_eq.
  cbn [temp set_stdout set_edges]. rewrite Hte.
  erewrite bind_Return; cycle 1.
  { apply temp_item_Some. exact Htk. }
  rewrite bool_decide_eq_false_2 by congruence.
  rewrite (bind_Return _ _ _ _ _ (print_eq _ _)).
  erewrite bind_Return; cycle 1.
  { apply (Knob_addEdge_eq _ b ob); simpl.
    - by rewrite lookup_insert_ne.
    - set_solver. }
  simpl Item_set_knob2. simpl Item_updatePath.
  erewrite bind_Return; cycle 1.
  { apply (update_edge_Some _ e _ ed). simpl. apply lookup_insert_eq. }
  fold ed2.
  erewrite bind_Return; cycle 1.
  { apply (Edge_updatePath_eq _ e ed2 p1 p2).
    - simpl. apply lookup_insert_eq.
    - simpl. rewrite Hk1. simpl. by rewrite (Knob_anchor_frame a σk).
    - simpl. by rewrite (Knob_anchor_frame b σk). }
  unfold resetTemp, modify, ret. f_equal. apply State_eq; simpl; try done.
  - by rewrite !insert_insert_eq.
  - by rewrite (assoc_L (∪)), (idemp_L (∪)).
Qed.

(** Outside a gesture the filter lets moves and releases pass, and a
    press with another button than the left one starts nothing. *)
Lemma idle_move_ignored σ ev :
  Idle σ → mouse_move ev → eventFilter ev σ = (Return false, σ).
Proof.
  intros Hidle [Hty _]. unfold eventFilter. rewrite Hty.
  unfold bind at 1. unfold bind at 1. rewrite get_eq, Hidle, lookup_empty.
  reflexivity.
Qed.

Lemma idle_moves_ignored σ moves :
  Idle σ → Forall mouse_move moves → deliver moves σ = (Return tt, σ).
Proof.
  intros Hidle Hm. induction Hm as [|ev moves Hev _ IH]; [done|].
  by rewrite (deliver_cons _ _ _ _ _ (idle_move_ignored σ ev Hidle Hev)).
Qed.

Lemma idle_release_ignored σ ev :
  Idle σ → event_type ev = GraphicsSceneMouseRelease →
  eventFilter ev σ = (Return false, σ).
Proof.
  intros Hidle Hty. unfold eventFilter. rewrite Hty.
  unfold bind at 1. unfold bind at 1. rewrite get_eq, Hidle, lookup_empty.
  reflexivity.
Qed.

Lemma other_press_ignored σ a ev :
  any_press_on a ev → event_button ev ≠ LeftButton →
  eventFilter ev σ = (Return false, σ).
Proof.
  intros (Hty & [p Hp] & Hit) Hbtn. unfold eventFilter. rewrite Hty, Hp, Hit.
  by rewrite bool_decide_eq_false_2.
Qed.

(** A gesture that starts on knob [a] and ends on [a] or on no knob:
    afterwards the controller is idle, and the knobs and the scene are
    as they were. *)
Lemma gesture_without_target σ a press moves release :
  closed σ → Idle σ →
  a ∈ dom (knobs σ) → IKnob a ∈ scene_items σ →
  any_press_on a press →
  Forall mouse_move moves →
  release_on a release ∨ release_off_knobs release →
  ∃ σ', deliver (press :: moves ++ [release]) σ = (Return tt, σ') ∧
        Idle σ' ∧
        knobs σ' = knobs σ ∧
        scene_items σ' = scene_items σ.
Proof.
  intros Hc Hidle [oa Ha]%elem_of_dom Hsa Hpress Hmoves Hrel.
  destruct (decide (event_button press = LeftButton)) as [Hbtn|Hbtn].
  - assert (press_on a press) as Hp.
    { destruct Hpress as (? & ? & ?). by split_and!. }
    destruct (press_starts_draft σ a oa press Hc Ha Hsa Hp) as (σ1 & Hrun1 & Hd1).
    set (e := fresh (dom (edges σ))) in *.
    destruct (pressed_facts σ a oa e Ha Hsa) as (Hte & _).
    destruct (moves_keep_draft _ a e moves σ1 Hte (pressed_anchor σ a oa e Hc Ha)
                Hmoves Hd1) as (σ2 & Hrun2 & Hd2).
    destruct (release_drops_draft σ a oa e σ2 release Hc Ha Hsa eq_refl Hd2 Hrel)
      as (ed & out & Hrun3).
    eexists. split_and!.
    + rewrite (deliver_cons _ _ _ _ _ Hrun1), (deliver_app _ _ _ _ Hrun2).
      rewrite (deliver_cons _ _ _ _ _ Hrun3). apply deliver_nil.
    + done.
    + done.
    + done.
  - exists σ. split_and!; [|done..].
    rewrite (deliver_cons _ _ _ _ _ (other_press_ignored σ a press Hpress Hbtn)).
    rewrite (deliver_app _ _ _ _ (idle_moves_ignored σ moves Hidle Hmoves)).
    assert (event_type release = GraphicsSceneMouseRelease) as Hty
      by (by destruct Hrel as [[? _]|[? _]]).
    rewrite (deliver_cons _ _ _ _ _ (idle_release_ignored σ release Hidle Hty)).
    apply deliver_nil.
Qed.

(** C2. Press on knob [a], any moves, release on another knob [b]: the
    controller is idle again, the store has exactly one edge more, that
    edge goes from [a] to [b], and it has joined the sets of both knobs
    and the scene. *)
Theorem gesture_connects σ a b press moves release :
  a ≠ b →
  closed σ →
  a ∈ dom (knobs σ) → b ∈ dom (knobs σ) →
  IKnob a ∈ scene_items σ → IKnob b ∈ scene_items σ →
  press_on a press →
  Forall mouse_move moves →
  release_on b release →
  ∃ e ed σ',
    deliver (press :: moves ++ [release]) σ = (Return tt, σ') ∧
    Idle σ' ∧
    edges σ !! e = None ∧
    edges σ' = <[e := ed]> (edges σ) ∧
    links ed a b ∧
    (IEdge e ∉ edges_of σ a) ∧ (IEdge e ∉ edges_of σ b) ∧
    (IEdge e ∉ scene_items σ) ∧
    edges_of σ' a = {[IEdge e]} ∪ edges_of σ a ∧
    edges_of σ' b = {[IEdge e]} ∪ edges_of σ b ∧
    scene_items σ' = {[IEdge e]} ∪ scene_items σ ∧
    ∀ k, k ≠ a → k ≠ b → knobs σ' !! k = knobs σ !! k.
Proof.
  intros Hab Hc [oa Ha]%elem_of_dom [ob Hb]%elem_of_dom Hsa Hsb Hp Hmoves Hrel.
  destruct (press_starts_draft σ a oa press Hc Ha Hsa Hp) as (σ1 & Hrun1 & Hd1).
  set (e := fresh (dom (edges σ))) in *.
  destruct (pressed_facts σ a oa e Ha Hsa) as (Hte & _).
  destruct (moves_keep_draft _ a e moves σ1 Hte (pressed_anchor σ a oa e Hc Ha)
              Hmoves Hd1) as (σ2 & Hrun2 & Hd2).
  destruct (release_binds_draft σ a b oa ob e σ2 release Hc Hab Ha Hb Hsa Hsb Hd2 Hrel)
    as (ed & out & Hl & Hrun3).
  exists e, ed, (set_temp (λ _, ∅) (set_stdout (λ _, out) (connected σ a b oa ob e ed))).
  rewrite (edges_of_Some σ _ _ Ha), (edges_of_Some σ _ _ Hb).
  split_and!.
  - rewrite (deliver_cons _ _ _ _ _ Hrun1), (deliver_app _ _ _ _ Hrun2).
    rewrite (deliver_cons _ _ _ _ _ Hrun3). apply deliver_nil.
  - done.
  - apply Edge_init_fresh.
  - done.
  - done.
  - by apply (fresh_edge_unused σ a).
  - by apply (fresh_edge_unused σ b).
  - by apply fresh_edge_not_in_scene.
  - unfold edges_of. simpl. rewrite lookup_insert_ne by done.
    by rewrite lookup_insert_eq.
  - unfold edges_of. simpl. by rewrite lookup_insert_eq.
  - done.
  - intros k Hka Hkb. simpl. by rewrite !lookup_insert_ne.
Qed.

Lemma gesture_connects_witness :
  ∃ e ed σ',
    deliver (press_knob1 :: [move_away; move_away] ++ [release_knob2]) two_nodes
    = (Return tt, σ') ∧
    Idle σ' ∧
    edges two_nodes !! e = None ∧
    edges σ' = <[e := ed]> (edges two_nodes) ∧
    links ed 1 2 ∧
    (IEdge e ∉ edges_of two_nodes 1) ∧ (IEdge e ∉ edges_of two_nodes 2) ∧
    (IEdge e ∉ scene_items two_nodes) ∧
    edges_of σ' 1 = {[IEdge e]} ∪ edges_of two_nodes 1 ∧
    edges_of σ' 2 = {[IEdge e]} ∪ edges_of two_nodes 2 ∧
    scene_items σ' = {[IEdge e]} ∪ scene_items two_nodes ∧
    ∀ k, k ≠ 1%positive → k ≠ 2%positive → knobs σ' !! k = knobs two_nodes !! k.
Proof.
  apply (gesture_connects two_nodes 1 2 press_knob1 [move_away; move_away]
           release_knob2);
    [lia | by_compute | by_compute | by_compute | by_compute | by_compute
     | event_facts | repeat constructor; event_facts | event_facts].
Defined.

(** C4. Press on knob [a], any moves, release over empty space or over
    an item that is no knob: the controller is idle again, the set of
    [a] is what it was before the press, and so are all knobs and the
    scene: the draft edge is registered nowhere. *)
Theorem cancelled_gesture_leaves_no_draft σ a press moves release :
  closed σ → Idle σ →
  a ∈ dom (knobs σ) → IKnob a ∈ scene_items σ →
  any_press_on a press →
  Forall mouse_move moves →
  release_off_knobs release →
  ∃ σ', deliver (press :: moves ++ [release]) σ = (Return tt, σ') ∧
        Idle σ' ∧
        edges_of σ' a = edges_of σ a ∧
        knobs σ' = knobs σ ∧
        scene_items σ' = scene_items σ.
Proof.
  intros Hc Hidle Ha Hsa Hp Hmoves Hrel.
  destruct (gesture_without_target σ a press moves release Hc Hidle Ha Hsa Hp
              Hmoves (or_intror Hrel)) as (σ' & Hrun & Hi & Hk & Hs).
  exists σ'. split_and!; [done..| |done|done].
  unfold edges_of. by rewrite Hk.
Qed.

Lemma cancelled_gesture_leaves_no_draft_witness :
  ∃ σ', deliver (press_knob1 :: [move_away] ++ [release_away]) two_nodes
        = (Return tt, σ') ∧
        Idle σ' ∧
        edges_of σ' 1 = edges_of two_nodes 1 ∧
        knobs σ' = knobs two_nodes ∧
        scene_items σ' = scene_items two_nodes.
Proof.
  apply (cancelled_gesture_leaves_no_draft two_nodes 1 press_knob1 [move_away]
           release_away);
    [by_compute | reflexivity | by_compute | by_compute
     | event_facts | repeat constructor; event_facts | event_facts].
Defined.

(** C3. A knob is not connected to itself. [s.connectTo(s)] returns at
    once and leaves the whole store as it was; and the gesture that
    presses on [s] and releases on [s] ends idle with the set of [s],
    every knob and the scene as they were. *)
Theorem self_connection_changes_nothing s :
  (∀ σ, Knob_connectTo s s σ = (Return tt, σ)) ∧
  (∀ σ press release,
     closed σ → Idle σ →
     s ∈ dom (knobs σ) → IKnob s ∈ scene_items σ →
     any_press_on s press →
     release_on s release →
     ∃ σ', deliver [press; release] σ = (Return tt, σ') ∧
           Idle σ' ∧
           edges_of σ' s = edges_of σ s ∧
           knobs σ' = knobs σ ∧
           scene_items σ' = scene_items σ).
Proof.
  split.
  - intros σ. unfold Knob_connectTo. by rewrite bool_decide_eq_true_2.
  - intros σ press release Hc Hidle Hs Hss Hp Hrel.
    destruct (gesture_without_target σ s press [] release Hc Hidle Hs Hss Hp
                (Forall_nil_2 _) (or_introl Hrel)) as (σ' & Hrun & Hi & Hk & Hsc).
    exists σ'. split_and!; [done..| |done|done].
    unfold edges_of. by rewrite Hk.
Qed.

Lemma self_connection_changes_nothing_witness :
  Knob_connectTo 1 1 two_nodes = (Return tt, two_nodes) ∧
  ∃ σ', deliver [press_knob1; release_knob1] two_nodes = (Return tt, σ') ∧
        Idle σ' ∧
        edges_of σ' 1 = edges_of two_nodes 1 ∧
        knobs σ' = knobs two_nodes ∧
        scene_items σ' = scene_items two_nodes.
Proof.
  split.
  - apply (proj1 (self_connection_changes_nothing 1) two_nodes).
  - apply (proj2 (self_connection_changes_nothing 1) two_nodes
             press_knob1 release_knob1);
      [by_compute | reflexivity | by_compute | by_compute
       | event_facts | event_facts].
Defined.

(** The same gestures, run. *)
Example gesture_run_connect :
  let σ' := exec (deliver [press_knob1; move_away; release_knob2]) two_nodes in
  edges_of σ' 1 = {[IEdge 1]} ∧ edges_of σ' 2 = {[IEdge 1]} ∧
  temp σ' = ∅ ∧
  stdout σ' = ["create edge"; "update edge"; "finalize edge"].
Proof. vm_compute. done. Qed.

Example gesture_run_cancel :
  let σ' := exec (deliver [press_knob1; move_away; release_away]) two_nodes in
  edges_of σ' 1 = ∅ ∧ temp σ' = ∅ ∧
  stdout σ' = ["create edge"; "update edge"; "cancel edge"].
Proof. vm_compute. done. Qed.

Example gesture_run_self :
  let σ' := exec (deliver [press_knob1; release_knob1]) two_nodes in
  edges_of σ' 1 = ∅ ∧ temp σ' = ∅ ∧
  stdout σ' = ["create edge"; "cant connect a knob to itself"].
Proof. vm_compute. done. Qed.

(** ** Layout: the width of a node *)

Lemma py_max_ge_first l : ∀ x, x ≤ py_max x l.
Proof.
  unfold py_max. induction l as [|y l IH]; intros x; simpl; [lia|].
  specialize (IH (Z.max x y)). lia.
Qed.

Lemma py_max_ge_each l : ∀ x y, y ∈ l → y ≤ py_max x l.
Proof.
  unfold py_max. induction l as [|z l IH]; intros x y Hy; simpl.
  - by apply elem_of_nil in Hy.
  - apply elem_of_cons in Hy as [->|Hy].
    + pose proof (py_max_ge_first l (Z.max x z)). unfold py_max in *. lia.
    + by apply IH.
Qed.

(** The maximum is one of the numbers it is taken over. *)
Lemma py_max_attained l : ∀ x, py_max x l = x ∨ py_max x l ∈ l.
Proof.
  unfold py_max. induction l as [|z l IH]; intros x; simpl; [by left|].
  destruct (IH (Z.max x z)) as [H|H].
  - destruct (Z.max_spec x z) as [[_ Hm]|[_ Hm]]; rewrite Hm in *.
    + right. rewrite H. apply list_elem_of_here.
    + by left.
  - right. by apply list_elem_of_further.
Qed.

(** Collecting the knobs among some items reads the store and fails
    only on a knob that is not there. *)
Lemma knobs_among_inv items : ∀ σ ks σ',
  knobs_among items σ = (Return ks, σ') → σ' = σ ∧ ks = knobs_in σ items.
Proof.
  induction items as [|i items IH]; intros σ ks σ' Hrun.
  - injection Hrun as <- <-. done.
  - destruct i as [k| | |]; simpl in Hrun; try by apply IH.
    apply bind_inv in Hrun as (o & σ1 & [Hk ->]%the_knob_inv & Hrun).
    apply bind_inv in Hrun as (os & σ2 & [-> ->]%IH & Hrun).
    injection Hrun as <- <-. split; [done|].
    unfold knobs_in. simpl. by rewrite Hk.
Qed.

Lemma Node_the_header_inv nd σ hd σ' :
  Node_the_header nd σ = (Return hd, σ') →
  ∃ h, Node_header nd = Some h ∧ headers σ !! h = Some hd ∧ σ' = σ.
Proof.
  unfold Node_the_header. destruct (Node_header nd) as [h|]; [|done].
  intros [? ->]%the_header_inv. by exists h.
Qed.

Lemma update_node_Some σ n f nd :
  nodes σ !! n = Some nd →
  update_node n f σ = (Return tt, set_nodes (insert n (f nd)) σ).
Proof.
  intros Hn. unfold update_node, modify, set_nodes. simpl.
  by rewrite (alter_alt_Some _ _ _ _ Hn).
Qed.

(** [updateSizeForChildren], when it returns, has replaced the node's
    width and height and nothing else. *)
Lemma Node_updateSizeForChildren_inv dm n σ σ' :
  Node_updateSizeForChildren dm n σ = (Return tt, σ') →
  ∃ nd h hd v,
    nodes σ !! n = Some nd ∧
    Node_header nd = Some h ∧
    headers σ !! h = Some hd ∧
    σ' = set_nodes
           (insert n (Node_with_h v
                        (Node_with_w
                           (width_laid_out dm (Node_margin nd) (Header_text hd)
                              (knobs_in σ (Node_childItems nd))) nd))) σ.
Proof.
  unfold Node_updateSizeForChildren. intros Hrun.
  apply bind_inv in Hrun as ([] & σ1 & Hw & Hh).
  unfold adjustWidth in Hw.
  apply bind_inv in Hw as (nd & ? & [Hn ->]%the_node_inv & Hw).
  apply bind_inv in Hw as (hd & ? & (h & Hh1 & Hh2 & ->)%Node_the_header_inv & Hw).
  apply bind_inv in Hw as (ks & ? & [-> ->]%knobs_among_inv & Hw).
  rewrite (update_node_Some _ _ _ _ Hn) in Hw. injection Hw as <-.
  unfold adjustHeight in Hh.
  apply bind_inv in Hh as (nd1 & ? & [Hn1 ->]%the_node_inv & Hh).
  simpl in Hn1. rewrite lookup_insert_eq in Hn1. injection Hn1 as <-.
  apply bind_inv in Hh as (ks & ? & [-> ->]%knobs_among_inv & Hh).
  apply bind_inv in Hh as (hd1 & ? & (h1 & _ & _ & ->)%Node_the_header_inv & Hh).
  erewrite update_node_Some in Hh by (simpl; apply lookup_insert_eq).
  injection Hh as <-.
  eexists nd, h, hd, _. split_and!; [done..|].
  apply State_eq; simpl; try done. by rewrite insert_insert_eq.
Qed.

Lemma Node_updateSizeForChildren_laid_out dm n σ σ' :
  Node_updateSizeForChildren dm n σ = (Return tt, σ') → laid_out dm σ' n.
Proof.
  intros (nd & h & hd & v & Hn & Hh & Hhd & ->)%Node_updateSizeForChildren_inv.
  eexists _, h, hd. split_and!.
  - simpl. apply lookup_insert_eq.
  - done.
  - done.
  - reflexivity.
Qed.

Lemma knobs_in_cons σ i items :
  knobs_in σ (i :: items)
  = match match i with IKnob k => knobs σ !! k | _ => None end with
    | Some o => o :: knobs_in σ items
    | None => knobs_in σ items
    end.
Proof. reflexivity. Qed.

(** Moving a knob does not change what it asks of the width. *)
Lemma knobs_in_moved dm m σ k p items :
  map (Knob_row dm m) (knobs_in (set_knobs (alter (Knob_with_pos p) k) σ) items)
  = map (Knob_row dm m) (knobs_in σ items).
Proof.
  induction items as [|i items IH]; [done|].
  rewrite !knobs_in_cons.
  destruct i as [k'| | |]; try apply IH.
  change (knobs (set_knobs (alter (Knob_with_pos p) k) σ))
    with (alter (Knob_with_pos p) k (knobs σ)).
  destruct (decide (k = k')) as [<-|Hne].
  - rewrite lookup_alter_eq. destruct (knobs σ !! k) as [o|]; [|apply IH].
    simpl. f_equal. apply IH.
  - rewrite lookup_alter_ne by done.
    destruct (knobs σ !! k') as [o|]; [|apply IH]. simpl. f_equal. apply IH.
Qed.

Lemma Node_knobs_eq σ nd : Node_knobs σ nd = knobs_in σ (Node_childItems nd).
Proof. reflexivity. Qed.

Lemma laid_out_moved dm σ n k p :
  laid_out dm σ n → laid_out dm (set_knobs (alter (Knob_with_pos p) k) σ) n.
Proof.
  intros (nd & h & hd & Hn & Hh & Hhd & Hw).
  exists nd, h, hd. split_and!; [done..|].
  rewrite Hw. unfold width_laid_out. rewrite !Node_knobs_eq.
  by rewrite (knobs_in_moved dm (Node_margin nd) σ k p).
Qed.

Lemma Node_boundingRect_inv n σ r σ' :
  Node_boundingRect n σ = (Return r, σ') → σ' = σ.
Proof.
  unfold Node_boundingRect. intros Hrun.
  apply bind_inv in Hrun as (nd & ? & [_ ->]%the_node_inv & Hrun).
  apply bind_inv in Hrun as (hd & ? & (h & _ & _ & ->)%Node_the_header_inv & Hrun).
  by injection Hrun as _ <-.
Qed.

Lemma update_knob_state k f σ : update_knob k f σ = (Return tt, set_knobs (alter f k) σ).
Proof. reflexivity. Qed.

(** After [addHeader] or [addKnob] has returned, the node is laid out. *)
Lemma Node_call_laid_out dm σ n c σ' :
  Node_call dm n c σ = (Return tt, σ') → laid_out dm σ' n.
Proof.
  destruct c as [h|k]; simpl.
  - unfold Node_addHeader. intros Hrun.
    apply bind_inv in Hrun as (? & ? & _ & Hrun).
    apply bind_inv in Hrun as (? & ? & _ & Hrun).
    apply bind_inv in Hrun as (? & ? & _ & Hrun).
    apply bind_inv in Hrun as (? & ? & _ & Hrun).
    apply bind_inv in Hrun as (? & ? & _ & Hrun).
    by apply Node_updateSizeForChildren_laid_out in Hrun.
  - unfold Node_addKnob. intros Hrun.
    apply bind_inv in Hrun as (nd & ? & _ & Hrun).
    apply bind_inv in Hrun as (? & ? & _ & Hrun).
    apply bind_inv in Hrun as (? & ? & _ & Hrun).
    apply bind_inv in Hrun as (? & ? & _ & Hrun).
    apply bind_inv in Hrun as ([] & σ4 & Hsize & Hrun).
    apply Node_updateSizeForChildren_laid_out in Hsize.
    apply bind_inv in Hrun as (bbox & ? & ->%Node_boundingRect_inv & Hrun).
    apply bind_inv in Hrun as (o & ? & [_ ->]%the_knob_inv & Hrun).
    destruct (Knob_class o).
    + by injection Hrun as <-.
    + rewrite update_knob_state in Hrun. injection Hrun as <-.
      by apply laid_out_moved.
    + rewrite update_knob_state in Hrun. injection Hrun as <-.
      by apply laid_out_moved.
Qed.

(** C1, as the code has it. After [addKnob] or [addHeader] has
    returned, the node's width is the larger of (margin + title width)
    and the widest knob row (knob width + margin + label width), plus
    one margin. So it is at least margin + title width + margin and at
    least knob width + margin + label width + margin for every knob,
    and it is equal to one of these. *)
Theorem width_after_layout_call dm σ n c σ' :
  Node_call dm n c σ = (Return tt, σ') →
  ∃ nd h hd,
    nodes σ' !! n = Some nd ∧
    Node_header nd = Some h ∧
    headers σ' !! h = Some hd ∧
    let margin := Node_margin nd in
    let titleNaturalWidth := width (dm (Header_text hd)) in
    let labelNaturalWidth k := width (dm (Knob_labelText k)) in
    Node_w nd
    = py_max (margin + titleNaturalWidth)
             (map (λ k, Knob_w k + margin + labelNaturalWidth k) (Node_knobs σ' nd))
      + margin ∧
    margin + titleNaturalWidth + margin ≤ Node_w nd ∧
    (∀ k, k ∈ Node_knobs σ' nd →
          Knob_w k + margin + labelNaturalWidth k + margin ≤ Node_w nd) ∧
    (Node_w nd = margin + titleNaturalWidth + margin ∨
     ∃ k, k ∈ Node_knobs σ' nd ∧
          Node_w nd = Knob_w k + margin + labelNaturalWidth k + margin).
Proof.
  intros (nd & h & hd & Hn & Hh & Hhd & Hw)%Node_call_laid_out.
  exists nd, h, hd. split_and!; [done..|].
  intros margin title label.
  unfold width_laid_out in Hw. fold margin title in Hw.
  change (Knob_row dm margin) with (λ k, Knob_w k + margin + label k) in Hw.
  set (rows := map (λ k, Knob_w k + margin + label k) (Node_knobs σ' nd)) in *.
  split_and!.
  - done.
  - pose proof (py_max_ge_first rows (margin + title)). lia.
  - intros k Hk.
    assert (Knob_w k + margin + label k ∈ rows) as Hin.
    { unfold rows. apply list_elem_of_fmap. by exists k. }
    pose proof (py_max_ge_each rows (margin + title) _ Hin). lia.
  - destruct (py_max_attained rows (margin + title)) as [Hm|Hm].
    + left. lia.
    + right. unfold rows in Hm at 2.
      apply list_elem_of_fmap in Hm as (k & Hk & Hin).
      exists k. split; [done|]. lia.
Qed.

Lemma width_after_layout_call_witness :
  ∃ nd h hd,
    nodes one_integer !! 1%positive = Some nd ∧
    Node_header nd = Some h ∧
    headers one_integer !! h = Some hd ∧
    let margin := Node_margin nd in
    let titleNaturalWidth := width (fixed_pitch (Header_text hd)) in
    let labelNaturalWidth k := width (fixed_pitch (Knob_labelText k)) in
    Node_w nd
    = py_max (margin + titleNaturalWidth)
             (map (λ k, Knob_w k + margin + labelNaturalWidth k)
                  (Node_knobs one_integer nd))
      + margin ∧
    margin + titleNaturalWidth + margin ≤ Node_w nd ∧
    (∀ k, k ∈ Node_knobs one_integer nd →
          Knob_w k + margin + labelNaturalWidth k + margin ≤ Node_w nd) ∧
    (Node_w nd = margin + titleNaturalWidth + margin ∨
     ∃ k, k ∈ Node_knobs one_integer nd ∧
          Node_w nd = Knob_w k + margin + labelNaturalWidth k + margin).
Proof.
  apply (width_after_layout_call fixed_pitch integer_before_knob 1 (AddKnob 1)).
  vm_compute. reflexivity.
Defined.

(** The width the specification's formula asks for is not the width of
    the module's own [Integer] node: with a font of seven pixels a
    character the title "Int" is 21 wide and the row of the knob
    "value" is 10 + 6 + 35 = 51, so the node is 51 + 6 = 57 wide after
    [addKnob], where the formula gives 6 + 51 + 6 = 63 and the claimed
    bound for the knob is 63 as well. *)
Lemma Integer_node_is_narrower_than_specified :
  ∃ nd hd k,
    Node_call fixed_pitch 1 (AddKnob 1) integer_before_knob
    = (Return tt, one_integer) ∧
    nodes one_integer !! 1%positive = Some nd ∧
    headers one_integer !! 1%positive = Some hd ∧
    Node_header nd = Some 1%positive ∧
    Node_knobs one_integer nd = [k] ∧
    Node_margin nd = 6 ∧
    width (fixed_pitch (Header_text hd)) = 21 ∧
    Knob_w k = 10 ∧
    width (fixed_pitch (Knob_labelText k)) = 35 ∧
    Node_w nd = 57 ∧
    width_as_specified fixed_pitch (Node_margin nd) (Header_text hd) [k] = 63 ∧
    Node_w nd
    < Node_margin nd + Knob_w k + Node_margin nd
      + width (fixed_pitch (Knob_labelText k)) + Node_margin nd.
Proof.
  eexists _, _, _. split_and!; try (vm_compute; reflexivity).
Qed.

(** The same for every node of the module that the example font makes
    wider by a knob than by its title: here the [Output] node. *)
Example Output_node_width :
  Node_w <$> nodes two_nodes !! 2%positive = Some 64 ∧
  width_laid_out fixed_pitch 6 "Output"
    (knobs_in two_nodes [IKnob 2]) = 64 ∧
  width_as_specified fixed_pitch 6 "Output"
    (knobs_in two_nodes [IKnob 2]) = 70.
Proof. vm_compute. done. Qed.

(** With no margin the two formulas agree. *)
Lemma width_formulas_agree_without_margin dm title ks :
  width_laid_out dm 0 title ks = width_as_specified dm 0 title ks.
Proof.
  unfold width_laid_out, width_as_specified.
  by rewrite !Z.add_0_l, !Z.add_0_r.
Qed.

(** ** Layout: the calls return *)

Lemma knobs_among_returns items : ∀ σ,
  Forall (child_ok σ) items →
  knobs_among items σ = (Return (knobs_in σ items), σ).
Proof.
  induction items as [|i items IH]; intros σ Hok; [done|].
  apply Forall_cons in Hok as [Hi Hok].
  rewrite knobs_in_cons.
  destruct i as [k| | |]; simpl; try by apply IH.
  simpl in Hi. apply elem_of_dom in Hi as [o Ho].
  rewrite (bind_Return _ _ _ _ _ (the_knob_Some _ _ _ Ho)).
  rewrite (bind_Return _ _ _ _ _ (IH σ Hok)). by rewrite Ho.
Qed.

Lemma heights_of_returns items : ∀ σ,
  Forall (child_ok σ) items →
  ∃ hs, heights_of items σ = (Return hs, σ).
Proof.
  induction items as [|i items IH]; intros σ Hok; [by eexists|].
  apply Forall_cons in Hok as [Hi Hok].
  destruct (IH σ Hok) as [hs Hhs]. simpl.
  assert (∃ h, Item_h i σ = (Return h, σ)) as [h Hh].
  { destruct i as [k|e|n|h]; simpl in Hi; [| done | |];
      apply elem_of_dom in Hi as [o Ho]; eexists; simpl.
    - by rewrite (bind_Return _ _ _ _ _ (the_knob_Some _ _ _ Ho)).
    - by rewrite (bind_Return _ _ _ _ _ (the_node_Some _ _ _ Ho)).
    - by rewrite (bind_Return _ _ _ _ _ (the_header_Some _ _ _ Ho)). }
  rewrite (bind_Return _ _ _ _ _ Hh), (bind_Return _ _ _ _ _ Hhs). by eexists.
Qed.

(** For a node that is ready, [updateSizeForChildren] returns. *)
Lemma Node_updateSizeForChildren_returns dm σ n :
  Node_ready σ n → ∃ σ', Node_updateSizeForChildren dm n σ = (Return tt, σ').
Proof.
  intros (nd & h & Hn & Hh & [hd Hhd]%elem_of_dom & Hok).
  unfold Node_updateSizeForChildren, adjustWidth, adjustHeight.
  assert (Node_the_header nd σ = (Return hd, σ)) as Hhdr.
  { unfold Node_the_header. rewrite Hh. by apply the_header_Some. }
  unfold bind at 1.
  rewrite (bind_Return _ _ _ _ _ (the_node_Some _ _ _ Hn)).
  rewrite (bind_Return _ _ _ _ _ Hhdr).
  rewrite (bind_Return _ _ _ _ _ (knobs_among_returns _ _ Hok)).
  rewrite (update_node_Some _ _ _ _ Hn).
  set (nd1 := Node_with_w _ nd). set (σ1 := set_nodes _ σ).
  erewrite bind_Return; cycle 1.
  { apply the_node_Some. simpl. apply lookup_insert_eq. }
  erewrite bind_Return; cycle 1.
  { apply (knobs_among_returns (Node_childItems nd) σ1).
    eapply Forall_impl; [exact Hok|].
    intros [| | |]; simpl; try done. rewrite dom_insert. set_solver. }
  erewrite bind_Return; cycle 1.
  { unfold Node_the_header. simpl. rewrite Hh. apply the_header_Some. exact Hhd. }
  erewrite update_node_Some by (simpl; apply lookup_insert_eq).
  by eexists.
Qed.

Lemma bind_modify {B} (f : State → State) (k : unit → M B) σ :
  bind (modify f) k σ = k tt (f σ).
Proof. reflexivity. Qed.

(** Liveness only depends on which objects the store has. *)
Lemma child_ok_same_objects σ σ' i :
  dom (knobs σ') = dom (knobs σ) → dom (nodes σ') = dom (nodes σ) →
  dom (headers σ') = dom (headers σ) →
  child_ok σ i → child_ok σ' i.
Proof. intros Hk Hn Hh. destruct i; simpl; by rewrite ?Hk, ?Hn, ?Hh. Qed.

Lemma Node_ready_resized σ n nd f :
  nodes σ !! n = Some nd →
  Node_header (f nd) = Node_header nd →
  Node_childItems (f nd) = Node_childItems nd →
  Node_ready σ n → Node_ready (set_nodes (alter f n) σ) n.
Proof.
  intros Hn Hfh Hfc (nd' & h & Hn' & Hh & Hhd & Hok).
  rewrite Hn in Hn'. injection Hn' as <-.
  exists (f nd), h. split_and!.
  - simpl. by rewrite lookup_alter_eq, Hn.
  - by rewrite Hfh.
  - done.
  - rewrite Hfc. eapply Forall_impl; [exact Hok|].
    intros i. apply child_ok_same_objects; simpl; try done.
    by rewrite dom_alter_L.
Qed.

(** Giving a knob or a header of the store to a node that is ready
    returns and leaves the node ready, and the store with the objects
    it had. *)
Lemma Item_setParentItem_returns σ child n :
  match child with IKnob _ | IHeader _ => True | _ => False end →
  child_ok σ child →
  Node_ready σ n →
  ∃ σ2, Item_setParentItem child n σ = (Return tt, σ2) ∧
        Node_ready σ2 n ∧
        dom (knobs σ2) = dom (knobs σ) ∧
        dom (headers σ2) = dom (headers σ).
Proof.
  intros Hkind Hchild (nd & h & Hn & Hh & Hhd & Hok).
  assert (∃ old, Item_parentItem child σ = (Return old, σ)) as [old Hold].
  { destruct child as [k| | |h']; simpl in *; try done;
      apply elem_of_dom in Hchild as [o Ho]; eexists.
    - by rewrite (bind_Return _ _ _ _ _ (the_knob_Some _ _ _ Ho)).
    - by rewrite (bind_Return _ _ _ _ _ (the_header_Some _ _ _ Ho)). }
  unfold Item_setParentItem. rewrite (bind_Return _ _ _ _ _ Hold).
  case_bool_decide as Hsame.
  { exists σ. split_and!; [done| |done|done]. by exists nd, h. }
  set (unlink := match old with Some p => update_node p _ | None => ret tt end).
  set (link := match child with IKnob k => update_knob k _ | IHeader h' => _
                           | _ => ret tt end).
  assert (∃ σa, unlink σ = (Return tt, σa) ∧ nodes σa !! n = Some nd ∧
                headers σa = headers σ ∧ knobs σa = knobs σ ∧
                dom (nodes σa) = dom (nodes σ)) as (σa & Hua & Hna & Hha & Hka & Hda).
  { unfold unlink. destruct old as [p|].
    - eexists. split; [reflexivity|]. simpl. split_and!; try done.
      + rewrite lookup_alter_ne; [done|]. intros ->. by apply Hsame.
      + by rewrite dom_alter_L.
    - by exists σ. }
  assert (∃ σb, link σa = (Return tt, σb) ∧ nodes σb = nodes σa ∧
                dom (headers σb) = dom (headers σ) ∧
                dom (knobs σb) = dom (knobs σ)) as (σb & Hub & Hnb & Hhb & Hkb).
  { unfold link. destruct child as [k| | |h']; try done.
    - eexists. split; [reflexivity|]. simpl. split_and!; [done|by rewrite Hha|].
      by rewrite dom_alter_L, Hka.
    - eexists. split; [reflexivity|]. simpl. split_and!; [done| |by rewrite Hka].
      by rewrite dom_alter_L, Hha. }
  rewrite (bind_Return _ _ _ _ _ Hua), (bind_Return _ _ _ _ _ Hub).
  unfold update_node. rewrite bind_modify.
  set (σc := set_nodes _ σb).
  assert (Node_ready σc n ∧ dom (knobs σc) = dom (knobs σ) ∧
          dom (headers σc) = dom (headers σ)) as (Hrc & Hkc & Hhc).
  { split_and!; [|done|done].
    exists (Node_with_childItems (Node_childItems nd ++ [child]) nd), h.
    split_and!.
    - simpl. by rewrite Hnb, lookup_alter_eq, Hna.
    - done.
    - simpl. by rewrite Hhb.
    - simpl. apply Forall_app. split.
      + eapply Forall_impl; [exact Hok|]. intros i.
        apply child_ok_same_objects; simpl; try done.
        by rewrite dom_alter_L, Hnb, Hda.
      + apply Forall_singleton.
        revert Hchild. apply child_ok_same_objects; simpl; try done.
        by rewrite dom_alter_L, Hnb, Hda. }
  clearbody σc. rewrite (bind_Return _ _ _ _ _ (Item_scene_eq _ _)).
  destruct (bool_decide (INode n ∈ scene_items σc)); eexists;
    (split; [reflexivity|]); simpl; split_and!; done.
Qed.

Lemma Node_ready_same_nodes σ σ' n :
  nodes σ' = nodes σ →
  dom (knobs σ') = dom (knobs σ) → dom (headers σ') = dom (headers σ) →
  Node_ready σ n → Node_ready σ' n.
Proof.
  intros Hn Hk Hh (nd & h & ? & ? & ? & Hok). exists nd, h.
  split_and!; [by rewrite Hn | done | by rewrite Hh |].
  eapply Forall_impl; [exact Hok|]. intros i.
  apply child_ok_same_objects; by rewrite ?Hn.
Qed.

Lemma Node_updateSizeForChildren_keeps_ready dm σ n σ' :
  Node_ready σ n →
  Node_updateSizeForChildren dm n σ = (Return tt, σ') →
  Node_ready σ' n ∧ knobs σ' = knobs σ.
Proof.
  intros (nd & h & Hn & Hh & Hhd & Hok)
         (nd' & h' & hd & v & Hn' & _ & _ & ->)%Node_updateSizeForChildren_inv.
  rewrite Hn in Hn'. injection Hn' as <-. split; [|done].
  eexists _, h. split_and!.
  - simpl. apply lookup_insert_eq.
  - done.
  - done.
  - simpl. eapply Forall_impl; [exact Hok|]. intros i.
    apply child_ok_same_objects; simpl; try done.
    rewrite dom_insert_L. apply elem_of_dom_2 in Hn. set_solver.
Qed.

Lemma Node_boundingRect_returns σ n :
  Node_ready σ n → ∃ r, Node_boundingRect n σ = (Return r, σ).
Proof.
  intros (nd & h & Hn & Hh & [hd Hhd]%elem_of_dom & _).
  unfold Node_boundingRect.
  rewrite (bind_Return _ _ _ _ _ (the_node_Some _ _ _ Hn)).
  erewrite bind_Return; cycle 1.
  { unfold Node_the_header. rewrite Hh. by apply the_header_Some. }
  by eexists.
Qed.

(** [addKnob] returns for a node that is ready and a knob of the store. *)
Lemma Node_addKnob_returns dm σ n k :
  Node_ready σ n → k ∈ dom (knobs σ) →
  ∃ σ', Node_addKnob dm n k σ = (Return tt, σ').
Proof.
  intros Hr Hk. pose proof Hr as (nd & h & Hn & Hh & Hhd & Hok).
  unfold Node_addKnob.
  rewrite (bind_Return _ _ _ _ _ (the_node_Some _ _ _ Hn)).
  destruct (heights_of_returns _ σ Hok) as [hs Hhs].
  rewrite (bind_Return _ _ _ _ _ Hhs).
  destruct (Item_setParentItem_returns σ (IKnob k) n I Hk Hr)
    as (σ2 & Hrun2 & Hr2 & Hk2 & Hh2).
  rewrite (bind_Return _ _ _ _ _ Hrun2).
  unfold update_knob at 1. rewrite bind_modify.
  set (σ3 := set_knobs _ σ2).
  assert (Node_ready σ3 n) as Hr3.
  { apply (Node_ready_same_nodes σ2); simpl; try done. by rewrite dom_alter_L. }
  assert (k ∈ dom (knobs σ3)) as Hk3.
  { simpl. by rewrite dom_alter_L, Hk2. }
  clearbody σ3.
  destruct (Node_updateSizeForChildren_returns dm σ3 n Hr3) as [σ4 Hrun4].
  rewrite (bind_Return _ _ _ _ _ Hrun4).
  destruct (Node_updateSizeForChildren_keeps_ready dm σ3 n σ4 Hr3 Hrun4) as [Hr4 Hk4].
  destruct (Node_boundingRect_returns σ4 n Hr4) as [bbox Hbbox].
  rewrite (bind_Return _ _ _ _ _ Hbbox).
  rewrite <- Hk4 in Hk3. apply elem_of_dom in Hk3 as [o Ho].
  rewrite (bind_Return _ _ _ _ _ (the_knob_Some _ _ _ Ho)).
  destruct (Knob_class o); by eexists.
Qed.

(** [addHeader] returns for a node and a header of the store, when the
    node's children are in the store. *)
Lemma Node_addHeader_returns dm σ n h nd :
  nodes σ !! n = Some nd →
  Forall (child_ok σ) (Node_childItems nd) →
  h ∈ dom (headers σ) →
  ∃ σ', Node_addHeader dm n h σ = (Return tt, σ').
Proof.
  intros Hn Hok Hh. pose proof Hh as [hd Hhd]%elem_of_dom.
  unfold Node_addHeader.
  rewrite (bind_Return _ _ _ _ _ (the_node_Some _ _ _ Hn)).
  rewrite (bind_Return _ _ _ _ _ (the_header_Some _ _ _ Hhd)).
  unfold update_node at 1. rewrite bind_modify.
  unfold update_header at 1. rewrite bind_modify.
  set (σ2 := set_headers _ _).
  assert (Node_ready σ2 n) as Hr2.
  { exists (Node_with_header (Some h) nd), h. split_and!.
    - simpl. by rewrite lookup_alter_eq, Hn.
    - done.
    - simpl. by rewrite dom_alter_L.
    - simpl. eapply Forall_impl; [exact Hok|]. intros i.
      apply child_ok_same_objects; simpl; by rewrite ?dom_alter_L. }
  assert (child_ok σ2 (IHeader h)) as Hc2.
  { simpl. by rewrite dom_alter_L. }
  clearbody σ2.
  destruct (Item_setParentItem_returns σ2 (IHeader h) n I Hc2 Hr2)
    as (σ3 & Hrun3 & Hr3 & _).
  rewrite (bind_Return _ _ _ _ _ Hrun3).
  apply Node_updateSizeForChildren_returns. exact Hr3.
Qed.

(** What [addHeader] and [addKnob] need, read off the two lemmas. *)
Lemma Node_call_returns dm σ n c :
  Node_ready σ n →
  match c with
  | AddHeader h => h ∈ dom (headers σ)
  | AddKnob k => k ∈ dom (knobs σ)
  end →
  ∃ σ', Node_call dm n c σ = (Return tt, σ').
Proof.
  intros Hr Hc. destruct c as [h|k]; simpl.
  - destruct Hr as (nd & ? & Hn & _ & _ & Hok).
    by apply (Node_addHeader_returns dm σ n h nd).
  - by apply Node_addKnob_returns.
Qed.

(** A node without header cannot be laid out: [addKnob] raises. *)
Example addKnob_before_addHeader :
  result (n <- Node_init true ;;
          k <- Knob_init InputKnob no_kwargs ;;
          Node_addKnob fixed_pitch n k) initial
  = Raise AttributeError.
Proof. vm_compute. reflexivity. Qed.

(** ** Invariants the statements above rest on *)

(** Every wheel step leaves the global equal to the view's scale, and
    no step changes [zoomStep]. *)
Lemma GridView_wheelEvent_syncs σ delta :
  let σ' := exec (GridView_wheelEvent delta) σ in
  CURRENT_ZOOM σ' = view_m11 σ' ∧ zoomStep σ' = zoomStep σ.
Proof. done. Qed.

Lemma initial_in_sync :
  CURRENT_ZOOM initial = view_m11 initial ∧ zoomStep initial = 1.1%float.
Proof. done. Qed.

(** The curvature attributes are set by [Edge.__init__] and kept by
    everything the module does to an edge. *)
Lemma curvature_Edge_attrs zoom : curvature_as_constructed (Edge_attrs zoom).
Proof. by repeat split. Qed.

Lemma curvature_kept ed k p p1 p2 :
  curvature_as_constructed ed →
  curvature_as_constructed (Edge_with_knob1 k ed) ∧
  curvature_as_constructed (Edge_with_knob2 k ed) ∧
  curvature_as_constructed (Edge_with_pos2 p ed) ∧
  curvature_as_constructed (Edge_updated ed p1 p2).
Proof. intros (? & ? & ? & ?). by repeat split. Qed.

(** The store of a fresh process is closed, and idle. *)
Lemma initial_closed : closed initial ∧ Idle initial.
Proof. split; [by_compute | reflexivity]. Qed.

(** * Further properties of the module *)

(** ** Layout: what [addKnob] and [addHeader] leave behind *)

(** [updateSizeForChildren], when it returns: the new width and the new
    height. *)
Lemma Node_updateSizeForChildren_sizes dm n σ σ' :
  Node_updateSizeForChildren dm n σ = (Return tt, σ') →
  ∃ nd h hd,
    nodes σ !! n = Some nd ∧
    Node_header nd = Some h ∧
    headers σ !! h = Some hd ∧
    σ' = set_nodes
           (insert n
              (Node_with_h
                 (height_laid_out (Node_margin nd) (Header_h hd)
                    (knobs_in σ (Node_childItems nd)))
                 (Node_with_w
                    (width_laid_out dm (Node_margin nd) (Header_text hd)
                       (knobs_in σ (Node_childItems nd))) nd))) σ.
Proof.
  unfold Node_updateSizeForChildren. intros Hrun.
  apply bind_inv in Hrun as ([] & σ1 & Hw & Hh).
  unfold adjustWidth in Hw.
  apply bind_inv in Hw as (nd & ? & [Hn ->]%the_node_inv & Hw).
  apply bind_inv in Hw as (hd & ? & (h & Hh1 & Hh2 & ->)%Node_the_header_inv & Hw).
  apply bind_inv in Hw as (ks & ? & [-> ->]%knobs_among_inv & Hw).
  rewrite (update_node_Some _ _ _ _ Hn) in Hw. injection Hw as <-.
  unfold adjustHeight in Hh.
  apply bind_inv in Hh as (nd1 & ? & [Hn1 ->]%the_node_inv & Hh).
  simpl in Hn1. rewrite lookup_insert_eq in Hn1. injection Hn1 as <-.
  apply bind_inv in Hh as (ks & ? & [-> ->]%knobs_among_inv & Hh).
  apply bind_inv in Hh
    as (hd1 & ? & (h1 & Hh1' & Hh2' & ->)%Node_the_header_inv & Hh).
  simpl in Hh1', Hh2'. rewrite Hh1 in Hh1'. injection Hh1' as <-.
  rewrite Hh2 in Hh2'. injection Hh2' as <-.
  erewrite update_node_Some in Hh by (simpl; apply lookup_insert_eq).
  injection Hh as <-.
  exists nd, h, hd. split_and!; [done..|].
  apply State_eq; simpl; try done. by rewrite insert_insert_eq.
Qed.

(** The knobs among some items, seen through an attribute that two
    stores agree on. *)
Lemma knobs_in_ext {A} (f : Knob → A) σ1 σ2 items :
  (∀ k, f <$> knobs σ1 !! k = f <$> knobs σ2 !! k) →
  map f (knobs_in σ1 items) = map f (knobs_in σ2 items).
Proof.
  intros Hf. induction items as [|i items IH]; [done|].
  rewrite !knobs_in_cons.
  destruct i as [k| | |]; try apply IH.
  specialize (Hf k).
  destruct (knobs σ1 !! k) as [o1|], (knobs σ2 !! k) as [o2|]; simpl in *;
    try done.
  injection Hf as ->. by rewrite IH.
Qed.

Lemma Item_h_inv i σ h σ' :
  Item_h i σ = (Return h, σ') → σ' = σ ∧ Item_height σ i = Some h.
Proof.
  destruct i as [k|e|n|hd]; simpl; intros Hrun; try done.
  - apply bind_inv in Hrun as (o & ? & [Ho ->]%the_knob_inv & Hrun).
    injection Hrun as <- <-. by rewrite Ho.
  - apply bind_inv in Hrun as (o & ? & [Ho ->]%the_node_inv & Hrun).
    injection Hrun as <- <-. by rewrite Ho.
  - apply bind_inv in Hrun as (o & ? & [Ho ->]%the_header_inv & Hrun).
    injection Hrun as <- <-. by rewrite Ho.
Qed.

Lemma heights_of_inv items : ∀ σ hs σ',
  heights_of items σ = (Return hs, σ') →
  σ' = σ ∧ mapM (Item_height σ) items = Some hs.
Proof.
  induction items as [|i items IH]; intros σ hs σ' Hrun; simpl in Hrun.
  - by injection Hrun as <- <-.
  - apply bind_inv in Hrun as (h & ? & [-> Hh]%Item_h_inv & Hrun).
    apply bind_inv in Hrun as (hs0 & ? & [-> Hhs]%IH & Hrun).
    injection Hrun as <- <-. split; [done|].
    simpl. by rewrite Hh, Hhs.
Qed.

Lemma Node_boundingRect_eq σ n nd h hd :
  nodes σ !! n = Some nd → Node_header nd = Some h → headers σ !! h = Some hd →
  Node_boundingRect n σ
  = (Return (QRect_xywh (Node_x nd) (Node_y nd) (Node_w nd) (Header_h hd)), σ).
Proof.
  intros Hn Hh Hhd. unfold Node_boundingRect.
  rewrite (bind_Return _ _ _ _ _ (the_node_Some _ _ _ Hn)).
  unfold Node_the_header. rewrite Hh.
  by rewrite (bind_Return _ _ _ _ _ (the_header_Some _ _ _ Hhd)).
Qed.

Lemma Knob_with_parentItem_same o n :
  Knob_parentItem o = Some n → Knob_with_parentItem (Some n) o = o.
Proof. destruct o. simpl. by intros ->. Qed.

Lemma Node_with_childItems_same nd :
  Node_with_childItems (Node_childItems nd) nd = nd.
Proof. by destruct nd. Qed.

(** [knob.setParentItem(node)], when it returns. *)
Lemma Item_setParentItem_knob_inv k n σ σ2 nd :
  Item_setParentItem (IKnob k) n σ = (Return tt, σ2) →
  nodes σ !! n = Some nd →
  ∃ ok,
    knobs σ !! k = Some ok ∧
    knobs σ2 = <[k := Knob_with_parentItem (Some n) ok]> (knobs σ) ∧
    nodes σ2 !! n
    = Some (Node_with_childItems
              (children_with k n (Knob_parentItem ok) (Node_childItems nd)) nd) ∧
    headers σ2 = headers σ ∧
    edges σ2 = edges σ ∧
    (INode n ∈ scene_items σ → IKnob k ∈ scene_items σ ∨
                                Knob_parentItem ok ≠ Some n →
     IKnob k ∈ scene_items σ2) ∧
    (INode n ∉ scene_items σ → Knob_parentItem ok ≠ Some n →
     IKnob k ∉ scene_items σ2).
Proof.
  unfold Item_setParentItem. intros Hrun Hn.
  apply bind_inv in Hrun as (old & σ1 & Hold & Hrun). simpl in Hold.
  apply bind_inv in Hold as (ok & ? & [Hk ->]%the_knob_inv & Hold).
  injection Hold as <- <-.
  exists ok. split; [done|]. unfold children_with.
  case_bool_decide as Hsame.
  { injection Hrun as <-.
    rewrite (Knob_with_parentItem_same _ _ Hsame), insert_id by done.
    rewrite Node_with_childItems_same. split_and!; try done.
    intros _ [?|?]; done. }
  unfold update_node, update_knob in Hrun.
  assert (∃ σa, match Knob_parentItem ok with
                | Some p => modify (set_nodes (alter (λ o, Node_with_childItems
                              (filter (λ c, c ≠ IKnob k) (Node_childItems o)) o) p))
                | None => ret tt
                end σ = (Return tt, σa) ∧
                nodes σa !! n = Some nd ∧ knobs σa = knobs σ ∧
                headers σa = headers σ ∧ edges σa = edges σ ∧
                scene_items σa = scene_items σ)
    as (σa & Hua & Hna & Hka & Hha & Hea & Hsa).
  { destruct (Knob_parentItem ok) as [p|].
    - eexists. split; [reflexivity|]. simpl. split_and!; try done.
      rewrite lookup_alter_ne; [done|]. intros ->. by apply Hsame.
    - by exists σ. }
  rewrite (bind_Return _ _ _ _ _ Hua) in Hrun.
  rewrite !bind_modify in Hrun.
  rewrite (bind_Return _ _ _ _ _ (Item_scene_eq _ _)) in Hrun.
  simpl in Hrun. rewrite Hsa in Hrun.
  destruct (bool_decide_reflect (INode n ∈ scene_items σ)) as [Hin|Hout];
    injection Hrun as <-; simpl; rewrite ?Hka, ?Hna, ?Hha, ?Hea, ?Hsa;
    rewrite lookup_alter_eq, Hna, (alter_alt_Some _ _ _ _ Hk);
    split_and!; try done; try set_solver.
Qed.

(** [addKnob], when it returns: the knob, the node and the rest of the
    store. *)
Lemma Node_addKnob_inv dm n k σ σ' :
  Node_addKnob dm n k σ = (Return tt, σ') →
  ∃ nd h hd ok hs,
    nodes σ !! n = Some nd ∧
    Node_header nd = Some h ∧
    headers σ !! h = Some hd ∧
    knobs σ !! k = Some ok ∧
    mapM (Item_height σ) (Node_childItems nd) = Some hs ∧
    let items := children_with k n (Knob_parentItem ok) (Node_childItems nd) in
    let w := width_laid_out dm (Node_margin nd) (Header_text hd) (knobs_in σ' items) in
    let h := height_laid_out (Node_margin nd) (Header_h hd) (knobs_in σ' items) in
    knobs σ' = <[k := Knob_added n nd hd hs w ok]> (knobs σ) ∧
    nodes σ' !! n = Some (Node_with_h h (Node_with_w w (Node_with_childItems items nd))) ∧
    headers σ' = headers σ ∧
    edges σ' = edges σ ∧
    (INode n ∈ scene_items σ → IKnob k ∈ scene_items σ ∨
                                Knob_parentItem ok ≠ Some n →
     IKnob k ∈ scene_items σ') ∧
    (INode n ∉ scene_items σ → Knob_parentItem ok ≠ Some n →
     IKnob k ∉ scene_items σ').
Proof.
  unfold Node_addKnob. intros Hrun.
  apply bind_inv in Hrun as (nd & ? & [Hn ->]%the_node_inv & Hrun).
  apply bind_inv in Hrun as (hs & ? & [-> Hhs]%heights_of_inv & Hrun).
  apply bind_inv in Hrun as ([] & σ2 & Hsp & Hrun).
  destruct (Item_setParentItem_knob_inv _ _ _ _ _ Hsp Hn)
    as (ok & Hk & Hk2 & Hn2 & Hh2 & He2 & Hin2 & Hout2).
  unfold update_knob at 1 in Hrun. rewrite bind_modify in Hrun.
  set (o1 := Knob_with_margin (PInt (Node_margin nd))
               (Knob_with_parentItem (Some n) ok)).
  set (σ3 := set_knobs _ σ2) in Hrun.
  assert (knobs σ3 = <[k := o1]> (knobs σ)) as Hk3.
  { unfold σ3. simpl. rewrite Hk2.
    erewrite alter_alt_Some by apply lookup_insert_eq.
    by rewrite insert_insert_eq. }
  assert (nodes σ3 = nodes σ2 ∧ headers σ3 = headers σ2 ∧ edges σ3 = edges σ2 ∧
          scene_items σ3 = scene_items σ2) as (Hn3 & Hh3 & He3 & Hs3) by done.
  clearbody σ3.
  apply bind_inv in Hrun as ([] & σ4 & Hsize & Hrun).
  apply Node_updateSizeForChildren_sizes in Hsize
    as (nd3 & h & hd & Hnd3 & Hh & Hhd & ->).
  rewrite Hn3, Hn2 in Hnd3. injection Hnd3 as <-.
  simpl in Hh. rewrite Hh3, Hh2 in Hhd.
  change (Node_margin (Node_with_childItems _ nd)) with (Node_margin nd) in *.
  change (Node_childItems (Node_with_childItems ?l nd)) with l in *.
  set (items := children_with k n (Knob_parentItem ok) (Node_childItems nd)) in *.
  set (w := width_laid_out dm (Node_margin nd) (Header_text hd) (knobs_in σ3 items)) in *.
  set (ht := height_laid_out (Node_margin nd) (Header_h hd) (knobs_in σ3 items)) in *.
  set (nd4 := Node_with_h ht (Node_with_w w (Node_with_childItems items nd))) in *.
  set (σ4 := set_nodes (insert n nd4) σ3) in *.
  assert (nodes σ4 !! n = Some nd4) as Hn4 by (simpl; apply lookup_insert_eq).
  assert (headers σ4 !! h = Some hd) as Hhd4 by (simpl; by rewrite Hh3, Hh2).
  rewrite (bind_Return _ _ _ _ _ (Node_boundingRect_eq _ _ _ _ _ Hn4 Hh Hhd4)) in Hrun.
  assert (knobs σ4 !! k = Some o1) as Hk4.
  { simpl. rewrite Hk3. apply lookup_insert_eq. }
  rewrite (bind_Return _ _ _ _ _ (the_knob_Some _ _ _ Hk4)) in Hrun.
  change (Knob_class o1) with (Knob_class ok) in Hrun.
  change (Knob_w o1) with (Knob_w ok) in Hrun.
  change (Node_x nd4) with (Node_x nd) in Hrun.
  change (Node_y nd4) with (Node_y nd) in Hrun.
  change (Node_w nd4) with w in Hrun.
  exists nd, h, hd, ok, hs. do 5 (split; [done|]). cbv zeta. fold items.
  assert (∃ p, σ' = set_knobs (insert k (Knob_with_pos p o1)) σ4 ∧
               Knob_added n nd hd hs w ok = Knob_with_pos p o1)
    as (p & -> & Hadded).
  { unfold Knob_added. fold o1. destruct (Knob_class ok).
    - injection Hrun as <-. exists (Knob_pos o1).
      assert (Knob_with_pos (Knob_pos o1) o1 = o1) as -> by reflexivity.
      split; [|done].
      apply State_eq; try done.
      change (knobs (set_knobs (insert k o1) σ4)) with (<[k := o1]> (knobs σ4)).
      by rewrite insert_id.
    - rewrite (update_knob_Some _ _ _ _ Hk4) in Hrun. injection Hrun as <-.
      by eexists.
    - rewrite (update_knob_Some _ _ _ _ Hk4) in Hrun. injection Hrun as <-.
      by eexists. }
  assert (∀ {A} (f : Knob → A), (∀ q o, f (Knob_with_pos q o) = f o) →
            map f (knobs_in (set_knobs (insert k (Knob_with_pos p o1)) σ4) items)
            = map f (knobs_in σ3 items)) as Hext.
  { intros A f Hf. apply knobs_in_ext. intros k'. simpl.
    rewrite Hk3. destruct (decide (k = k')) as [<-|Hne].
    - rewrite !lookup_insert_eq. simpl. by rewrite Hf.
    - by rewrite !lookup_insert_ne. }
  assert (width_laid_out dm (Node_margin nd) (Header_text hd)
            (knobs_in (set_knobs (insert k (Knob_with_pos p o1)) σ4) items) = w) as ->.
  { unfold w, width_laid_out. by rewrite Hext. }
  assert (height_laid_out (Node_margin nd) (Header_h hd)
            (knobs_in (set_knobs (insert k (Knob_with_pos p o1)) σ4) items) = ht) as ->.
  { unfold ht, height_laid_out. by rewrite (Hext _ (λ k, Knob_h k + Node_margin nd)). }
  simpl. rewrite Hadded, Hk3, Hh3, Hh2, He3, He2, Hs3.
  split_and!; try done.
  by rewrite insert_insert_eq.
Qed.

Lemma py_sum_from (l : list Z) : ∀ a, foldl Z.add a l = a + py_sum l.
Proof.
  unfold py_sum. induction l as [|x l IH]; intros a; simpl; [lia|].
  rewrite (IH (a + x)), (IH (0 + x)). lia.
Qed.

Lemma py_sum_cons x l : py_sum (x :: l) = x + py_sum l.
Proof. unfold py_sum at 1. simpl. by rewrite py_sum_from. Qed.

Lemma py_sum_app l1 l2 : py_sum (l1 ++ l2) = py_sum l1 + py_sum l2.
Proof.
  induction l1 as [|x l1 IH]; [done|].
  simpl. rewrite !py_sum_cons, IH. lia.
Qed.

(** The margins of a sum of rows, taken out of it. *)
Lemma py_sum_rows {A} (f : A → Z) m (l : list A) :
  py_sum (map (λ x, f x + m) l) = py_sum (map f l) + Z.of_nat (length l) * m.
Proof.
  induction l as [|x l IH]; [done|].
  cbn [map length]. rewrite !py_sum_cons, IH. lia.
Qed.

(** After [addHeader] or [addKnob] has returned, the height of the node
    is what the layout computes from the store as it is then. *)
Lemma Node_call_height dm σ n c σ' :
  Node_call dm n c σ = (Return tt, σ') →
  ∃ nd h hd,
    nodes σ' !! n = Some nd ∧
    Node_header nd = Some h ∧
    headers σ' !! h = Some hd ∧
    Node_h nd = height_laid_out (Node_margin nd) (Header_h hd) (Node_knobs σ' nd).
Proof.
  destruct c as [h|k]; simpl.
  - unfold Node_addHeader. intros Hrun.
    apply bind_inv in Hrun as (? & ? & _ & Hrun).
    apply bind_inv in Hrun as (? & ? & _ & Hrun).
    apply bind_inv in Hrun as (? & ? & _ & Hrun).
    apply bind_inv in Hrun as (? & ? & _ & Hrun).
    apply bind_inv in Hrun as (? & ? & _ & Hrun).
    apply Node_updateSizeForChildren_sizes in Hrun
      as (nd & h' & hd & Hn & Hh & Hhd & ->).
    eexists _, h', hd. split_and!.
    + simpl. apply lookup_insert_eq.
    + done.
    + done.
    + reflexivity.
  - intros (nd & h & hd & ok & hs & Hn & Hh & Hhd & Hk & Hhs & Hrest)%Node_addKnob_inv.
    cbv zeta in Hrest. destruct Hrest as (_ & Hn' & Hh' & _).
    eexists _, h, hd. split_and!; [exact Hn'|done|by rewrite Hh'|reflexivity].
Qed.

(** X1. After [addKnob] or [addHeader] has returned, the node's height
    is the height of its header, plus the height of every knob among
    its children with one margin each, plus a closing margin: the
    header's height, the knobs' heights, and one margin more than there
    are knobs. *)
Theorem height_after_layout_call dm σ n c σ' :
  Node_call dm n c σ = (Return tt, σ') →
  ∃ nd h hd,
    nodes σ' !! n = Some nd ∧
    Node_header nd = Some h ∧
    headers σ' !! h = Some hd ∧
    let margin := Node_margin nd in
    let ks := Node_knobs σ' nd in
    Node_h nd = Header_h hd + py_sum (map (λ k, Knob_h k + margin) ks) + margin ∧
    Node_h nd
    = Header_h hd + py_sum (map Knob_h ks) + (Z.of_nat (length ks) + 1) * margin.
Proof.
  intros (nd & h & hd & Hn & Hh & Hhd & Hht)%Node_call_height.
  exists nd, h, hd. split_and!; [done..|].
  intros margin ks. unfold height_laid_out in Hht. fold margin ks in Hht.
  split; [done|]. rewrite Hht, py_sum_rows. lia.
Qed.

Lemma height_after_layout_call_witness :
  ∃ nd h hd,
    nodes one_multiply !! 1%positive = Some nd ∧
    Node_header nd = Some h ∧
    headers one_multiply !! h = Some hd ∧
    let margin := Node_margin nd in
    let ks := Node_knobs one_multiply nd in
    Node_h nd = Header_h hd + py_sum (map (λ k, Knob_h k + margin) ks) + margin ∧
    Node_h nd
    = Header_h hd + py_sum (map Knob_h ks) + (Z.of_nat (length ks) + 1) * margin.
Proof.
  apply (height_after_layout_call fixed_pitch multiply_before_value 1 (AddKnob 3)).
  vm_compute. reflexivity.
Defined.

(** The [Multiply] node of the module is 20 + 3 * (10 + 6) + 6 high. *)
Example Multiply_node_height :
  Node_h <$> nodes one_multiply !! 1%positive = Some 74.
Proof. vm_compute. reflexivity. Qed.

Lemma int32_small z : -2147483648 ≤ z < 2147483648 → int32 z = z.
Proof. intros Hz. unfold int32. rewrite Z.mod_small; lia. Qed.

(** X2. Where [addKnob] puts the knob. Its [y] is the sum, over the
    children the node had when the call began (its header among them),
    of the child's height plus the node's margin. Its [x] depends on
    its class: for an [OutputKnob] it is [right()] of the node's new
    bounding rectangle (its x plus its width minus one), minus the
    knob's width, plus half a margin; for an [InputKnob] it is the
    rectangle's left edge minus half a margin; a knob of the base class
    stays where it was. The margin is even, as the margin of every node
    the module builds is, so that half of it is the same number under
    Python 2 and under Python 3; and the numbers are in the range in
    which Qt's integers and the conversions to floating point are
    exact. *)
Theorem addKnob_places_knob dm σ n k σ' nd h hd ok hs nd' :
  Node_addKnob dm n k σ = (Return tt, σ') →
  nodes σ !! n = Some nd →
  Node_header nd = Some h →
  headers σ !! h = Some hd →
  knobs σ !! k = Some ok →
  mapM (Item_height σ) (Node_childItems nd) = Some hs →
  nodes σ' !! n = Some nd' →
  let margin := Node_margin nd in
  let yOffset := py_sum (map (λ h, h + margin) hs) in
  Z.even margin = true →
  Z.abs margin ≤ 536870912 →
  Z.abs yOffset ≤ 536870912 →
  Z.abs (Knob_w ok) ≤ 536870912 →
  Node_in_range nd' hd →
  ∃ ok' bbox,
    knobs σ' !! k = Some ok' ∧
    Node_boundingRect n σ' = (Return bbox, σ') ∧
    match Knob_class ok with
    | OutputKnob =>
        Knob_pos ok'
        = mkQPointF (float_of_Z (QRect_right bbox - Knob_w ok + margin / 2))
                    (float_of_Z yOffset) ∧
        QRect_right bbox = Node_x nd + Node_w nd' - 1
    | InputKnob =>
        Knob_pos ok'
        = mkQPointF (float_of_Z (QRect_left bbox - margin / 2)) (float_of_Z yOffset) ∧
        QRect_left bbox = Node_x nd
    | BaseKnob => Knob_pos ok' = Knob_pos ok
    end.
Proof.
  intros Hrun Hn Hh Hhd Hk Hhs Hnd' margin yOffset _ _ _ _ (Hx & Hy & Hw & Hhh).
  apply Node_addKnob_inv in Hrun
    as (nd0 & h0 & hd0 & ok0 & hs0 & Hn0 & Hh0 & Hhd0 & Hk0 & Hhs0 & Hrest).
  rewrite Hn in Hn0. injection Hn0 as <-.
  rewrite Hh in Hh0. injection Hh0 as <-.
  rewrite Hhd in Hhd0. injection Hhd0 as <-.
  rewrite Hk in Hk0. injection Hk0 as <-.
  rewrite Hhs in Hhs0. injection Hhs0 as <-.
  cbv zeta in Hrest. destruct Hrest as (Hk' & Hn' & Hh' & _).
  rewrite Hnd' in Hn'. injection Hn' as Hn'.
  eexists _, _. split_and!.
  - rewrite Hk'. apply lookup_insert_eq.
  - eapply Node_boundingRect_eq; [exact Hnd'|by rewrite Hn'|by rewrite Hh'].
  - assert (Node_x nd' = Node_x nd ∧ Node_y nd' = Node_y nd) as [Hx' Hy']
      by (by rewrite Hn').
    assert (Node_w nd'
            = width_laid_out dm (Node_margin nd) (Header_text hd)
                (knobs_in σ' (children_with k n (Knob_parentItem ok)
                                (Node_childItems nd)))) as Hw'
      by (by rewrite Hn').
    unfold Knob_added. rewrite <- Hw', <- Hx', <- Hy'. fold margin yOffset.
    destruct (Knob_class ok); [done| |].
    + split; [done|]. by rewrite Hx'.
    + split; [done|]. unfold QRect_right, QRect_xywh. simpl.
      rewrite int32_small by lia. by rewrite Hx'.
Qed.

Lemma addKnob_places_knob_witness :
  ∃ nd hd ok nd',
    (nodes multiply_before_value !! 1%positive = Some nd ∧
     headers multiply_before_value !! 1%positive = Some hd ∧
     knobs multiply_before_value !! 3%positive = Some ok ∧
     nodes one_multiply !! 1%positive = Some nd') ∧
    ∃ ok' bbox,
      knobs one_multiply !! 3%positive = Some ok' ∧
      Node_boundingRect 1 one_multiply = (Return bbox, one_multiply) ∧
      match Knob_class ok with
      | OutputKnob =>
          Knob_pos ok'
          = mkQPointF (float_of_Z (QRect_right bbox - Knob_w ok + Node_margin nd / 2))
                      (float_of_Z (py_sum (map (λ h, h + Node_margin nd) [20; 10; 10]))) ∧
          QRect_right bbox = Node_x nd + Node_w nd' - 1
      | InputKnob =>
          Knob_pos ok'
          = mkQPointF (float_of_Z (QRect_left bbox - Node_margin nd / 2)) (float_of_Z (py_sum (map (λ h, h + Node_margin nd) [20; 10; 10]))) ∧
          QRect_left bbox = Node_x nd
      | BaseKnob => Knob_pos ok' = Knob_pos ok
      end.
Proof.
  eexists _, _, _, _. split.
  { split_and!; vm_compute; reflexivity. }
  eapply (addKnob_places_knob fixed_pitch multiply_before_value 1 3 one_multiply
           _ 1 _ _ [20; 10; 10]).
  - vm_compute. reflexivity.
  - vm_compute. reflexivity.
  - reflexivity.
  - vm_compute. reflexivity.
  - vm_compute. reflexivity.
  - vm_compute. reflexivity.
  - vm_compute. reflexivity.
  - reflexivity.
  - vm_compute. discriminate.
  - vm_compute. discriminate.
  - vm_compute. discriminate.
  - vm_compute. repeat split; discriminate.
Defined.

(** The knobs of the [Multiply] node, which is 68 wide: the inputs at
    x = -3, the output at x = 67 - 10 + 3, one row of 16 below another
    under the header. *)
Example Multiply_knob_positions :
  Knob_pos <$> knobs one_multiply !! 1%positive = Some (mkQPointF (-3) 26) ∧
  Knob_pos <$> knobs one_multiply !! 2%positive = Some (mkQPointF (-3) 42) ∧
  Knob_pos <$> knobs one_multiply !! 3%positive = Some (mkQPointF 60 58) ∧
  Node_w <$> nodes one_multiply !! 1%positive = Some 68.
Proof. vm_compute. done. Qed.

(** X3. What [addKnob] does to the knob besides placing it: the node
    becomes its parent and the node's margin replaces its own, while
    its class, size, flow, label, colours and edges stay. The knob is
    appended to the node's children unless the node was its parent
    already, and no other knob changes. *)
Theorem addKnob_adopts_knob dm σ n k σ' :
  Node_addKnob dm n k σ = (Return tt, σ') →
  ∃ nd ok nd' ok',
    nodes σ !! n = Some nd ∧
    knobs σ !! k = Some ok ∧
    nodes σ' !! n = Some nd' ∧
    knobs σ' !! k = Some ok' ∧
    Knob_parentItem ok' = Some n ∧
    Knob_margin ok' = PInt (Node_margin nd) ∧
    Knob_with_pos (Knob_pos ok) ok'
    = Knob_with_margin (PInt (Node_margin nd)) (Knob_with_parentItem (Some n) ok) ∧
    Knob_flow ok' = Knob_flow ok ∧
    Knob_edges ok' = Knob_edges ok ∧
    Node_childItems nd'
    = (if bool_decide (Knob_parentItem ok = Some n) then Node_childItems nd
       else Node_childItems nd ++ [IKnob k])%list ∧
    Node_margin nd' = Node_margin nd ∧
    Node_pos nd' = Node_pos nd ∧
    ∀ k', k' ≠ k → knobs σ' !! k' = knobs σ !! k'.
Proof.
  intros (nd & h & hd & ok & hs & Hn & Hh & Hhd & Hk & Hhs & Hrest)%Node_addKnob_inv.
  cbv zeta in Hrest. destruct Hrest as (Hk' & Hn' & Hh' & _).
  eexists nd, ok, _, _. split_and!; [done|done|exact Hn'| |..].
  - rewrite Hk'. apply lookup_insert_eq.
  - unfold Knob_added. by destruct (Knob_class ok).
  - unfold Knob_added. by destruct (Knob_class ok).
  - unfold Knob_added. by destruct (Knob_class ok).
  - unfold Knob_added. by destruct (Knob_class ok).
  - unfold Knob_added. by destruct (Knob_class ok).
  - done.
  - done.
  - done.
  - intros k' Hne. rewrite Hk'. by rewrite lookup_insert_ne.
Qed.

Lemma addKnob_adopts_knob_witness :
  ∃ nd ok nd' ok',
    nodes multiply_before_value !! 1%positive = Some nd ∧
    knobs multiply_before_value !! 3%positive = Some ok ∧
    nodes one_multiply !! 1%positive = Some nd' ∧
    knobs one_multiply !! 3%positive = Some ok' ∧
    Knob_parentItem ok' = Some 1%positive ∧
    Knob_margin ok' = PInt (Node_margin nd) ∧
    Knob_with_pos (Knob_pos ok) ok'
    = Knob_with_margin (PInt (Node_margin nd))
        (Knob_with_parentItem (Some 1%positive) ok) ∧
    Knob_flow ok' = Knob_flow ok ∧
    Knob_edges ok' = Knob_edges ok ∧
    Node_childItems nd'
    = (if bool_decide (Knob_parentItem ok = Some 1%positive) then Node_childItems nd
       else Node_childItems nd ++ [IKnob 3])%list ∧
    Node_margin nd' = Node_margin nd ∧
    Node_pos nd' = Node_pos nd ∧
    ∀ k', k' ≠ 3%positive → knobs one_multiply !! k' = knobs multiply_before_value !! k'.
Proof.
  apply (addKnob_adopts_knob fixed_pitch multiply_before_value 1 3).
  vm_compute. reflexivity.
Defined.

Lemma heights_of_eq items : ∀ σ hs,
  mapM (Item_height σ) items = Some hs →
  heights_of items σ = (Return hs, σ).
Proof.
  induction items as [|i items IH]; intros σ hs Hhs; simpl in Hhs.
  - by injection Hhs as <-.
  - destruct (Item_height σ i) as [h|] eqn:Hh; [|done]. simpl in Hhs.
    destruct (mapM (Item_height σ) items) as [hs0|] eqn:Hhs0; [|done].
    injection Hhs as <-. simpl.
    assert (Item_h i σ = (Return h, σ)) as Hi.
    { destruct i as [k|e|n|hd]; simpl in *; try done.
      - destruct (knobs σ !! k) as [o|] eqn:Ho; [|done]. injection Hh as <-.
        by rewrite (bind_Return _ _ _ _ _ (the_knob_Some _ _ _ Ho)).
      - destruct (nodes σ !! n) as [o|] eqn:Ho; [|done]. injection Hh as <-.
        by rewrite (bind_Return _ _ _ _ _ (the_node_Some _ _ _ Ho)).
      - destruct (headers σ !! hd) as [o|] eqn:Ho; [|done]. injection Hh as <-.
        by rewrite (bind_Return _ _ _ _ _ (the_header_Some _ _ _ Ho)). }
    rewrite (bind_Return _ _ _ _ _ Hi).
    by rewrite (bind_Return _ _ _ _ _ (IH _ _ Hhs0)).
Qed.

(** [knob.setParentItem(node)] returns for every knob of the store. *)
Lemma Item_setParentItem_knob_total k n σ ok :
  knobs σ !! k = Some ok →
  ∃ σ2, Item_setParentItem (IKnob k) n σ = (Return tt, σ2).
Proof.
  intros Hk. unfold Item_setParentItem. simpl.
  rewrite (bind_Return _ _ _ _ _
             (bind_Return _ _ _ _ _ (the_knob_Some _ _ _ Hk))).
  case_bool_decide; [by eexists|].
  unfold update_node, update_knob.
  assert (∃ σa, match Knob_parentItem ok with
                | Some p => modify (set_nodes (alter (λ o, Node_with_childItems
                              (filter (λ c, c ≠ IKnob k) (Node_childItems o)) o) p))
                | None => ret tt
                end σ = (Return tt, σa)) as (σa & Hua).
  { destruct (Knob_parentItem ok); by eexists. }
  rewrite (bind_Return _ _ _ _ _ Hua), !bind_modify.
  rewrite (bind_Return _ _ _ _ _ (Item_scene_eq _ _)).
  destruct (bool_decide _); by eexists.
Qed.

(** X4. [addKnob] on a node that has no header yet raises
    [AttributeError], and not before it has changed the knob: the node
    is its parent by then, the node's margin has replaced its own, and
    it is among the node's children. Neither the node's size nor the
    knob's position has been set. *)
Theorem addKnob_without_header dm σ n k nd ok hs :
  nodes σ !! n = Some nd →
  Node_header nd = None →
  knobs σ !! k = Some ok →
  mapM (Item_height σ) (Node_childItems nd) = Some hs →
  ∃ σ',
    Node_addKnob dm n k σ = (Raise AttributeError, σ') ∧
    knobs σ' !! k
    = Some (Knob_with_margin (PInt (Node_margin nd))
              (Knob_with_parentItem (Some n) ok)) ∧
    nodes σ' !! n
    = Some (Node_with_childItems
              (children_with k n (Knob_parentItem ok) (Node_childItems nd)) nd).
Proof.
  intros Hn Hh Hk Hhs. unfold Node_addKnob.
  rewrite (bind_Return _ _ _ _ _ (the_node_Some _ _ _ Hn)).
  rewrite (bind_Return _ _ _ _ _ (heights_of_eq _ _ _ Hhs)).
  destruct (Item_setParentItem_knob_total k n σ ok Hk) as [σ2 Hsp].
  rewrite (bind_Return _ _ _ _ _ Hsp).
  destruct (Item_setParentItem_knob_inv _ _ _ _ _ Hsp Hn)
    as (ok0 & Hk0 & Hk2 & Hn2 & _).
  rewrite Hk in Hk0. injection Hk0 as <-.
  unfold update_knob. rewrite bind_modify.
  set (σ3 := set_knobs _ σ2).
  assert (nodes σ3 !! n = Some (Node_with_childItems
            (children_with k n (Knob_parentItem ok) (Node_childItems nd)) nd))
    as Hn3 by exact Hn2.
  assert (knobs σ3 !! k = Some (Knob_with_margin (PInt (Node_margin nd))
            (Knob_with_parentItem (Some n) ok))) as Hk3.
  { unfold σ3. simpl. rewrite Hk2, lookup_alter_eq, lookup_insert_eq. done. }
  clearbody σ3. exists σ3. split; [|done].
  apply bind_Raise. unfold Node_updateSizeForChildren. apply bind_Raise.
  unfold adjustWidth.
  rewrite (bind_Return _ _ _ _ _ (the_node_Some _ _ _ Hn3)).
  apply bind_Raise. unfold Node_the_header. simpl. by rewrite Hh.
Qed.

Lemma addKnob_without_header_witness :
  ∃ σ',
    Node_addKnob fixed_pitch 1 1 bare_node_and_knob = (Raise AttributeError, σ') ∧
    knobs σ' !! 1%positive
    = Some (Knob_with_margin (PInt (Node_margin Node_attrs))
              (Knob_with_parentItem (Some 1%positive) (InputKnob_attrs no_kwargs))) ∧
    nodes σ' !! 1%positive
    = Some (Node_with_childItems
              (children_with 1 1 (Knob_parentItem (InputKnob_attrs no_kwargs))
                 (Node_childItems Node_attrs)) Node_attrs).
Proof.
  apply (addKnob_without_header fixed_pitch bare_node_and_knob 1 1
           Node_attrs (InputKnob_attrs no_kwargs) []);
    vm_compute; reflexivity.
Defined.

(** X5. A knob follows the node it is added to: after [addKnob] on a
    node that is in the scene the knob is in the scene, and after
    [addKnob] on a node that is not, a knob that was not this node's
    child is not in the scene either, wherever it was before. *)
Theorem addKnob_follows_node_into_scene dm σ n k σ' :
  Node_addKnob dm n k σ = (Return tt, σ') →
  ∃ ok,
    knobs σ !! k = Some ok ∧
    (Knob_parentItem ok ≠ Some n →
     (IKnob k ∈ scene_items σ' ↔ INode n ∈ scene_items σ)) ∧
    (Knob_parentItem ok = Some n →
     INode n ∈ scene_items σ → IKnob k ∈ scene_items σ → IKnob k ∈ scene_items σ').
Proof.
  intros (nd & h & hd & ok & hs & Hn & Hh & Hhd & Hk & Hhs & Hrest)%Node_addKnob_inv.
  cbv zeta in Hrest. destruct Hrest as (_ & _ & _ & _ & Hin & Hout).
  exists ok. split; [done|]. split.
  - intros Hne. split.
    + intros Hk'. destruct (decide (INode n ∈ scene_items σ)) as [|Hno]; [done|].
      by destruct (Hout Hno Hne).
    + intros Hin'. apply Hin; [done|by right].
  - intros _ Hn' Hk'. apply Hin; [done|by left].
Qed.

Lemma addKnob_follows_node_into_scene_witness :
  ∃ ok,
    knobs multiply_before_value !! 3%positive = Some ok ∧
    (Knob_parentItem ok ≠ Some 1%positive →
     (IKnob 3 ∈ scene_items one_multiply ↔ INode 1 ∈ scene_items multiply_before_value)) ∧
    (Knob_parentItem ok = Some 1%positive →
     INode 1 ∈ scene_items multiply_before_value →
     IKnob 3 ∈ scene_items multiply_before_value →
     IKnob 3 ∈ scene_items one_multiply).
Proof.
  apply (addKnob_follows_node_into_scene fixed_pitch multiply_before_value 1 3).
  vm_compute. reflexivity.
Defined.

(** ** Looking a knob up by its label *)

Lemma first_knob_named_inv name items : ∀ σ r σ',
  first_knob_named name items σ = (Return r, σ') →
  σ' = σ ∧
  match r with
  | Some k =>
      ∃ before after o,
        items = (before ++ IKnob k :: after)%list ∧
        knobs σ !! k = Some o ∧
        Knob_labelText o = name ∧
        knobs_live σ before ∧
        Forall (λ o', Knob_labelText o' ≠ name) (knobs_in σ before)
  | None =>
      knobs_live σ items ∧
      Forall (λ o, Knob_labelText o ≠ name) (knobs_in σ items)
  end.
Proof.
  induction items as [|i items IH]; intros σ r σ' Hrun; simpl in Hrun.
  { injection Hrun as <- <-. split; [done|]. split; constructor. }
  assert (∀ r, first_knob_named name items σ = (Return r, σ') →
               (∀ k, i ≠ IKnob k) →
               σ' = σ ∧
               match r with
               | Some k =>
                   ∃ before after o,
                     (i :: items = before ++ IKnob k :: after)%list ∧
                     knobs σ !! k = Some o ∧ Knob_labelText o = name ∧
                     knobs_live σ before ∧
                     Forall (λ o', Knob_labelText o' ≠ name) (knobs_in σ before)
               | None =>
                   knobs_live σ (i :: items) ∧
                   Forall (λ o, Knob_labelText o ≠ name) (knobs_in σ (i :: items))
               end) as Hskip.
  { intros r0 Hr Hi. apply IH in Hr as [-> Hr]. split; [done|].
    assert (knobs_in σ (i :: items) = knobs_in σ items) as Hsame.
    { rewrite knobs_in_cons. destruct i; try done. by destruct (Hi k). }
    destruct r0 as [k|].
    - destruct Hr as (before & after & o & -> & Ho & Hl & Hlive & Hb).
      exists (i :: before), after, o. split_and!; try done.
      + constructor; [|done]. destruct i; try done. by destruct (Hi k0).
      + assert (knobs_in σ (i :: before) = knobs_in σ before) as ->; [|done].
        rewrite knobs_in_cons. destruct i; try done. by destruct (Hi k0).
    - destruct Hr as [Hlive Hr]. rewrite Hsame. split; [|done].
      constructor; [|done]. destruct i; try done. by destruct (Hi k). }
  destruct i as [k|e|n|h]; try (apply Hskip; done).
  clear Hskip.
  apply bind_inv in Hrun as (o & ? & [Ho ->]%the_knob_inv & Hrun).
  case_bool_decide as Hl.
  - injection Hrun as <- <-. split; [done|].
    exists [], items, o. split_and!; try done; constructor.
  - apply IH in Hrun as [-> Hr]. split; [done|].
    destruct r as [k'|].
    + destruct Hr as (before & after & o' & -> & Ho' & Hl' & Hlive & Hb).
      exists (IKnob k :: before), after, o'. split_and!; try done.
      * constructor; [by eexists|done].
      * rewrite knobs_in_cons, Ho. by constructor.
    + destruct Hr as [Hlive Hr]. split.
      * constructor; [by eexists|done].
      * rewrite knobs_in_cons, Ho. by constructor.
Qed.

Lemma first_knob_named_found name σ k o after : ∀ before,
  knobs_live σ before →
  Forall (λ o', Knob_labelText o' ≠ name) (knobs_in σ before) →
  knobs σ !! k = Some o →
  Knob_labelText o = name →
  first_knob_named name (before ++ IKnob k :: after) σ = (Return (Some k), σ).
Proof.
  induction before as [|i before IH]; intros Hlive Hb Ho Hl; simpl.
  - rewrite (bind_Return _ _ _ _ _ (the_knob_Some _ _ _ Ho)).
    by rewrite bool_decide_eq_true_2.
  - apply Forall_cons in Hlive as [Hi Hlive].
    rewrite knobs_in_cons in Hb.
    destruct i as [k'|e|n|h]; try (by apply IH).
    destruct Hi as [o' Ho']. rewrite Ho' in Hb.
    apply Forall_cons in Hb as [Hl' Hb].
    rewrite (bind_Return _ _ _ _ _ (the_knob_Some _ _ _ Ho')).
    rewrite bool_decide_eq_false_2 by done. by apply IH.
Qed.

Lemma first_knob_named_none name σ : ∀ items,
  knobs_live σ items →
  Forall (λ o', Knob_labelText o' ≠ name) (knobs_in σ items) →
  first_knob_named name items σ = (Return None, σ).
Proof.
  induction items as [|i items IH]; intros Hlive Hb; simpl; [done|].
  apply Forall_cons in Hlive as [Hi Hlive].
  rewrite knobs_in_cons in Hb.
  destruct i as [k'|e|n|h]; try (by apply IH).
  destruct Hi as [o' Ho']. rewrite Ho' in Hb.
  apply Forall_cons in Hb as [Hl' Hb].
  rewrite (bind_Return _ _ _ _ _ (the_knob_Some _ _ _ Ho')).
  rewrite bool_decide_eq_false_2 by done. by apply IH.
Qed.

(** X6. [Node.knob(name)] changes nothing and, when it returns a knob,
    returns a child of the node whose label is [name] and before which
    no knob among the children has that label; when it returns [None],
    no knob among the node's children has that label. *)
Theorem Node_knob_first_match n name σ r σ' :
  Node_knob n name σ = (Return r, σ') →
  σ' = σ ∧
  ∃ nd,
    nodes σ !! n = Some nd ∧
    match r with
    | Some k =>
        ∃ before after o,
          Node_childItems nd = (before ++ IKnob k :: after)%list ∧
          knobs σ !! k = Some o ∧
          Knob_labelText o = name ∧
          Forall (λ o', Knob_labelText o' ≠ name) (knobs_in σ before)
    | None => Forall (λ o, Knob_labelText o ≠ name) (Node_knobs σ nd)
    end.
Proof.
  unfold Node_knob. intros Hrun.
  apply bind_inv in Hrun as (nd & ? & [Hn ->]%the_node_inv & Hrun).
  apply first_knob_named_inv in Hrun as [-> Hr].
  split; [done|]. exists nd. split; [done|].
  destruct r as [k|].
  - destruct Hr as (before & after & o & ? & ? & ? & _ & ?).
    by exists before, after, o.
  - by destruct Hr.
Qed.

Lemma Node_knob_first_match_witness :
  one_multiply = one_multiply ∧
  ∃ nd,
    nodes one_multiply !! 1%positive = Some nd ∧
    ∃ before after o,
      Node_childItems nd = (before ++ IKnob 2 :: after)%list ∧
      knobs one_multiply !! 2%positive = Some o ∧
      Knob_labelText o = "y" ∧
      Forall (λ o', Knob_labelText o' ≠ "y") (knobs_in one_multiply before).
Proof.
  apply (Node_knob_first_match 1 "y" one_multiply (Some 2%positive) one_multiply).
  vm_compute. reflexivity.
Defined.

Lemma Knob_added_labelText n nd hd hs w o :
  Knob_labelText (Knob_added n nd hd hs w o) = Knob_labelText o.
Proof. unfold Knob_added. by destruct (Knob_class o). Qed.

Lemma knobs_live_inserted σ σ' k o items :
  knobs σ' = <[k := o]> (knobs σ) → knobs_live σ items → knobs_live σ' items.
Proof.
  intros Hk Hlive. eapply Forall_impl; [exact Hlive|].
  intros [k'| | |]; try done.
  rewrite Hk. destruct (decide (k = k')) as [<-|Hne].
  - rewrite lookup_insert_eq. by eexists.
  - by rewrite lookup_insert_ne.
Qed.

(** After [addKnob] the labels are those of before, and the children
    of the node are those of before with the knob appended or not. *)
Lemma Node_addKnob_labels dm n k σ σ' :
  Node_addKnob dm n k σ = (Return tt, σ') →
  ∃ nd ok nd',
    nodes σ !! n = Some nd ∧
    knobs σ !! k = Some ok ∧
    nodes σ' !! n = Some nd' ∧
    Node_childItems nd' = children_with k n (Knob_parentItem ok) (Node_childItems nd) ∧
    (∀ items, knobs_live σ items → knobs_live σ' items) ∧
    (∀ k', Knob_labelText <$> knobs σ' !! k' = Knob_labelText <$> knobs σ !! k').
Proof.
  intros (nd & h & hd & ok & hs & Hn & Hh & Hhd & Hk & Hhs & Hrest)%Node_addKnob_inv.
  cbv zeta in Hrest. destruct Hrest as (Hk' & Hn' & _).
  eexists nd, ok, _. split_and!; [done|done|exact Hn'|done| |].
  - intros items. by apply (knobs_live_inserted _ _ _ _ _ Hk').
  - intros k'. rewrite Hk'. destruct (decide (k = k')) as [<-|Hne].
    + rewrite lookup_insert_eq, Hk. simpl. by rewrite Knob_added_labelText.
    + by rewrite lookup_insert_ne.
Qed.

Lemma Forall_label_ext name σ σ' items :
  (∀ k, Knob_labelText <$> knobs σ' !! k = Knob_labelText <$> knobs σ !! k) →
  Forall (λ o, Knob_labelText o ≠ name) (knobs_in σ items) →
  Forall (λ o, Knob_labelText o ≠ name) (knobs_in σ' items).
Proof.
  intros Hl. induction items as [|i items IH]; [done|].
  rewrite !knobs_in_cons. destruct i as [k| | |]; try done.
  specialize (Hl k).
  destruct (knobs σ !! k) as [o|], (knobs σ' !! k) as [o'|]; try done.
  intros [Ho Hf]%Forall_cons. injection Hl as Hl.
  constructor; [congruence|by apply IH].
Qed.

(** The children whose heights [addKnob] could read are in the store. *)
Lemma heights_knobs_live σ items hs :
  mapM (Item_height σ) items = Some hs → knobs_live σ items.
Proof.
  revert hs. induction items as [|i items IH]; intros hs Hhs; [constructor|].
  simpl in Hhs.
  destruct (Item_height σ i) as [h|] eqn:Hh; [|done]. simpl in Hhs.
  destruct (mapM (Item_height σ) items) as [hs0|] eqn:Hhs0; [|done].
  constructor; [|by eapply IH].
  destruct i as [k| | |]; try done. simpl in Hh.
  by destruct (knobs σ !! k).
Qed.

(** X7. A knob added to a node is found by its label: when no knob of
    the node has the label of the new knob, [node.knob(label)] returns
    the new knob after [addKnob]. *)
Theorem knob_finds_added_knob dm σ n k σ' nd ok :
  Node_addKnob dm n k σ = (Return tt, σ') →
  nodes σ !! n = Some nd →
  knobs σ !! k = Some ok →
  Knob_parentItem ok ≠ Some n →
  Forall (λ o, Knob_labelText o ≠ Knob_labelText ok) (Node_knobs σ nd) →
  Node_knob n (Knob_labelText ok) σ' = (Return (Some k), σ').
Proof.
  intros Hrun Hn Hk Hpar Hnew.
  pose proof (Node_addKnob_inv _ _ _ _ _ Hrun)
    as (nd0 & h & hd & ok0 & hs & Hn0 & _ & _ & Hk0 & Hhs & _).
  rewrite Hn in Hn0. injection Hn0 as <-.
  destruct (Node_addKnob_labels _ _ _ _ _ Hrun)
    as (nd1 & ok1 & nd' & Hn1 & Hk1 & Hn' & Hch & Hlive & Hlab).
  rewrite Hn in Hn1. injection Hn1 as <-.
  rewrite Hk in Hk1. injection Hk1 as <-.
  unfold children_with in Hch. rewrite bool_decide_eq_false_2 in Hch by done.
  unfold Node_knob.
  rewrite (bind_Return _ _ _ _ _ (the_node_Some _ _ _ Hn')), Hch.
  pose proof (Hlab k) as Hlk. rewrite Hk in Hlk.
  destruct (knobs σ' !! k) as [ok'|] eqn:Hk'; [|done]. injection Hlk as Hlk.
  apply (first_knob_named_found _ _ _ ok').
  - apply Hlive. by eapply heights_knobs_live.
  - by apply (Forall_label_ext _ σ).
  - done.
  - done.
Qed.

Lemma knob_finds_added_knob_witness :
  Node_knob 1 (Knob_labelText
                 (OutputKnob_attrs
                    (mkKwargs None None None None None None (Some "value") None None)))
    one_multiply
  = (Return (Some 3%positive), one_multiply).
Proof.
  eapply (knob_finds_added_knob fixed_pitch multiply_before_value 1 3 one_multiply).
  - vm_compute. reflexivity.
  - vm_compute. reflexivity.
  - vm_compute. reflexivity.
  - discriminate.
  - by_compute.
Defined.

(** X8. Adding a knob to a node never changes which knob a label
    resolves to: what [node.knob(name)] returned before [addKnob] it
    returns after it, so that of two knobs with one label the first
    added is the one found. *)
Theorem addKnob_keeps_lookups dm σ n k σ' name k0 :
  Node_addKnob dm n k σ = (Return tt, σ') →
  Node_knob n name σ = (Return (Some k0), σ) →
  Node_knob n name σ' = (Return (Some k0), σ').
Proof.
  intros Hrun Hfind.
  destruct (Node_addKnob_labels _ _ _ _ _ Hrun)
    as (nd & ok & nd' & Hn & Hk & Hn' & Hch & Hlive & Hlab).
  unfold Node_knob in *.
  rewrite (bind_Return _ _ _ _ _ (the_node_Some _ _ _ Hn)) in Hfind.
  apply first_knob_named_inv in Hfind
    as [_ (before & after & o & Hitems & Ho & Hl & Hlb & Hb)].
  rewrite (bind_Return _ _ _ _ _ (the_node_Some _ _ _ Hn')), Hch.
  pose proof (Hlab k0) as Hl0. rewrite Ho in Hl0.
  destruct (knobs σ' !! k0) as [o'|] eqn:Ho'; [|done]. injection Hl0 as Hl0.
  assert (∃ after', children_with k n (Knob_parentItem ok) (Node_childItems nd)
                    = (before ++ IKnob k0 :: after')%list) as [after' ->].
  { unfold children_with. rewrite Hitems. case_bool_decide.
    - by eexists.
    - exists (after ++ [IKnob k])%list. by rewrite <- app_assoc. }
  apply (first_knob_named_found _ _ _ o').
  - by apply Hlive.
  - by apply (Forall_label_ext _ σ).
  - done.
  - congruence.
Qed.

Lemma addKnob_keeps_lookups_witness :
  Node_knob 1 "x" one_multiply = (Return (Some 1%positive), one_multiply).
Proof.
  apply (addKnob_keeps_lookups fixed_pitch multiply_before_value 1 3).
  - vm_compute. reflexivity.
  - vm_compute. reflexivity.
Defined.

(** ** Knobs: the highlight *)

Lemma Knob_highlight_on σ k o :
  knobs σ !! k = Some o →
  Knob_highlight k true σ
  = (Return tt,
     set_knobs (insert k (Knob_with_fillColor (QColor 255 255 0)
                            (Some (Knob_fillColor o)) o)) σ).
Proof.
  intros Hk. unfold Knob_highlight.
  rewrite (bind_Return _ _ _ _ _ (the_knob_Some _ _ _ Hk)).
  by rewrite (update_knob_Some _ _ _ _ Hk).
Qed.

Lemma Knob_highlight_off σ k o c :
  knobs σ !! k = Some o →
  Knob_oldFillColor o = Some c →
  Knob_highlight k false σ
  = (Return tt, set_knobs (insert k (Knob_with_fillColor c (Some c) o)) σ).
Proof.
  intros Hk Hc. unfold Knob_highlight.
  rewrite (bind_Return _ _ _ _ _ (the_knob_Some _ _ _ Hk)), Hc.
  by rewrite (update_knob_Some _ _ _ _ Hk).
Qed.

Lemma set_knobs_insert_insert σ k (x y : Knob) :
  set_knobs (insert k x) (set_knobs (insert k y) σ) = set_knobs (insert k x) σ.
Proof. apply State_eq; try done. simpl. by rewrite insert_insert_eq. Qed.

(** X9. Hovering over a knob and leaving it again restores its fill
    colour: after [hoverEnterEvent] the knob is yellow, and after the
    [hoverLeaveEvent] that follows the store is what it was, but for
    the colour the knob remembers. *)
Theorem hover_restores_fillColor σ k o :
  knobs σ !! k = Some o →
  ∃ σ1 o1,
    Knob_hoverEnterEvent k σ = (Return tt, σ1) ∧
    knobs σ1 !! k = Some o1 ∧
    Knob_fillColor o1 = QColor 255 255 0 ∧
    Knob_hoverLeaveEvent k σ1
    = (Return tt,
       set_knobs (insert k (Knob_with_fillColor (Knob_fillColor o)
                              (Some (Knob_fillColor o)) o)) σ).
Proof.
  intros Hk. unfold Knob_hoverEnterEvent, Knob_hoverLeaveEvent.
  eexists _, _. split_and!.
  - by apply Knob_highlight_on.
  - simpl. apply lookup_insert_eq.
  - done.
  - erewrite Knob_highlight_off; [|simpl; apply lookup_insert_eq|done].
    by rewrite set_knobs_insert_insert.
Qed.

Lemma hover_restores_fillColor_witness :
  ∃ σ1 o1,
    Knob_hoverEnterEvent 1 two_nodes = (Return tt, σ1) ∧
    knobs σ1 !! 1%positive = Some o1 ∧
    Knob_fillColor o1 = QColor 255 255 0 ∧
    Knob_hoverLeaveEvent 1 σ1
    = (Return tt,
       set_knobs
         (insert 1%positive
            (Knob_with_fillColor (QColor 230 130 130) (Some (QColor 230 130 130))
               (Knob_added 1 Node_attrs (Header_attrs 1 "Int") [20] 57
                  (OutputKnob_attrs
                     (mkKwargs None None None None None None (Some "value")
                        None None))))) two_nodes).
Proof.
  apply (hover_restores_fillColor two_nodes 1
           (Knob_added 1 Node_attrs (Header_attrs 1 "Int") [20] 57
              (OutputKnob_attrs
                 (mkKwargs None None None None None None (Some "value") None None)))).
  vm_compute. reflexivity.
Defined.

(** X10. A knob that was never highlighted has no colour to go back
    to: [highlight(False)], and so a [hoverLeaveEvent] that no
    [hoverEnterEvent] preceded, raises [AttributeError] and changes
    nothing. Every newly constructed knob is in that case. *)
Theorem leave_before_enter_raises cls kwargs σ :
  ∃ k σ1,
    Knob_init cls kwargs σ = (Return k, σ1) ∧
    Knob_hoverLeaveEvent k σ1 = (Raise AttributeError, σ1) ∧
    Knob_highlight k false σ1 = (Raise AttributeError, σ1).
Proof.
  eexists _, _. split; [apply Knob_init_eq|].
  unfold Knob_hoverLeaveEvent, Knob_highlight.
  erewrite bind_Return
    by (apply the_knob_Some; simpl; apply lookup_insert_eq).
  by destruct cls.
Qed.

(** The store of a knob whose highlight has been switched on twice in
    a row: it is yellow and the colour it remembers is yellow. *)
Lemma Knob_highlight_stuck σ k o toggle :
  knobs σ !! k = Some o →
  Knob_fillColor o = QColor 255 255 0 →
  Knob_oldFillColor o = Some (QColor 255 255 0) →
  Knob_highlight k toggle σ = (Return tt, σ).
Proof.
  intros Hk Hf Hold. destruct toggle.
  - rewrite (Knob_highlight_on _ _ _ Hk). f_equal.
    apply State_eq; try done. simpl. apply insert_id.
    rewrite Hk. f_equal. destruct o; simpl in *. by subst.
  - rewrite (Knob_highlight_off _ _ _ _ Hk Hold). f_equal.
    apply State_eq; try done. simpl. apply insert_id.
    rewrite Hk. f_equal. destruct o; simpl in *. by subst.
Qed.

(** X11. [highlight(True)] twice in a row loses the knob's colour for
    good: the second call remembers the highlight colour, and whatever
    calls of [highlight] follow, the knob stays yellow. *)
Theorem double_highlight_loses_fillColor σ k o toggles :
  knobs σ !! k = Some o →
  ∃ σ' o',
    (Knob_highlight k true ;; Knob_highlight k true ;;
     for_each toggles (Knob_highlight k)) σ = (Return tt, σ') ∧
    knobs σ' !! k = Some o' ∧
    Knob_fillColor o' = QColor 255 255 0 ∧
    Knob_oldFillColor o' = Some (QColor 255 255 0).
Proof.
  intros Hk.
  rewrite (bind_Return _ _ _ _ _ (Knob_highlight_on _ _ _ Hk)).
  erewrite bind_Return
    by (apply Knob_highlight_on; simpl; apply lookup_insert_eq).
  rewrite set_knobs_insert_insert.
  set (σ2 := set_knobs _ σ).
  assert (∃ o2, knobs σ2 !! k = Some o2 ∧ Knob_fillColor o2 = QColor 255 255 0 ∧
                Knob_oldFillColor o2 = Some (QColor 255 255 0))
    as (o2 & Hk2 & Hf2 & Hold2).
  { eexists. split; [simpl; apply lookup_insert_eq|done]. }
  clearbody σ2. exists σ2, o2. split; [|done].
  induction toggles as [|t toggles IH]; [done|].
  simpl. by rewrite (bind_Return _ _ _ _ _ (Knob_highlight_stuck _ _ _ t Hk2 Hf2 Hold2)).
Qed.

Lemma double_highlight_loses_fillColor_witness :
  ∃ σ' o',
    (Knob_highlight 1 true ;; Knob_highlight 1 true ;;
     for_each [false; false; true; false] (Knob_highlight 1)) two_nodes
    = (Return tt, σ') ∧
    knobs σ' !! 1%positive = Some o' ∧
    Knob_fillColor o' = QColor 255 255 0 ∧
    Knob_oldFillColor o' = Some (QColor 255 255 0).
Proof.
  apply (double_highlight_loses_fillColor two_nodes 1
           (Knob_added 1 Node_attrs (Header_attrs 1 "Int") [20] 57
              (OutputKnob_attrs
                 (mkKwargs None None None None None None (Some "value") None None)))).
  vm_compute. reflexivity.
Defined.

(** ** Knobs: the edge set and the scene *)

(** X12. Adding an edge to a knob and removing it again is a round
    trip: for a knob in the scene and an edge that neither the knob nor
    the scene has, [addEdge] followed by [removeEdge] returns and
    leaves the store as it was. *)
Theorem addEdge_removeEdge_round_trip σ k o edge :
  knobs σ !! k = Some o →
  IKnob k ∈ scene_items σ →
  edge ∉ Knob_edges o →
  edge ∉ scene_items σ →
  (Knob_addEdge k edge ;; Knob_removeEdge k edge) σ = (Return tt, σ).
Proof.
  intros Hk Hs He Hes.
  rewrite (bind_Return _ _ _ _ _ (Knob_addEdge_eq _ _ _ _ Hk Hs)).
  erewrite Knob_removeEdge_eq; cycle 1.
  - simpl. apply lookup_insert_eq.
  - simpl. set_solver.
  - simpl. set_solver.
  - f_equal. apply State_eq; try done; simpl.
    + rewrite insert_insert_eq. apply insert_id. rewrite Hk. f_equal.
      symmetry. by apply (Knob_add_remove edge o).
    + set_solver.
Qed.

Lemma addEdge_removeEdge_round_trip_witness :
  (Knob_addEdge 1 (IEdge 7) ;; Knob_removeEdge 1 (IEdge 7)) two_nodes
  = (Return tt, two_nodes).
Proof.
  apply (addEdge_removeEdge_round_trip two_nodes 1
           (Knob_added 1 Node_attrs (Header_attrs 1 "Int") [20] 57
              (OutputKnob_attrs
                 (mkKwargs None None None None None None (Some "value") None None)))).
  - vm_compute. reflexivity.
  - by_compute.
  - by_compute.
  - by_compute.
Defined.

(** X13. [removeEdge] undoes a connection on one side only. After
    [a.connectTo(b)], removing the new edge from [a] takes it out of
    [a]'s set and out of the scene; it stays in [b]'s set, and the
    edge object still names [a] and [b] as its knobs. *)
Theorem removeEdge_is_one_sided σ a b :
  a ≠ b →
  closed σ →
  a ∈ dom (knobs σ) → b ∈ dom (knobs σ) →
  IKnob a ∈ scene_items σ → IKnob b ∈ scene_items σ →
  ∃ e ed σ',
    (Knob_connectTo a b ;; Knob_removeEdge a (IEdge e)) σ = (Return tt, σ') ∧
    edges σ !! e = None ∧
    edges σ' !! e = Some ed ∧
    links ed a b ∧
    knobs σ' !! a = knobs σ !! a ∧
    (IEdge e ∉ edges_of σ b) ∧
    edges_of σ' b = {[IEdge e]} ∪ edges_of σ b ∧
    scene_items σ' = scene_items σ ∧
    (IEdge e ∉ scene_items σ').
Proof.
  intros Hab Hc [oa Ha]%elem_of_dom [ob Hb]%elem_of_dom Hsa Hsb.
  destruct (Knob_connectTo_eq σ a b oa ob Hab Ha Hb Hsa Hsb Hc) as (ed & Hl & Hrun).
  set (e := fresh (dom (edges σ))) in *.
  pose proof (fresh_edge_unused σ a oa Hc Ha) as Hea. fold e in Hea.
  pose proof (fresh_edge_unused σ b ob Hc Hb) as Heb. fold e in Heb.
  pose proof (fresh_edge_not_in_scene σ Hc) as Hes. fold e in Hes.
  eexists e, ed, _. split_and!.
  - rewrite (bind_Return _ _ _ _ _ Hrun).
    apply (Knob_removeEdge_eq _ a (Knob_add (IEdge e) oa)).
    + simpl. rewrite lookup_insert_ne by done. apply lookup_insert_eq.
    + simpl. set_solver.
    + simpl. set_solver.
  - apply Edge_init_fresh.
  - simpl. apply lookup_insert_eq.
  - done.
  - simpl. rewrite lookup_insert_eq, Ha. f_equal.
    by apply (Knob_add_remove (IEdge e) oa).
  - by rewrite (edges_of_Some σ _ _ Hb).
  - rewrite (edges_of_Some σ _ _ Hb). unfold edges_of. simpl.
    rewrite lookup_insert_ne by done. by rewrite lookup_insert_eq.
  - simpl. set_solver.
  - simpl. set_solver.
Qed.

Lemma removeEdge_is_one_sided_witness :
  ∃ e ed σ',
    (Knob_connectTo 1 2 ;; Knob_removeEdge 1 (IEdge e)) two_nodes = (Return tt, σ') ∧
    edges two_nodes !! e = None ∧
    edges σ' !! e = Some ed ∧
    links ed 1 2 ∧
    knobs σ' !! 1%positive = knobs two_nodes !! 1%positive ∧
    (IEdge e ∉ edges_of two_nodes 2) ∧
    edges_of σ' 2 = {[IEdge e]} ∪ edges_of two_nodes 2 ∧
    scene_items σ' = scene_items two_nodes ∧
    (IEdge e ∉ scene_items σ').
Proof.
  apply (removeEdge_is_one_sided two_nodes 1 2).
  - discriminate.
  - by_compute.
  - by_compute.
  - by_compute.
  - by_compute.
  - by_compute.
Defined.

Lemma Knob_addEdge_outside σ k o edge :
  knobs σ !! k = Some o →
  IKnob k ∉ scene_items σ →
  Knob_addEdge k edge σ
  = (Raise AttributeError, set_knobs (insert k (Knob_add edge o)) σ).
Proof.
  intros Hk Hs. unfold Knob_addEdge.
  rewrite (bind_Return _ _ _ _ _ (the_knob_Some _ _ _ Hk)).
  rewrite (bind_Return _ _ _ _ _ (update_knob_Some _ _ _ _ Hk)).
  rewrite (bind_Return _ _ _ _ _ (Item_scene_eq _ _)).
  simpl. by rewrite (bool_decide_eq_false_2 _ Hs).
Qed.

Lemma Knob_removeEdge_outside σ k o edge :
  knobs σ !! k = Some o →
  IKnob k ∉ scene_items σ →
  edge ∈ Knob_edges o →
  Knob_removeEdge k edge σ
  = (Raise AttributeError,
     set_knobs (insert k (Knob_with_edges (Knob_edges o ∖ {[edge]}) o)) σ).
Proof.
  intros Hk Hs He. unfold Knob_removeEdge.
  rewrite (bind_Return _ _ _ _ _ (the_knob_Some _ _ _ Hk)).
  rewrite (bool_decide_eq_true_2 _ He).
  rewrite (bind_Return _ _ _ _ _ (update_knob_Some _ _ _ _ Hk)).
  rewrite (bind_Return _ _ _ _ _ (Item_scene_eq _ _)).
  simpl. by rewrite (bool_decide_eq_false_2 _ Hs).
Qed.

(** X14. A knob that is in no scene cannot take or give up an edge
    without an error, and the error comes after the change: [addEdge]
    raises [AttributeError] with the edge already in the knob's set,
    and [removeEdge] of an edge of the set raises it with the edge
    already out of the set. *)
Theorem edges_of_a_knob_outside_the_scene σ k o edge :
  knobs σ !! k = Some o →
  IKnob k ∉ scene_items σ →
  Knob_addEdge k edge σ
  = (Raise AttributeError, set_knobs (insert k (Knob_add edge o)) σ) ∧
  (edge ∈ Knob_edges o →
   Knob_removeEdge k edge σ
   = (Raise AttributeError,
      set_knobs (insert k (Knob_with_edges (Knob_edges o ∖ {[edge]}) o)) σ)).
Proof.
  intros Hk Hs. split.
  - by apply Knob_addEdge_outside.
  - by apply Knob_removeEdge_outside.
Qed.

Lemma edges_of_a_knob_outside_the_scene_witness :
  Knob_addEdge 1 (IEdge 1) bare_node_and_knob
  = (Raise AttributeError,
     set_knobs (insert 1%positive (Knob_add (IEdge 1) (InputKnob_attrs no_kwargs)))
       bare_node_and_knob) ∧
  (IEdge 1 ∈ Knob_edges (InputKnob_attrs no_kwargs) →
   Knob_removeEdge 1 (IEdge 1) bare_node_and_knob
   = (Raise AttributeError,
      set_knobs
        (insert 1%positive
           (Knob_with_edges (Knob_edges (InputKnob_attrs no_kwargs) ∖ {[IEdge 1]})
              (InputKnob_attrs no_kwargs))) bare_node_and_knob)).
Proof.
  apply (edges_of_a_knob_outside_the_scene bare_node_and_knob 1).
  - vm_compute. reflexivity.
  - by_compute.
Defined.

(** X15. [connectTo] from a knob that is in no scene raises
    [AttributeError] and leaves half a connection behind: the new edge
    exists and names both knobs, it is in the set of the first knob,
    and neither the other knob nor the scene knows of it; its path was
    never computed. *)
Theorem connectTo_outside_the_scene σ a b oa :
  a ≠ b →
  knobs σ !! a = Some oa →
  IKnob a ∉ scene_items σ →
  ∃ e ed σ',
    Knob_connectTo a b σ = (Raise AttributeError, σ') ∧
    edges σ !! e = None ∧
    edges σ' = <[e := ed]> (edges σ) ∧
    links ed a b ∧
    Edge_path ed = [] ∧
    knobs σ' = <[a := Knob_add (IEdge e) oa]> (knobs σ) ∧
    scene_items σ' = scene_items σ.
Proof.
  intros Hab Ha Hs.
  exists (fresh (dom (edges σ))).
  eexists _, _. split_and!.
  - unfold Knob_connectTo. rewrite bool_decide_eq_false_2 by done.
    rewrite (bind_Return _ _ _ _ _ (Edge_init_eq σ)).
    rewrite (bind_Return _ _ _ _ _ (update_edge_inserted _ _ _ _)).
    rewrite (bind_Return _ _ _ _ _ (update_edge_inserted _ _ _ _)).
    apply bind_Raise.
    apply (Knob_addEdge_outside _ a oa); [|done].
    simpl. by rewrite Ha.
  - apply Edge_init_fresh.
  - reflexivity.
  - done.
  - done.
  - reflexivity.
  - reflexivity.
Qed.

Lemma connectTo_outside_the_scene_witness :
  ∃ e ed σ',
    Knob_connectTo 1 2 two_bare_knobs = (Raise AttributeError, σ') ∧
    edges two_bare_knobs !! e = None ∧
    edges σ' = <[e := ed]> (edges two_bare_knobs) ∧
    links ed 1 2 ∧
    Edge_path ed = [] ∧
    knobs σ' = <[1%positive := Knob_add (IEdge e) (OutputKnob_attrs no_kwargs)]>
                 (knobs two_bare_knobs) ∧
    scene_items σ' = scene_items two_bare_knobs.
Proof.
  apply (connectTo_outside_the_scene two_bare_knobs 1 2 (OutputKnob_attrs no_kwargs)).
  - discriminate.
  - vm_compute. reflexivity.
  - by_compute.
Defined.

(** ** Knobs: paint *)

Lemma Knob_paint_left_to_right dm o painter m :
  Knob_flow o = PStr FLOW_LEFT_TO_RIGHT →
  Knob_margin o = PInt m →
  Knob_paint dm o painter
  = if fits_int (QRect_right (Knob_boundingRect o) + m)
    then ((paint_rectangle o
           ++ [paint_label o (QRect_right (Knob_boundingRect o) + m)])%list,
          Return tt)
    else (paint_rectangle o, Raise OverflowError).
Proof. intros Hf Hm. unfold Knob_paint. by rewrite Hf, Hm. Qed.

Lemma Knob_paint_right_to_left dm o painter m :
  Knob_flow o = PStr FLOW_RIGHT_TO_LEFT →
  Knob_margin o = PInt m →
  Knob_paint dm o painter
  = let x := QRect_left (Knob_boundingRect o) - m
             - width (fontMetrics painter (Knob_labelText o)) in
    if fits_int x
    then ((paint_rectangle o ++ [paint_label o x])%list, Return tt)
    else (paint_rectangle o, Raise OverflowError).
Proof. intros Hf Hm. unfold Knob_paint. by rewrite Hf, Hm. Qed.

(** X16. Painting a knob that [addKnob] has added to a node never
    fails on the type of the margin, whatever margin the knob was built
    with. The label is drawn one node margin to the right of the knob
    when its flow is left to right, one node margin and the label's
    width to the left of it when its flow is right to left, provided
    that this [x] is a number [drawText] takes, one of 32 bits;
    otherwise the call raises [OverflowError] after the rectangle has
    been drawn. Any other flow raises [UnknownFlowError] after the
    rectangle has been drawn. The knob's own rectangle is in range. *)
Theorem paint_of_an_added_knob dm σ n k σ' painter ok :
  Node_addKnob dm n k σ = (Return tt, σ') →
  knobs σ !! k = Some ok →
  Knob_in_range ok →
  ∃ nd o,
    nodes σ !! n = Some nd ∧
    knobs σ' !! k = Some o ∧
    Knob_in_range o ∧
    let bbox := Knob_boundingRect o in
    let margin := Node_margin nd in
    let labelWidth := width (fontMetrics painter (Knob_labelText o)) in
    (Knob_flow o = PStr FLOW_LEFT_TO_RIGHT →
     Knob_paint dm o painter
     = if fits_int (QRect_right bbox + margin)
       then ((paint_rectangle o
              ++ [paint_label o (QRect_right bbox + margin)])%list,
             Return tt)
       else (paint_rectangle o, Raise OverflowError)) ∧
    (Knob_flow o = PStr FLOW_RIGHT_TO_LEFT →
     Knob_paint dm o painter
     = if fits_int (QRect_left bbox - margin - labelWidth)
       then ((paint_rectangle o
              ++ [paint_label o (QRect_left bbox - margin - labelWidth)])%list,
             Return tt)
       else (paint_rectangle o, Raise OverflowError)) ∧
    (Knob_flow o ≠ PStr FLOW_LEFT_TO_RIGHT →
     Knob_flow o ≠ PStr FLOW_RIGHT_TO_LEFT →
     Knob_paint dm o painter = (paint_rectangle o, Raise UnknownFlowError)).
Proof.
  intros (nd & h & hd & ok0 & hs & Hn & Hh & Hhd & Hk & Hhs & Hrest)%Node_addKnob_inv
         Hok Hrange.
  rewrite Hok in Hk. injection Hk as <-.
  cbv zeta in Hrest. destruct Hrest as (Hk' & _).
  eexists nd, _. split; [done|]. split.
  { rewrite Hk'. apply lookup_insert_eq. }
  set (o := Knob_added _ _ _ _ _ _).
  assert (Knob_margin o = PInt (Node_margin nd)) as Hm.
  { unfold o, Knob_added. by destruct (Knob_class ok). }
  assert (Knob_in_range o) as Hrange'.
  { unfold o, Knob_added, Knob_in_range. by destruct (Knob_class ok). }
  clearbody o. split; [done|]. cbv zeta. split_and!.
  - intros Hf. by apply Knob_paint_left_to_right.
  - intros Hf. by rewrite (Knob_paint_right_to_left _ _ _ _ Hf Hm).
  - intros H1 H2. unfold Knob_paint.
    by rewrite (py_eq_str_false _ _ H1), (py_eq_str_false _ _ H2).
Qed.

Lemma paint_of_an_added_knob_witness :
  ∃ nd o,
    nodes multiply_before_value !! 1%positive = Some nd ∧
    knobs one_multiply !! 3%positive = Some o ∧
    Knob_in_range o ∧
    let bbox := Knob_boundingRect o in
    let margin := Node_margin nd in
    let labelWidth := width (fontMetrics (mkQPainter fixed_pitch) (Knob_labelText o)) in
    (Knob_flow o = PStr FLOW_LEFT_TO_RIGHT →
     Knob_paint fixed_pitch o (mkQPainter fixed_pitch)
     = if fits_int (QRect_right bbox + margin)
       then ((paint_rectangle o
              ++ [paint_label o (QRect_right bbox + margin)])%list,
             Return tt)
       else (paint_rectangle o, Raise OverflowError)) ∧
    (Knob_flow o = PStr FLOW_RIGHT_TO_LEFT →
     Knob_paint fixed_pitch o (mkQPainter fixed_pitch)
     = if fits_int (QRect_left bbox - margin - labelWidth)
       then ((paint_rectangle o
              ++ [paint_label o (QRect_left bbox - margin - labelWidth)])%list,
             Return tt)
       else (paint_rectangle o, Raise OverflowError)) ∧
    (Knob_flow o ≠ PStr FLOW_LEFT_TO_RIGHT →
     Knob_flow o ≠ PStr FLOW_RIGHT_TO_LEFT →
     Knob_paint fixed_pitch o (mkQPainter fixed_pitch)
     = (paint_rectangle o, Raise UnknownFlowError)).
Proof.
  eapply (paint_of_an_added_knob fixed_pitch multiply_before_value 1 3 one_multiply).
  - vm_compute. reflexivity.
  - vm_compute. reflexivity.
  - vm_compute. repeat split; discriminate.
Defined.

(** A knob built at the far right of Qt's integers, once added to a
    node of the default margin: its label would be drawn beyond them,
    and [paint] raises [OverflowError] after the rectangle. *)
Example far_knob_paint_overflows :
  let far := exec (n <- Node_init false ;;
                   h <- Header_init n "Int" ;;
                   Node_addHeader fixed_pitch n h ;;
                   k <- Knob_init InputKnob
                          (mkKwargs (Some 2147483637) None None None None None
                                    None None None) ;;
                   Node_addKnob fixed_pitch n k) initial in
  (λ o, Knob_paint fixed_pitch o (mkQPainter fixed_pitch)) <$> knobs far !! 1%positive
  = Some ([SetPen NoPen; SetBrush (Brush (QColor 130 230 130));
           DrawRect (QRect_xywh 2147483637 0 10 10);
           SetPen (Pen (QColor 10 10 10) 1%float)], Raise OverflowError).
Proof. vm_compute. reflexivity. Qed.

(** The label of the output knob of the [Multiply] node is drawn to
    the left of the knob: at 0 - 6 - 35. *)
Example Multiply_output_label :
  (λ o, Knob_paint fixed_pitch o (mkQPainter fixed_pitch))
    <$> knobs one_multiply !! 3%positive
  = Some ([SetPen NoPen; SetBrush (Brush (QColor 230 130 130));
           DrawRect (QRect_xywh 0 0 10 10); SetPen (Pen (QColor 10 10 10) 1%float);
           DrawText (PInt (-41)) 9 "value"], Return tt).
Proof. vm_compute. reflexivity. Qed.

(** X17. A [Knob] or an [InputKnob] built with the name of a flow for
    [margin] keyword has that flow, and a string for margin: painting it
    raises [TypeError], until [addKnob] gives it a node's margin. *)
Theorem flow_name_as_margin_breaks_paint dm cls kwargs flow painter :
  cls ≠ OutputKnob →
  kw_margin kwargs = Some (PStr flow) →
  flow = FLOW_LEFT_TO_RIGHT ∨ flow = FLOW_RIGHT_TO_LEFT →
  let o := Knob_new_attrs cls kwargs in
  Knob_flow o = PStr flow ∧
  Knob_margin o = PStr flow ∧
  Knob_paint dm o painter = (paint_rectangle o, Raise TypeError).
Proof.
  intros Hcls Hm Hflow o.
  assert (Knob_flow o = PStr flow ∧ Knob_margin o = PStr flow) as [Hf Hmg].
  { unfold o. destruct cls; [| |done]; simpl; unfold Knob_attrs; simpl;
      by rewrite Hm. }
  split_and!; [done..|].
  unfold Knob_paint. rewrite Hf, Hmg.
  by destruct Hflow as [-> | ->].
Qed.

Lemma flow_name_as_margin_breaks_paint_witness :
  let o := Knob_new_attrs InputKnob
             (mkKwargs None None None None (Some (PStr FLOW_RIGHT_TO_LEFT))
                None None None None) in
  Knob_flow o = PStr FLOW_RIGHT_TO_LEFT ∧
  Knob_margin o = PStr FLOW_RIGHT_TO_LEFT ∧
  Knob_paint fixed_pitch o (mkQPainter fixed_pitch)
  = (paint_rectangle o, Raise TypeError).
Proof.
  apply (flow_name_as_margin_breaks_paint fixed_pitch InputKnob
           (mkKwargs None None None None (Some (PStr FLOW_RIGHT_TO_LEFT))
              None None None None) FLOW_RIGHT_TO_LEFT (mkQPainter fixed_pitch)).
  - discriminate.
  - reflexivity.
  - by right.
Defined.

(** ** The gesture, step by step *)

(** X18. With no gesture under way the filter lets every event through
    untouched, but for a press of the left button on a knob: for any
    other event, and for any sequence of such events, the store is
    afterwards what it was, and nothing has been printed. *)
Theorem idle_filter_changes_nothing σ evs :
  Idle σ →
  Forall (λ ev, ¬ starts_gesture ev) evs →
  deliver evs σ = (Return tt, σ) ∧
  Forall (λ ev, eventFilter ev σ = (Return false, σ)) evs.
Proof.
  intros Hidle Hevs.
  assert (Forall (λ ev, eventFilter ev σ = (Return false, σ)) evs) as Hall.
  { eapply Forall_impl; [exact Hevs|]. intros ev Hno.
    unfold eventFilter.
    destruct (event_type ev) eqn:Hty.
    - destruct (event_scenePos ev) as [p|] eqn:Hp; [|done].
      destruct (itemAt (event_items ev)) as [[a| | |]|] eqn:Hit; try done.
      case_bool_decide as Hbtn; [|done].
      destruct Hno. split_and!; [done|done|by rewrite Hp|by exists a].
    - unfold bind at 1. unfold bind at 1.
      by rewrite get_eq, Hidle, lookup_empty.
    - unfold bind at 1. unfold bind at 1.
      by rewrite get_eq, Hidle, lookup_empty.
    - done. }
  split; [|done].
  induction Hall as [|ev evs Hev _ IH]; [done|].
  rewrite (deliver_cons _ _ _ _ _ Hev). apply IH.
  by apply Forall_cons in Hevs as [_ ?].
Qed.

Lemma idle_filter_changes_nothing_witness :
  deliver [move_away; right_press_knob1; release_knob2] two_nodes
  = (Return tt, two_nodes) ∧
  Forall (λ ev, eventFilter ev two_nodes = (Return false, two_nodes))
         [move_away; right_press_knob1; release_knob2].
Proof.
  apply (idle_filter_changes_nothing two_nodes
           [move_away; right_press_knob1; release_knob2]).
  - reflexivity.
  - repeat constructor; intros (? & ? & _); discriminate.
Defined.





(** A press beside the centre of the integer's output knob draws the
    curve from the centre, (53, 30), to the pointer; a press on the
    centre leaves a path that is only the [moveTo]. *)
Example press_beside_the_centre :
  curve_drawn (mkQPointF 53 30) (mkQPointF 55 32) ∧
  Edge_path <$> edges (exec (eventFilter press_beside_knob1) two_nodes) !! 1%positive
  = Some (curve_between (mkQPointF 53 30) (mkQPointF 55 32)).
Proof. split; [|vm_compute; reflexivity]. repeat split; vm_compute; reflexivity. Qed.

Example press_on_the_centre :
  Edge_path <$> edges two_nodes_pressed !! 1%positive = Some [MoveTo (mkQPointF 53 30)].
Proof. vm_compute. reflexivity. Qed.



(** The draft of the pressed pair after the pointer has moved away to
    (20, 80): the curve is drawn, the bare [moveTo] the press left
    gives way to it, and the path is the curve from (53, 30). *)
Example draft_follows_the_pointer :
  curve_drawn (mkQPointF 53 30) (mkQPointF 20 80) ∧
  gives_way [MoveTo (mkQPointF 53 30)]
            (curve_between (mkQPointF 53 30) (mkQPointF 20 80)) ∧
  Edge_path <$> edges (exec (eventFilter move_away) two_nodes_pressed) !! 1%positive
  = Some (curve_between (mkQPointF 53 30) (mkQPointF 20 80)).
Proof.
  split_and!.
  - repeat split; vm_compute; reflexivity.
  - right. left. vm_compute. discriminate.
  - vm_compute. reflexivity.
Qed.

(** ** Nodes: the mouse move *)







(** An edge that has been redrawn stays so when more are. *)
Lemma redrawn_kept σ σi σj e :
  redrawn_in σ σj →
  edges σi !! e = edges σ !! e ≫= Edge_redrawn σ →
  edges σj !! e = edges σi !! e ∨ edges σj !! e = edges σ !! e ≫= Edge_redrawn σ →
  edges σj !! e = edges σ !! e ≫= Edge_redrawn σ.
Proof. intros _ Hi [Hj|Hj]; congruence. Qed.





(** The edge of the connected pair while the integer node is dragged to
    (100, 50): after the mouse move its path still starts at (53, 30),
    where the knob was, though the knob is at (153, 80) by then; the
    next mouse move brings the path there. *)
Example dragged_path_lags :
  Edge_pos1 <$> edges pair_dragged !! 1%positive = Some (mkQPointF 53 30) ∧
  result (Knob_anchor 1) pair_dragged = Return (mkQPointF 153 80) ∧
  Edge_pos1 <$> edges pair_dragged_on !! 1%positive = Some (mkQPointF 153 80).
Proof. vm_compute. done. Qed.

(** ** Connecting: where the edge runs *)




(** The edge of the connected pair runs along the curve from (53, 30)
    to (1, 30). *)
Example connected_pair_curve :
  curve_drawn (mkQPointF 53 30) (mkQPointF 1 30) ∧
  Edge_path <$> edges connected_pair !! 1%positive
  = Some (curve_between (mkQPointF 53 30) (mkQPointF 1 30)).
Proof. split; [|vm_compute; reflexivity]. repeat split; vm_compute; reflexivity. Qed.

(** ** The widget: adding a node *)

(** X23. [NodeGraphWidget.addNode] puts a node into the scene once:
    for a node that is not in the scene, the node and its children
    join it and nothing else changes; for a node that is in the scene,
    nothing changes at all, so that a second [addNode] is without
    effect. *)
Theorem addNode_adds_once σ n nd :
  nodes σ !! n = Some nd →
  ∃ σ',
    NodeGraphWidget_addNode n σ = (Return tt, σ') ∧
    σ' = set_scene_items (λ _, scene_items σ') σ ∧
    INode n ∈ scene_items σ' ∧
    (INode n ∈ scene_items σ → σ' = σ) ∧
    (INode n ∉ scene_items σ →
     scene_items σ' = {[INode n]} ∪ list_to_set (Node_childItems nd) ∪ scene_items σ) ∧
    NodeGraphWidget_addNode n σ' = (Return tt, σ').
Proof.
  intros Hn. unfold NodeGraphWidget_addNode.
  rewrite (bind_Return _ _ _ _ _ (get_eq _)).
  destruct (bool_decide_reflect (INode n ∈ scene_items σ)) as [Hin|Hout].
  - exists σ. split_and!; try done.
    + by destruct σ.
    + rewrite (bind_Return _ _ _ _ _ (get_eq _)).
      by rewrite bool_decide_eq_true_2.
  - rewrite (bind_Return _ _ _ _ _ (the_node_Some _ _ _ Hn)).
    eexists. split; [reflexivity|]. split_and!; try done.
    + simpl. set_solver.
    + rewrite (bind_Return _ _ _ _ _ (get_eq _)).
      rewrite bool_decide_eq_true_2; [done|]. simpl. set_solver.
Qed.

Lemma addNode_adds_once_witness :
  ∃ nd,
    nodes integer_outside !! 1%positive = Some nd ∧
    ∃ σ',
      NodeGraphWidget_addNode 1 integer_outside = (Return tt, σ') ∧
      σ' = set_scene_items (λ _, scene_items σ') integer_outside ∧
      INode 1 ∈ scene_items σ' ∧
      (INode 1 ∈ scene_items integer_outside → σ' = integer_outside) ∧
      (INode 1 ∉ scene_items integer_outside →
       scene_items σ'
       = {[INode 1]} ∪ list_to_set (Node_childItems nd) ∪ scene_items integer_outside) ∧
      NodeGraphWidget_addNode 1 σ' = (Return tt, σ').
Proof.
  eexists. split; [vm_compute; reflexivity|].
  apply (addNode_adds_once integer_outside 1). vm_compute. reflexivity.
Defined.

(** A node built outside the scene has its knobs outside it, where
    they cannot be connected; [addNode] brings them in. *)
Example addNode_brings_the_knobs :
  (IKnob 1 ∉ scene_items integer_outside) ∧
  IKnob 1 ∈ scene_items (exec (NodeGraphWidget_addNode 1) integer_outside).
Proof. split; by_compute. Qed.

(** ** The gesture: a press during a gesture *)

(** The store in the middle of a gesture has no dangling reference
    either. *)
Lemma drafting_closed σ a oa e σ1 :
  closed σ →
  knobs σ !! a = Some oa →
  drafting (pressed σ a oa e) a e σ1 →
  closed σ1.
Proof.
  intros [Hk Hs] Ha (ed & out & -> & _).
  assert (∀ i, Item_live σ i →
               Item_live (set_stdout (λ _, out)
                            (set_edges (insert e ed) (pressed σ a oa e))) i) as Hlive.
  { intros i. destruct i; simpl; rewrite ?dom_insert; set_solver. }
  assert (∀ o, Knob_closed σ o →
               Knob_closed (set_stdout (λ _, out)
                              (set_edges (insert e ed) (pressed σ a oa e))) o) as Hclosed.
  { intros o [He Hp]. split.
    - intros i Hi. apply Hlive. by apply He.
    - by destruct (Knob_parentItem o). }
  split.
  - simpl. apply map_Forall_insert_2.
    + destruct (Hclosed oa (Hk a oa Ha)) as [He Hp]. split; [|done]. simpl.
      apply set_Forall_union; [|done].
      apply set_Forall_singleton. simpl. rewrite dom_insert. set_solver.
    + intros k o Ho. apply Hclosed. by apply (Hk k o).
  - simpl. apply set_Forall_union.
    + apply set_Forall_singleton. simpl. rewrite dom_insert. set_solver.
    + intros i Hi. apply Hlive. by apply Hs.
Qed.

(** X24. A press of the left button on a knob while a gesture is under
    way starts a new draft and forgets the old one, which nothing
    removes any more: when the gesture has ended with a release over
    empty space, the filter is idle, and the first draft is still in
    the set of the knob it started from and still in the scene, an edge
    with one knob. *)
Theorem second_press_orphans_the_draft σ a b press1 press2 release :
  closed σ →
  a ∈ dom (knobs σ) → b ∈ dom (knobs σ) →
  IKnob a ∈ scene_items σ → IKnob b ∈ scene_items σ →
  press_on a press1 →
  press_on b press2 →
  release_off_knobs release →
  ∃ e ed σ',
    deliver [press1; press2; release] σ = (Return tt, σ') ∧
    Idle σ' ∧
    edges σ !! e = None ∧
    (IEdge e ∉ scene_items σ) ∧
    edges σ' !! e = Some ed ∧
    Edge_knob1 ed = Some a ∧
    Edge_knob2 ed = None ∧
    IEdge e ∈ edges_of σ' a ∧
    IEdge e ∈ scene_items σ'.
Proof.
  intros Hc [oa Ha]%elem_of_dom [ob Hb]%elem_of_dom Hsa Hsb Hp1 Hp2 Hrel.
  destruct (press_starts_draft σ a oa press1 Hc Ha Hsa Hp1) as (σ1 & Hrun1 & Hd1).
  set (e := fresh (dom (edges σ))) in *.
  pose proof (drafting_closed σ a oa e σ1 Hc Ha Hd1) as Hc1.
  destruct Hd1 as (ed & out & Hσ1 & Hk1 & Hk2).
  assert (knobs σ1 = <[a := Knob_add (IEdge e) oa]> (knobs σ)) as Hknobs1
    by (by rewrite Hσ1).
  assert (scene_items σ1 = {[IEdge e]} ∪ scene_items σ) as Hscene1
    by (by rewrite Hσ1).
  assert (edges σ1 = <[e := ed]> (edges σ)) as Hedges1 by (by rewrite Hσ1).
  assert (∃ ob1, knobs σ1 !! b = Some ob1) as [ob1 Hb1].
  { rewrite Hknobs1. destruct (decide (a = b)) as [<-|Hne].
    - rewrite lookup_insert_eq. by eexists.
    - rewrite lookup_insert_ne by done. by eexists. }
  assert (IKnob b ∈ scene_items σ1) as Hsb1 by (rewrite Hscene1; set_solver).
  destruct (press_starts_draft σ1 b ob1 press2 Hc1 Hb1 Hsb1 Hp2) as (σ2 & Hrun2 & Hd2).
  set (e2 := fresh (dom (edges σ1))) in *.
  destruct (release_drops_draft σ1 b ob1 e2 σ2 release Hc1 Hb1 Hsb1 eq_refl Hd2
              (or_intror Hrel)) as (ed2 & out2 & Hrun3).
  assert (e2 ≠ e) as Hne.
  { intros Heq. pose proof (is_fresh (dom (edges σ1))) as Hfresh.
    fold e2 in Hfresh. rewrite Heq, Hedges1, dom_insert in Hfresh. set_solver. }
  eexists e, ed, _. split_and!.
  - rewrite (deliver_cons _ _ _ _ _ Hrun1), (deliver_cons _ _ _ _ _ Hrun2).
    rewrite (deliver_cons _ _ _ _ _ Hrun3). apply deliver_nil.
  - done.
  - apply Edge_init_fresh.
  - by apply fresh_edge_not_in_scene.
  - simpl. rewrite lookup_insert_ne by done. rewrite Hedges1.
    apply lookup_insert_eq.
  - done.
  - done.
  - unfold edges_of. simpl. rewrite Hknobs1, lookup_insert_eq. simpl. set_solver.
  - simpl. rewrite Hscene1. set_solver.
Qed.

Lemma second_press_orphans_the_draft_witness :
  ∃ e ed σ',
    deliver [press_knob1; press_knob2; release_away] two_nodes = (Return tt, σ') ∧
    Idle σ' ∧
    edges two_nodes !! e = None ∧
    (IEdge e ∉ scene_items two_nodes) ∧
    edges σ' !! e = Some ed ∧
    Edge_knob1 ed = Some 1%positive ∧
    Edge_knob2 ed = None ∧
    IEdge e ∈ edges_of σ' 1 ∧
    IEdge e ∈ scene_items σ'.
Proof.
  apply (second_press_orphans_the_draft two_nodes 1 2 press_knob1 press_knob2
           release_away).
  - by_compute.
  - by_compute.
  - by_compute.
  - by_compute.
  - by_compute.
  - event_facts.
  - event_facts.
  - event_facts.
Defined.

(** ** Layout: one knob more *)

Lemma knobs_in_app σ l1 l2 :
  knobs_in σ (l1 ++ l2) = (knobs_in σ l1 ++ knobs_in σ l2)%list.
Proof. unfold knobs_in. apply omap_app. Qed.

Lemma py_max_snoc x l y : py_max x (l ++ [y]) = Z.max (py_max x l) y.
Proof. unfold py_max. by rewrite foldl_app. Qed.

(** The heights [addKnob] reads when the children are knobs. *)
Lemma heights_of_knobs σ ks : ∀ hs,
  mapM (Item_height σ) (IKnob <$> ks) = Some hs →
  hs = Knob_h <$> knobs_in σ (IKnob <$> ks).
Proof.
  induction ks as [|k ks IH]; intros hs Hhs; simpl in Hhs.
  - by injection Hhs as <-.
  - rewrite fmap_cons, knobs_in_cons.
    destruct (knobs σ !! k) as [o|]; simpl in Hhs; [|done].
    change (list_fmap positive Item IKnob ks) with (IKnob <$> ks) in Hhs.
    destruct (mapM (Item_height σ) (IKnob <$> ks)) as [hs0|] eqn:Hhs0;
      simpl in Hhs; [|done].
    injection Hhs as <-. by rewrite (IH hs0).
Qed.

(** X25. One knob more makes a node one row higher. When a node that
    is laid out, whose children are its header and knobs, is given a
    knob that was not its child, [addKnob] puts an input or output knob
    at the height the node had, makes the node higher by the knob's
    height and one margin, and makes it as wide as the new knob's row
    asks, and never narrower than it was. *)
Theorem addKnob_grows_node dm σ n k σ' nd h hd ks ok :
  Node_addKnob dm n k σ = (Return tt, σ') →
  nodes σ !! n = Some nd →
  Node_header nd = Some h →
  headers σ !! h = Some hd →
  Node_childItems nd = IHeader h :: (IKnob <$> ks) →
  Node_w nd = width_laid_out dm (Node_margin nd) (Header_text hd) (Node_knobs σ nd) →
  Node_h nd = height_laid_out (Node_margin nd) (Header_h hd) (Node_knobs σ nd) →
  knobs σ !! k = Some ok →
  Knob_parentItem ok ≠ Some n →
  ∃ nd' ok',
    nodes σ' !! n = Some nd' ∧
    knobs σ' !! k = Some ok' ∧
    Node_h nd' = Node_h nd + Knob_h ok + Node_margin nd ∧
    Node_w nd'
    = Z.max (Node_w nd)
        (Knob_w ok + Node_margin nd + width (dm (Knob_labelText ok)) + Node_margin nd) ∧
    Node_w nd ≤ Node_w nd' ∧
    (Knob_class ok ≠ BaseKnob → qy (Knob_pos ok') = float_of_Z (Node_h nd)).
Proof.
  intros Hrun Hn Hh Hhd Hch Hw Hht Hk Hpar.
  apply Node_addKnob_inv in Hrun
    as (nd0 & h0 & hd0 & ok0 & hs & Hn0 & Hh0 & Hhd0 & Hk0 & Hhs & Hrest).
  rewrite Hn in Hn0. injection Hn0 as <-.
  rewrite Hh in Hh0. injection Hh0 as <-.
  rewrite Hhd in Hhd0. injection Hhd0 as <-.
  rewrite Hk in Hk0. injection Hk0 as <-.
  cbv zeta in Hrest. destruct Hrest as (Hk' & Hn' & _).
  unfold children_with in Hk', Hn'.
  rewrite bool_decide_eq_false_2 in Hk', Hn' by done.
  set (m := Node_margin nd) in *.
  (* the children before, in the store before and after *)
  rewrite Node_knobs_eq, Hch in Hw, Hht.
  rewrite knobs_in_cons in Hw, Hht.
  rewrite Hch in Hhs, Hk', Hn'. simpl in Hhs. rewrite Hhd in Hhs. simpl in Hhs.
  destruct (mapM (Item_height σ) (IKnob <$> ks)) as [hs0|] eqn:Hhs0; [|done].
  injection Hhs as <-. apply heights_of_knobs in Hhs0 as ->.
  set (os := knobs_in σ (IKnob <$> ks)) in *.
  set (items := ((IHeader h :: (IKnob <$> ks)) ++ [IKnob k])%list) in *.
  assert (∀ {A} (f : Knob → A), (∀ n nd hd hs w o, f (Knob_added n nd hd hs w o) = f o) →
            f <$> knobs_in σ' items = ((f <$> os) ++ [f ok])%list) as Hafter.
  { intros A f Hf. unfold items.
    rewrite knobs_in_app, fmap_app, knobs_in_cons.
    assert (∀ k', f <$> knobs σ' !! k' = f <$> knobs σ !! k') as Hsame.
    { intros k'. rewrite Hk'. destruct (decide (k = k')) as [<-|Hne].
      - rewrite lookup_insert_eq, Hk. simpl. by rewrite Hf.
      - by rewrite lookup_insert_ne. }
    rewrite (knobs_in_ext f σ' σ _ Hsame). f_equal.
    rewrite knobs_in_cons, Hk', lookup_insert_eq. simpl. by rewrite Hf. }
  eexists _, _. split; [exact Hn'|]. split.
  { rewrite Hk'. apply lookup_insert_eq. }
  assert (Node_h (Node_with_h
            (height_laid_out m (Header_h hd) (knobs_in σ' items))
            (Node_with_w (width_laid_out dm m (Header_text hd) (knobs_in σ' items))
               (Node_with_childItems items nd)))
          = Node_h nd + Knob_h ok + m) as Hheight.
  { change (height_laid_out m (Header_h hd) (knobs_in σ' items)
            = Node_h nd + Knob_h ok + m).
    rewrite Hht. unfold height_laid_out.
    change (map (λ k0, Knob_h k0 + m) (knobs_in σ' items))
      with ((λ k0, Knob_h k0 + m) <$> knobs_in σ' items).
    change (map (λ k0, Knob_h k0 + m) os) with ((λ k0, Knob_h k0 + m) <$> os).
    rewrite (Hafter _ (λ k0, Knob_h k0 + m)).
    - rewrite py_sum_app, (py_sum_cons _ []). change (py_sum []) with 0. lia.
    - intros. unfold Knob_added. by destruct (Knob_class o). }
  assert (Node_w (Node_with_h
            (height_laid_out m (Header_h hd) (knobs_in σ' items))
            (Node_with_w (width_laid_out dm m (Header_text hd) (knobs_in σ' items))
               (Node_with_childItems items nd)))
          = Z.max (Node_w nd) (Knob_w ok + m + width (dm (Knob_labelText ok)) + m))
    as Hwidth.
  { change (width_laid_out dm m (Header_text hd) (knobs_in σ' items)
            = Z.max (Node_w nd) (Knob_w ok + m + width (dm (Knob_labelText ok)) + m)).
    rewrite Hw. unfold width_laid_out.
    change (map (Knob_row dm m) (knobs_in σ' items))
      with (Knob_row dm m <$> knobs_in σ' items).
    change (map (Knob_row dm m) os) with (Knob_row dm m <$> os).
    rewrite (Hafter _ (Knob_row dm m)).
    - rewrite py_max_snoc. unfold Knob_row. lia.
    - intros. unfold Knob_added, Knob_row. by destruct (Knob_class o). }
  split_and!.
  - exact Hheight.
  - exact Hwidth.
  - rewrite Hwidth. lia.
  - intros Hcls. unfold Knob_added. fold m.
    assert (py_sum (map (λ h0, h0 + m) (Header_h hd :: (Knob_h <$> os))) = Node_h nd)
      as ->.
    { rewrite Hht. unfold height_laid_out. simpl map. rewrite py_sum_cons.
      rewrite map_map. change (map ?f os) with (f <$> os). lia. }
    by destruct (Knob_class ok).
Qed.

Lemma addKnob_grows_node_witness :
  ∃ nd ok,
    (nodes multiply_before_value !! 1%positive = Some nd ∧
     knobs multiply_before_value !! 3%positive = Some ok) ∧
    ∃ nd' ok',
      nodes one_multiply !! 1%positive = Some nd' ∧
      knobs one_multiply !! 3%positive = Some ok' ∧
      Node_h nd' = Node_h nd + Knob_h ok + Node_margin nd ∧
      Node_w nd'
      = Z.max (Node_w nd)
          (Knob_w ok + Node_margin nd + width (fixed_pitch (Knob_labelText ok))
           + Node_margin nd) ∧
      Node_w nd ≤ Node_w nd' ∧
      (Knob_class ok ≠ BaseKnob → qy (Knob_pos ok') = float_of_Z (Node_h nd)).
Proof.
  eexists _, _. split.
  { split; vm_compute; reflexivity. }
  eapply (addKnob_grows_node fixed_pitch multiply_before_value 1 3 one_multiply
            _ 1 _ [1; 2]%positive).
  - vm_compute. reflexivity.
  - vm_compute. reflexivity.
  - reflexivity.
  - vm_compute. reflexivity.
  - reflexivity.
  - vm_compute. reflexivity.
  - vm_compute. reflexivity.
  - vm_compute. reflexivity.
  - discriminate.
Defined.
